(** * gitx-tauri: the presentation layer over the version-control engine

    A shallow embedding of the TypeScript components that drive the
    hunk-level patch engine and the commit graph:

    - [DiffView]      (DiffView.tsx): splitting a unified diff into rows,
      numbering them, and locating the hunk a click refers to;
    - [StageView]     (StageView.tsx): the stage / unstage / discard handlers
      that talk to the engine;
    - [CommitHistory] (CommitHistory.tsx): the commit-list requests and the
      hue of a graph line;
    - [Launcher]      (App.tsx): the recent-repositories list.

    JavaScript strings are modelled by [string]; the code only inspects the
    ASCII characters newline, [@], [+], [-], [/], the digits, space and comma,
    so code units and bytes agree on everything the code looks at.
    JavaScript numbers are doubles.  The counters and products the code
    computes have integer values: they are modelled by the integer, rounded
    to the nearest double wherever JavaScript rounds, with NaN and Infinity
    apart.  Up to 2^53 nothing is rounded. *)

From Stdlib Require Import List String Ascii ZArith NArith Arith Bool Lia.
From Stdlib Require Import DecimalString.
Import ListNotations.

Open Scope string_scope.

(* ===================================================================== *)
(** ** JavaScript primitives used by the components                       *)
(* ===================================================================== *)

Module Js.

(** The newline character of ["\n"]. *)
Definition nl : ascii := "010"%char.
Definition NL : string := String nl EmptyString.

(** [s.split(sep)] for a one-character separator: never the empty array. *)
Fixpoint split (sep : ascii) (s : string) : list string :=
  match s with
  | EmptyString => [EmptyString]
  | String c s' =>
      if Ascii.eqb c sep then EmptyString :: split sep s'
      else match split sep s' with
           | [] => [String c EmptyString]
           | w :: ws => String c w :: ws
           end
  end.

(** [arr.join(sep)]. *)
Fixpoint join (sep : string) (l : list string) : string :=
  match l with
  | [] => EmptyString
  | x :: rest =>
      match rest with
      | [] => x
      | _ :: _ => x ++ sep ++ join sep rest
      end
  end.

(** [arr.slice(start, end)] and [arr.slice(start)] for indices that are
    non-negative integers; out-of-range indices are clamped. *)
Definition slice {A} (start stop : nat) (l : list A) : list A :=
  firstn (stop - start) (skipn start l).
Definition sliceFrom {A} (start : nat) (l : list A) : list A :=
  skipn start l.

(** [s.startsWith(p)]. *)
Definition startsWith (s p : string) : bool := String.prefix p s.

(** Truthiness of a string, and of an optional string ([undefined], [null]
    or a string): the empty string is falsy. *)
Definition truthy (s : string) : bool :=
  match s with EmptyString => false | String _ _ => true end.
Definition truthyOpt (o : option string) : bool :=
  match o with None => false | Some s => truthy s end.

(** [a || b] on strings. *)
Definition orElse (a b : string) : string := if truthy a then a else b.

(** Numbers that hold a counter.  JavaScript numbers are doubles: a
    counter is NaN, Infinity, or a double whose value is the natural
    number [n], written [Int n]. *)
Inductive num : Type := NaN | Int (n : N) | Infinity.

(** 2^53: up to here every natural number is a double. *)
Definition maxExact : N := 9007199254740992.

(** The double nearest to the natural number [n]: [n] itself below 2^53;
    above, its 53 leading bits rounded to nearest, a tie going to the
    even mantissa; Infinity when that reaches 2^1024. *)
Definition nearestDouble (n : N) : num :=
  if (n <? maxExact)%N then Int n
  else
    let e := (N.log2 n - 52)%N in
    let q := N.shiftr n e in
    let r := (n - N.shiftl q e)%N in
    let half := N.shiftl 1 (e - 1) in
    let q' :=
      if (half <? r)%N || ((r =? half)%N && N.odd q) then (q + 1)%N else q in
    let v := N.shiftl q' e in
    if (N.shiftl 1 1024 <=? v)%N then Infinity else Int v.

Definition isDigit (c : ascii) : bool :=
  let n := N_of_ascii c in ((48 <=? n) && (n <=? 57))%N.
Definition digitVal (c : ascii) : N := (N_of_ascii c - 48)%N.

Fixpoint digitsValue (acc : N) (s : string) : N :=
  match s with
  | String c s' =>
      if isDigit c then digitsValue (10 * acc + digitVal c)%N s' else acc
  | EmptyString => acc
  end.

(** [parseInt(s)] on a string without leading blanks, sign or radix prefix
    (the only arguments it gets are regular-expression captures): the
    double nearest to the value of the leading digits.  (ECMAScript lets
    an engine drop the digits after the twentieth; V8 and JavaScriptCore,
    the engines of the web views, round the whole numeral.) *)
Definition parseInt (s : string) : num :=
  match s with
  | String c _ => if isDigit c then nearestDouble (digitsValue 0 s) else NaN
  | EmptyString => NaN
  end.

(** The decimal numeral of a natural number. *)
Definition decimal (n : N) : string :=
  NilEmpty.string_of_uint (N.to_uint n).

(** Whether the natural number [m] reads back as the double of value [v]. *)
Definition readsAs (m v : N) : bool :=
  match nearestDouble m with
  | Int w => (w =? v)%N
  | _ => false
  end.

(** The digits [String(x)] prints for a double of value [v]: the fewest
    digits [s] and the power of ten [j] such that [s * 10^j] reads back as
    [v], and of two such [s] the one closer to [v], the even one at a
    tie.  The powers are tried from [j] down; with 0 the digits are those
    of [v]. *)
Fixpoint fewestDigits (v : N) (j : nat) : N * nat :=
  let p := (10 ^ N.of_nat j)%N in
  let lo := (v / p)%N in
  let hi := (lo + 1)%N in
  let okLo := (0 <? lo)%N && readsAs (lo * p) v in
  let okHi := readsAs (hi * p) v in
  if okLo && okHi then
    let dLo := (v - lo * p)%N in
    let dHi := (hi * p - v)%N in
    if (dLo <? dHi)%N then (lo, j)
    else if (dHi <? dLo)%N then (hi, j)
    else if N.even lo then (lo, j) else (hi, j)
  else if okLo then (lo, j)
  else if okHi then (hi, j)
  else match j with
       | O => (v, O)
       | S j' => fewestDigits v j'
       end.

Fixpoint zeros (j : nat) : string :=
  match j with
  | O => EmptyString
  | S j' => String "0" (zeros j')
  end.

(** [String(x)]: up to 2^53 the numeral of the value; above, the fewest
    digits that read back as [x], followed by zeros up to 21 digits in
    all and written with an exponent beyond. *)
Definition toString (x : num) : string :=
  match x with
  | NaN => "NaN"
  | Infinity => "Infinity"
  | Int n =>
      if (n <=? maxExact)%N then decimal n
      else
        let '(s, j) := fewestDigits n (String.length (decimal n)) in
        let digits := decimal s in
        let k := String.length digits in
        if (k + j <=? 21)%nat then digits ++ zeros j
        else
          match digits with
          | String c rest =>
              String c (match rest with
                        | EmptyString => EmptyString
                        | String _ _ => "." ++ rest
                        end)
              ++ "e+" ++ decimal (N.of_nat (k + j - 1))
          | EmptyString => EmptyString
          end
  end.

(** The post-increment [x++]: the value stored, [x + 1] as a double. *)
Definition incr (x : num) : num :=
  match x with
  | NaN => NaN
  | Int n => nearestDouble (n + 1)
  | Infinity => Infinity
  end.

Arguments nearestDouble : simpl never.
Arguments toString : simpl never.
Arguments incr : simpl never.

End Js.

(* ===================================================================== *)
(** ** The regular expression of the hunk header                          *)
(* ===================================================================== *)

Module Regex.

Inductive atom : Type :=
| Chr (c : ascii)          (* a literal character *)
| Digit.                   (* \d *)

Inductive regex : Type :=
| Eps
| Atom (a : atom)
| Cat (r1 r2 : regex)
| Opt (r : regex)          (* r?  greedy *)
| Star (a : atom)          (* a*  greedy *)
| Plus (a : atom)          (* a+  greedy *)
| Group (i : nat) (r : regex).   (* the i-th capturing group *)

Definition captures : Type := list (nat * string).

Definition accepts (a : atom) (c : ascii) : bool :=
  match a with
  | Chr d => Ascii.eqb c d
  | Digit => Js.isDigit c
  end.

(** The text consumed between input [s] and its suffix [s']. *)
Definition consumed (s s' : string) : string :=
  substring 0 (String.length s - String.length s') s.

Section Backtracking.
Context {R : Type}.

(** Greedy iteration: take one more character if possible, and fall back
    to the continuation on failure. *)
Fixpoint star (a : atom) (s : string) (k : string -> option R) : option R :=
  match s with
  | String c s' =>
      if accepts a c then
        match star a s' k with
        | Some r => Some r
        | None => k s
        end
      else k s
  | EmptyString => k s
  end.
End Backtracking.

(** Backtracking matcher in continuation-passing style: [run r s cs k]
    matches [r] at the start of [s] and hands the rest of the input and
    the captures to [k]; the first success in priority order wins. *)
Fixpoint run (r : regex) (s : string) (cs : captures)
         (k : string -> captures -> option captures) : option captures :=
  match r with
  | Eps => k s cs
  | Atom a =>
      match s with
      | String c s' => if accepts a c then k s' cs else None
      | EmptyString => None
      end
  | Cat r1 r2 => run r1 s cs (fun s1 cs1 => run r2 s1 cs1 k)
  | Opt r1 =>
      match run r1 s cs k with
      | Some x => Some x
      | None => k s cs
      end
  | Star a => star a s (fun s' => k s' cs)
  | Plus a =>
      match s with
      | String c s' =>
          if accepts a c then star a s' (fun s'' => k s'' cs) else None
      | EmptyString => None
      end
  | Group i r1 => run r1 s cs (fun s' cs' => k s' ((i, consumed s s') :: cs'))
  end.

(** [s.match(r)] for a regular expression without flags: the leftmost
    position at which [r] matches. *)
Fixpoint search (r : regex) (s : string) : option captures :=
  match run r s [] (fun _ cs => Some cs) with
  | Some cs => Some cs
  | None =>
      match s with
      | String _ s' => search r s'
      | EmptyString => None
      end
  end.

(** [match[i]]. *)
Fixpoint group (i : nat) (cs : captures) : option string :=
  match cs with
  | [] => None
  | (j, v) :: rest => if Nat.eqb i j then Some v else group i rest
  end.

Fixpoint lit (s : string) : regex :=
  match s with
  | EmptyString => Eps
  | String c s' => Cat (Atom (Chr c)) (lit s')
  end.

Definition seq (rs : list regex) : regex := fold_right Cat Eps rs.

End Regex.

(* ===================================================================== *)
(** ** DiffView.tsx                                                       *)
(* ===================================================================== *)

Module DiffView.
Import Js.

(** The properties of the component; a callback is modelled by whether it
    is supplied, and a call to it by the arguments it receives. *)
Record Props : Type := {
  diff : string;
  filename : string;
  onDiscard : bool;
  onStage : bool;
  showActions : bool;
  actionLabel : string
}.

Definition isHunkLine (line : string) : bool := startsWith line "@@".

(** The loop [for (i = from; i < lines.length; i++)
    if (lines[i].startsWith("@@")) { found = i; break; }]:
    the index at which it breaks, if it does. *)
Fixpoint scan (i : nat) (rest : list string) : option nat :=
  match rest with
  | [] => None
  | l :: rest' => if isHunkLine l then Some i else scan (S i) rest'
  end.
Definition findHunkFrom (from : nat) (lines : list string) : option nat :=
  scan from (skipn from lines).

(** [startIdx]: 0 unless the loop finds a marker. *)
Definition startIdx (lines : list string) : nat :=
  match findHunkFrom 0 lines with
  | Some i => i
  | None => 0
  end.

(** [/@@ -(\d+),?\d* \+(\d+),?\d* @@/] *)
Definition hunkRe : Regex.regex :=
  Regex.seq
    [ Regex.lit "@@ -";
      Regex.Group 1 (Regex.Plus Regex.Digit);
      Regex.Opt (Regex.Atom (Regex.Chr ","));
      Regex.Star Regex.Digit;
      Regex.lit " +";
      Regex.Group 2 (Regex.Plus Regex.Digit);
      Regex.Opt (Regex.Atom (Regex.Chr ","));
      Regex.Star Regex.Digit;
      Regex.lit " @@" ].

Definition parseGroup (g : option string) : num :=
  match g with
  | Some s => parseInt s
  | None => NaN
  end.

(** One rendered row: the [div] with its class, the two line-number
    cells, the content cell, and the buttons of a hunk row. *)
Record Row : Type := {
  key : nat;
  isHunk : bool;
  className : string;
  oldNum : string;
  newNum : string;
  content : string;
  discardBtn : bool;
  stageBtn : bool
}.

(** The body of the [map] callback: the row of [line] at position [idx]
    and the counters [oldLine], [newLine] it leaves behind. *)
Definition renderLine (p : Props) (idx : nat) (oldLine newLine : num)
           (line : string) : Row * (num * num) :=
  let hunk := isHunkLine line in
  let '(oldLine, newLine) :=
    if hunk then
      match Regex.search hunkRe line with
      | Some m => (parseGroup (Regex.group 1 m), parseGroup (Regex.group 2 m))
      | None => (oldLine, newLine)
      end
    else (oldLine, newLine) in
  let '(cls, oNum, nNum, oldLine', newLine') :=
    if hunk then ("diff-line diff-hunk", EmptyString, EmptyString, oldLine, newLine)
    else if startsWith line "+" then
      ("diff-line diff-add", EmptyString, toString newLine, oldLine, incr newLine)
    else if startsWith line "-" then
      ("diff-line diff-remove", toString oldLine, EmptyString, incr oldLine, newLine)
    else
      ("diff-line", toString oldLine, toString newLine,
       incr oldLine, incr newLine) in
  ({| key := idx;
      isHunk := hunk;
      className := cls;
      oldNum := oNum;
      newNum := nNum;
      content := orElse line " ";
      discardBtn := hunk && showActions p && onDiscard p;
      stageBtn := hunk && showActions p && onStage p |},
   (oldLine', newLine')).

Fixpoint rows (p : Props) (idx : nat) (oldLine newLine : num)
         (ls : list string) : list Row :=
  match ls with
  | [] => []
  | line :: rest =>
      let '(r, (o, n)) := renderLine p idx oldLine newLine line in
      r :: rows p (S idx) o n rest
  end.

Definition lines (p : Props) : list string := split nl (diff p).

(** [renderDiff]: [None] is the [null] of an empty diff. *)
Definition renderDiff (p : Props) : option (list Row) :=
  if truthy (diff p) then
    Some (rows p 0 (Int 0) (Int 0) (sliceFrom (startIdx (lines p)) (lines p)))
  else None.

(** The arguments the two click handlers of row [thisHunkIdx] compute:
    [hunkHeader] ([None] is [undefined]) and [hunkLines]. *)
Definition hunkArgs (ls : list string) (start thisHunkIdx : nat)
  : option string * string :=
  let hunkHeader := nth_error ls (start + thisHunkIdx) in
  let nextHunkIdx : Z :=
    match findHunkFrom (start + thisHunkIdx + 1) ls with
    | Some i => Z.of_nat i
    | None => (-1)%Z
    end in
  let endIdx :=
    if (0 <=? nextHunkIdx)%Z then Z.to_nat nextHunkIdx else List.length ls in
  let hunkLines := join NL (slice (start + thisHunkIdx + 1) endIdx ls) in
  (hunkHeader, hunkLines).

(** [handleStageHunk] and [handleDiscardHunk] of row [thisHunkIdx]: the
    arguments passed to [onStage] / [onDiscard], or [None] when the
    callback is not supplied. *)
Definition handleStageHunk (p : Props) (thisHunkIdx : nat)
  : option (option string * string) :=
  if onStage p then Some (hunkArgs (lines p) (startIdx (lines p)) thisHunkIdx)
  else None.

Definition handleDiscardHunk (p : Props) (thisHunkIdx : nat)
  : option (option string * string) :=
  if onDiscard p then Some (hunkArgs (lines p) (startIdx (lines p)) thisHunkIdx)
  else None.

End DiffView.

(* ===================================================================== *)
(** ** The engine: commands, payloads, and asynchronous handlers          *)
(* ===================================================================== *)

Module Engine.

Record FileStatus : Type := {
  path : string;
  status : string;
  staged : bool
}.

Record GraphLine : Type := {
  upper : bool;
  from : Z;
  to : Z;
  color : Z
}.

Record GitCommit : Type := {
  id : string;
  message : string;
  author : string;
  email : string;
  timestamp : string;
  parents : list string;
  branches : option (list string);
  tags : option (list string);
  lane : Z;
  lines : list GraphLine
}.

(** The calls that leave the presentation layer: [invoke(command, args)]
    and the dialog plug-in's [message(text, {title, kind})]. *)
Inductive Request : Type :=
| get_status (path : string)
| get_diff (path filePath : string) (staged : bool)
| stage_hunk (path filePath fullDiff hunkHeader hunkLines : string)
| unstage_hunk (path filePath fullDiff hunkHeader hunkLines : string)
| discard_hunk (path filePath fullDiff hunkHeader hunkLines : string)
| get_commits (path : string) (limit : N) (localOnly : bool)
              (branchName : option string)
| get_branch_head (path branchName : string)
| dialog_message (text title kind : string).

Inductive Value : Type :=
| VUndefined
| VString (s : string)
| VFiles (l : list FileStatus)
| VCommits (l : list GitCommit).

(** How the promise of a request settles. *)
Inductive Response : Type :=
| Resolve (v : Value)
| Reject (error : string).

(** [invoke<T>] trusts the payload to have the declared type [T]; a
    payload of another shape is outside the engine's contract and is read
    as the empty value of [T]. *)
Definition asString (v : Value) : string :=
  match v with VString s => s | _ => EmptyString end.
Definition asFiles (v : Value) : list FileStatus :=
  match v with VFiles l => l | _ => [] end.
Definition asCommits (v : Value) : list GitCommit :=
  match v with VCommits l => l | _ => [] end.

(** Synchronous effects of the handlers: React state setters, the
    parent's callbacks, timers and the console. *)
Inductive Effect : Type :=
| setUnstagedFiles (l : list FileStatus)
| setStagedFiles (l : list FileStatus)
| setSelectedFile (f : option string)
| setDiff (d : string)
| setLoading (b : bool)
| setCommits (All Local Current : list GitCommit)
| setSelectedCommit (c : GitCommit)
| onCommitSelect (c : GitCommit)
| scrollLater (commitId : string)
| consoleLog (text : string)
| consoleError (text error : string).

End Engine.

Module Async.
Import Engine.

(** A promise handed to [Promise.all]: [invoke(...)] or
    [Promise.resolve(v)]. *)
Inductive Source : Type :=
| Invoke (r : Request)
| Immediate (v : Value).

Inductive Outcome : Type :=
| Fulfilled (vs : list Value)
| Rejected (error : string).

(** The body of an [async] function. *)
Inductive Act : Type :=
| Done
| Emit (e : Effect) (k : Act)                     (* a synchronous statement *)
| Await (r : Request) (k : Response -> Act)       (* await invoke(..) in try/catch *)
| AwaitAll (ps : list Source) (k : Outcome -> Act)  (* await Promise.all([..]) *)
| Call (child : Act) (k : Act).                   (* f() of an async f, not awaited *)

Inductive Event : Type :=
| Issued (r : Request)
| Settled (r : Request) (resp : Response)
| Did (e : Effect).

Inductive Slot : Type :=
| Waiting (r : Request)
| Have (v : Value).

(** A suspended [async] function. *)
Inductive Pending : Type :=
| OnOne (r : Request) (k : Response -> Act)
| OnAll (slots : list Slot) (k : Outcome -> Act).

Definition slotOf (p : Source) : Slot :=
  match p with Invoke r => Waiting r | Immediate v => Have v end.

Fixpoint issuedBy (ps : list Source) : list Event :=
  match ps with
  | [] => []
  | Invoke r :: rest => Issued r :: issuedBy rest
  | Immediate _ :: rest => issuedBy rest
  end.

(** Run to the first [await] of every function on the call stack: the
    events of the synchronous part, in order, and what is left suspended. *)
Fixpoint start (a : Act) : list Event * list Pending :=
  match a with
  | Done => ([], [])
  | Emit e k => let '(t, ps) := start k in (Did e :: t, ps)
  | Await r k => ([Issued r], [OnOne r k])
  | AwaitAll srcs k => (issuedBy srcs, [OnAll (map slotOf srcs) k])
  | Call child k =>
      let '(t1, p1) := start child in
      let '(t2, p2) := start k in
      ((t1 ++ t2)%list, (p1 ++ p2)%list)
  end.

Record Config : Type := {
  trace : list Event;
  pending : list Pending
}.

Definition launch (a : Act) : Config :=
  let '(t, ps) := start a in {| trace := t; pending := ps |}.

Fixpoint removeAt {A} (i : nat) (l : list A) : list A :=
  match i, l with
  | _, [] => []
  | O, _ :: l' => l'
  | S i', x :: l' => x :: removeAt i' l'
  end.

Fixpoint setAt {A} (i : nat) (y : A) (l : list A) : list A :=
  match i, l with
  | _, [] => []
  | O, _ :: l' => y :: l'
  | S i', x :: l' => x :: setAt i' y l'
  end.

Fixpoint values (slots : list Slot) : option (list Value) :=
  match slots with
  | [] => Some []
  | Have v :: rest =>
      match values rest with
      | Some vs => Some (v :: vs)
      | None => None
      end
  | Waiting _ :: _ => None
  end.

Definition continue (c : Config) (i : nat) (ev : list Event) (a : Act)
  : Config :=
  let '(t, ps) := start a in
  {| trace := (trace c ++ ev ++ t)%list;
     pending := (removeAt i (pending c) ++ ps)%list |}.

(** The promise behind slot [j] of suspended function [i] settles with
    [resp].  A rejected member rejects the whole [Promise.all] at once. *)
Definition deliver (c : Config) (i j : nat) (resp : Response)
  : option Config :=
  match nth_error (pending c) i with
  | Some (OnOne r k) => Some (continue c i [Settled r resp] (k resp))
  | Some (OnAll slots k) =>
      match nth_error slots j with
      | Some (Waiting r) =>
          match resp with
          | Resolve v =>
              Some {| trace := (trace c ++ [Settled r resp])%list;
                      pending :=
                        setAt i (OnAll (setAt j (Have v) slots) k) (pending c) |}
          | Reject e =>
              Some (continue c i [Settled r resp] (k (Rejected e)))
          end
      | _ => None
      end
  | None => None
  end.

(** A [Promise.all] all of whose members have resolved resumes its
    function with the array of values. *)
Definition resume (c : Config) (i : nat) : option Config :=
  match nth_error (pending c) i with
  | Some (OnAll slots k) =>
      match values slots with
      | Some vs => Some (continue c i [] (k (Fulfilled vs)))
      | None => None
      end
  | _ => None
  end.

Inductive step (c c' : Config) : Prop :=
| step_deliver (i j : nat) (resp : Response) :
    deliver c i j resp = Some c' -> step c c'
| step_resume (i : nat) :
    resume c i = Some c' -> step c c'.

Inductive steps (c : Config) : Config -> Prop :=
| steps_refl : steps c c
| steps_step (c1 c2 : Config) :
    steps c c1 -> step c1 c2 -> steps c c2.

(** The requests issued so far, in order. *)
Fixpoint issued (t : list Event) : list Request :=
  match t with
  | [] => []
  | Issued r :: t' => r :: issued t'
  | _ :: t' => issued t'
  end.

Fixpoint effects (t : list Event) : list Effect :=
  match t with
  | [] => []
  | Did e :: t' => e :: effects t'
  | _ :: t' => effects t'
  end.

End Async.

(* ===================================================================== *)
(** ** StageView.tsx                                                      *)
(* ===================================================================== *)

Module StageView.
Import Js Engine Async.

(** The properties and state a handler closes over. *)
Record State : Type := {
  repoPath : string;
  selectedFile : option string;      (* string | null *)
  selectedStaged : bool;
  diff : string
}.

Definition toUpperCase (c : ascii) : ascii :=
  let n := nat_of_ascii c in
  if (97 <=? n)%nat && (n <=? 122)%nat then ascii_of_nat (n - 32) else c.

(** [getStatusPriority]; [None] is the TypeError of [status[0]] on an
    empty string. *)
Definition getStatusPriority (status : string) : option Z :=
  match status with
  | EmptyString => None
  | String c _ =>
      let s := toUpperCase c in
      if Ascii.eqb s "D" then Some 2%Z
      else if Ascii.eqb s "M" then Some 1%Z
      else Some 0%Z
  end.

Section Host.
(** Built-ins of the JavaScript host: [String.prototype.localeCompare]
    and [Array.prototype.sort] with a comparator that may throw. *)
Variable localeCompare : string -> string -> Z.
Variable arraySort :
  (FileStatus -> FileStatus -> option Z) ->
  list FileStatus -> option (list FileStatus).

Definition compareUnstaged (a b : FileStatus) : option Z :=
  match getStatusPriority (status b), getStatusPriority (status a) with
  | Some pb, Some pa =>
      let statusDiff := (pb - pa)%Z in
      Some (if (statusDiff =? 0)%Z then localeCompare (path a) (path b)
            else statusDiff)
  | _, _ => None
  end.

Definition compareStaged (a b : FileStatus) : option Z :=
  Some (localeCompare (path a) (path b)).

Definition clearSelection (k : Act) : Act :=
  Emit (setSelectedFile None) (Emit (setDiff EmptyString) k).

(** [loadStatus]: one [get_status] request; everything after the
    [await] is inside the [try]. *)
Definition loadStatus (st : State) : Act :=
  Await (get_status (repoPath st)) (fun r =>
    match r with
    | Resolve v =>
        let files := asFiles v in
        match arraySort compareUnstaged
                (filter (fun f => negb (staged f)) files),
              arraySort compareStaged (filter staged files) with
        | Some unstaged, Some stagedL =>
            Emit (setUnstagedFiles unstaged)
           (Emit (setStagedFiles stagedL)
             (let noFilesLeft k :=
                if (List.length unstaged =? 0)%nat
                   && (List.length stagedL =? 0)%nat
                then clearSelection k else k in
              match selectedFile st with
              | Some f =>
                  if truthy f then
                    let fileExists :=
                      existsb (fun x => String.eqb (path x) f)
                              (if selectedStaged st then stagedL
                               else unstaged) in
                    Emit (consoleLog "Check file exists:")
                      (if fileExists then noFilesLeft Done
                       else clearSelection (noFilesLeft Done))
                  else noFilesLeft Done
              | None => noFilesLeft Done
              end))
        | _, _ => Emit (consoleError "Failed to load status:" "TypeError") Done
        end
    | Reject error => Emit (consoleError "Failed to load status:" error) Done
    end).

(** [loadDiff]. *)
Definition loadDiff (st : State) (filePath : string) (isStaged : bool)
  : Act :=
  Await (get_diff (repoPath st) filePath isStaged) (fun r =>
    match r with
    | Resolve v => Emit (setDiff (asString v)) Done
    | Reject error =>
        Emit (consoleError "Failed to load diff:" error)
             (Emit (setDiff EmptyString) Done)
    end).

(** The request of [handleStageHunk]: [unstage_hunk] for a staged
    selection, [stage_hunk] otherwise. *)
Definition stageRequest (st : State) (file hunkHeader hunkLines : string)
  : Request :=
  if selectedStaged st then
    unstage_hunk (repoPath st) file (diff st) hunkHeader hunkLines
  else
    stage_hunk (repoPath st) file (diff st) hunkHeader hunkLines.

Definition errorDialog (text : string) : Request :=
  dialog_message text "Error" "error".

(** [handleStageHunk(hunkHeader?, hunkLines?)]. *)
Definition handleStageHunk (st : State) (hunkHeader hunkLines : option string)
  : Act :=
  match selectedFile st, hunkHeader, hunkLines with
  | Some file, Some header, Some body =>
      if negb (truthy file) || negb (truthy header) || negb (truthy body)
      then Done
      else
        Await (stageRequest st file header body) (fun r =>
          match r with
          | Resolve _ =>
              Call (loadStatus st)
                   (Call (loadDiff st file (selectedStaged st)) Done)
          | Reject error =>
              Await (errorDialog
                       ("Failed to "
                        ++ (if selectedStaged st then "unstage" else "stage")
                        ++ " hunk: " ++ error))
                    (fun _ => Done)
          end)
  | _, _, _ => Done
  end.

(** [handleDiscardHunk(hunkHeader?, hunkLines?)]. *)
Definition handleDiscardHunk (st : State)
           (hunkHeader hunkLines : option string) : Act :=
  match selectedFile st, hunkHeader, hunkLines with
  | Some file, Some header, Some body =>
      if negb (truthy file) || negb (truthy header) || negb (truthy body)
      then Done
      else
        Await (discard_hunk (repoPath st) file (diff st) header body)
          (fun r =>
            match r with
            | Resolve _ =>
                Call (loadStatus st)
                     (Call (loadDiff st file (selectedStaged st)) Done)
            | Reject error =>
                Await (errorDialog ("Failed to discard hunk: " ++ error))
                      (fun _ => Done)
            end)
  | _, _, _ => Done
  end.

(** The [DiffView] that [StageView] renders when a file is selected:
    [onStage] is always supplied, [onDiscard] only for an unstaged
    selection. *)
Definition diffView (st : State) : option DiffView.Props :=
  match selectedFile st with
  | Some file =>
      if truthy file then
        Some {| DiffView.diff := diff st;
                DiffView.filename := file;
                DiffView.onDiscard := negb (selectedStaged st);
                DiffView.onStage := true;
                DiffView.showActions := true;
                DiffView.actionLabel :=
                  if selectedStaged st then "Unstage" else "Stage" |}
      else None
  | None => None
  end.

(** The two buttons of a hunk row. *)
Inductive Button : Type := StageButton | DiscardButton.

Definition hasButton (row : DiffView.Row) (b : Button) : bool :=
  match b with
  | StageButton => DiffView.stageBtn row
  | DiscardButton => DiffView.discardBtn row
  end.

(** A click on button [b] of rendered row [idx]: the [DiffView] handler
    of that row computes the arguments and calls the [StageView]
    handler with them.  Without such a button nothing happens. *)
Definition click (st : State) (b : Button) (idx : nat) : Act :=
  match diffView st with
  | Some p =>
      match DiffView.renderDiff p with
      | Some rendered =>
          match nth_error rendered idx with
          | Some row =>
              if hasButton row b then
                match b with
                | StageButton =>
                    match DiffView.handleStageHunk p idx with
                    | Some (header, body) =>
                        handleStageHunk st header (Some body)
                    | None => Done
                    end
                | DiscardButton =>
                    match DiffView.handleDiscardHunk p idx with
                    | Some (header, body) =>
                        handleDiscardHunk st header (Some body)
                    | None => Done
                    end
                end
              else Done
          | None => Done
          end
      | None => Done
      end
  | None => Done
  end.

(** The handler behind a button and the engine request it makes. *)
Definition handler (b : Button) : State -> option string -> option string -> Act :=
  match b with
  | StageButton => handleStageHunk
  | DiscardButton => handleDiscardHunk
  end.

Definition hunkRequest (b : Button) (st : State)
           (file header body : string) : Request :=
  match b with
  | StageButton => stageRequest st file header body
  | DiscardButton => discard_hunk (repoPath st) file (diff st) header body
  end.

Definition failureText (b : Button) (st : State) (error : string) : string :=
  match b with
  | StageButton =>
      "Failed to " ++ (if selectedStaged st then "unstage" else "stage")
      ++ " hunk: " ++ error
  | DiscardButton => "Failed to discard hunk: " ++ error
  end.

End Host.
End StageView.

(* ===================================================================== *)
(** ** CommitHistory.tsx                                                  *)
(* ===================================================================== *)

Module CommitHistory.
Import Js Engine Async.

Record Props : Type := {
  repoPath : string;
  currentBranch : option string      (* currentBranch?: string *)
}.

(** The three members of the [Promise.all] of [loadAllCommits]. *)
Definition allRequest (p : Props) : Request :=
  get_commits (repoPath p) 10000 false None.
Definition localRequest (p : Props) : Request :=
  get_commits (repoPath p) 10000 true None.
Definition currentSource (p : Props) : Source :=
  if truthyOpt (currentBranch p) then
    Invoke (get_commits (repoPath p) 10000 false (currentBranch p))
  else Immediate (VCommits []).

Definition select (c : GitCommit) (k : Act) : Act :=
  Emit (setSelectedCommit c) (Emit (onCommitSelect c) k).

(** [loadAllCommits]; the [finally] block is the trailing
    [setLoading(false)] of every path. *)
Definition loadAllCommits (p : Props) : Act :=
  let finally := Emit (setLoading false) Done in
  Emit (setLoading true)
    (AwaitAll [Invoke (allRequest p); Invoke (localRequest p); currentSource p]
       (fun o =>
          match o with
          | Fulfilled [allV; localV; currentV] =>
              let allList := asCommits allV in
              Emit (setCommits allList (asCommits localV) (asCommits currentV))
                (match allList, currentBranch p with
                 | first :: _, Some branch =>
                     if truthy branch then
                       Await (get_branch_head (repoPath p) branch) (fun r =>
                         match r with
                         | Resolve v =>
                             let branchHeadSha := asString v in
                             let commitToSelect :=
                               match find (fun c => String.eqb (id c) branchHeadSha)
                                          allList with
                               | Some headCommit => headCommit
                               | None => first
                               end in
                             select commitToSelect
                               (Emit (scrollLater (id commitToSelect)) finally)
                         | Reject _ => select first finally
                         end)
                     else finally
                 | _, _ => finally
                 end)
          | Fulfilled _ =>
              (* not reached: the array has three members *)
              Emit (consoleError "Failed to load commits:" "TypeError") finally
          | Rejected error =>
              Emit (consoleError "Failed to load commits:" error) finally
          end)).

(** The double nearest to an integer; [None]: beyond the largest double,
    that is Infinity or -Infinity. *)
Definition doubleOfZ (z : Z) : option Z :=
  match nearestDouble (Z.abs_N z) with
  | Int n => Some (Z.sgn z * Z.of_N n)%Z
  | _ => None
  end.

(** The hue of a graph line, [(line.color * 60) % 360], for the colour
    index the engine sent: the index read from JSON and the product are
    doubles; [%] is the remainder that takes the sign of the dividend and
    is exact.  [None] is NaN, the remainder of an infinite product. *)
Definition hue (line : GraphLine) : option Z :=
  match doubleOfZ (color line) with
  | Some index =>
      match doubleOfZ (index * 60) with
      | Some product => Some (Z.rem product 360)
      | None => None
      end
  | None => None
  end.

(** The [stroke] attribute, [`hsl(${hue}, 70%, 60%)`]. *)
Definition stroke (line : GraphLine) : string :=
  "hsl("
  ++ match hue line with
     | Some h => NilEmpty.string_of_int (Z.to_int h)
     | None => "NaN"
     end
  ++ ", 70%, 60%)".

End CommitHistory.

(* ===================================================================== *)
(** ** Launcher (App.tsx): the recent repositories                        *)
(* ===================================================================== *)

Module Launcher.
Import Js.

Record RecentRepo : Type := {
  path : string;
  name : string;
  lastOpened : string
}.

(** The component state [recentRepos] and the entry
    ["gitx-tauri-recent-repos"] of the local storage ([None]: absent);
    the stored JSON text is modelled by the list it encodes. *)
Record State : Type := {
  recentRepos : list RecentRepo;
  stored : option (list RecentRepo)
}.

(** [useState([])] on a machine that never ran the application. *)
Definition initial : State := {| recentRepos := []; stored := None |}.

(** A new window: the state starts empty, the storage is kept. *)
Definition mount (s : State) : State :=
  {| recentRepos := []; stored := stored s |}.

(** [loadRecentRepos]. *)
Definition loadRecentRepos (s : State) : State :=
  match stored s with
  | Some l => {| recentRepos := l; stored := stored s |}
  | None => s
  end.

(** [path.split("/").pop() || path]. *)
Definition repoName (p : string) : string :=
  orElse (List.last (split "/" p) EmptyString) p.

(** [addToRecentRepos(path)]; [now] is [new Date().toISOString()]. *)
Definition addToRecentRepos (now : string) (s : State) (p : string) : State :=
  let newRepo := {| path := p; name := repoName p; lastOpened := now |} in
  let updated :=
    slice 0 10
      (newRepo :: filter (fun r => negb (String.eqb (path r) p)) (recentRepos s)) in
  {| recentRepos := updated; stored := Some updated |}.

(** [deleteRecentRepo(path, e)]. *)
Definition deleteRecentRepo (s : State) (p : string) : State :=
  let updated := filter (fun r => negb (String.eqb (path r) p)) (recentRepos s) in
  {| recentRepos := updated; stored := Some updated |}.

(** The states the launcher can be in. *)
Inductive reachable : State -> Prop :=
| reach_initial : reachable initial
| reach_mount s : reachable s -> reachable (mount s)
| reach_load s : reachable s -> reachable (loadRecentRepos s)
| reach_add s now p : reachable s -> reachable (addToRecentRepos now s p)
| reach_delete s p : reachable s -> reachable (deleteRecentRepo s p).

End Launcher.

(* ===================================================================== *)
(** ** Objects used as maps from names to booleans                        *)
(* ===================================================================== *)

Module Dict.

(** The names every object inherits from [Object.prototype]. *)
Definition prototypeNames : list string :=
  ["__proto__"; "constructor"; "hasOwnProperty"; "isPrototypeOf";
   "propertyIsEnumerable"; "toLocaleString"; "toString"; "valueOf";
   "__defineGetter__"; "__defineSetter__"; "__lookupGetter__";
   "__lookupSetter__"].

(** The own properties of an object of type [{ [key: string]: boolean }],
    in the order in which they were added. *)
Definition Flags : Type := list (string * bool).

Fixpoint lookup (key : string) (m : Flags) : option bool :=
  match m with
  | [] => None
  | (k, v) :: m' => if String.eqb k key then Some v else lookup key m'
  end.

(** The truthiness of [m[key]]: an inherited property is a function or
    an object. *)
Definition truthyAt (m : Flags) (key : string) : bool :=
  match lookup key m with
  | Some v => v
  | None => existsb (String.eqb key) prototypeNames
  end.

(** [{ ...m, [key]: v }]. *)
Fixpoint assign (key : string) (v : bool) (m : Flags) : Flags :=
  match m with
  | [] => [(key, v)]
  | (k, v') :: m' =>
      if String.eqb k key then (k, v) :: m' else (k, v') :: assign key v m'
  end.

(** [{ ...prev, [key]: !prev[key] }]. *)
Definition flip (prev : Flags) (key : string) : Flags :=
  assign key (negb (truthyAt prev key)) prev.

(** The statement [m[key] = v]: for the key [__proto__] it calls the
    inherited setter, which ignores a boolean. *)
Definition store (key : string) (v : bool) (m : Flags) : Flags :=
  if String.eqb key "__proto__" then m else assign key v m.

End Dict.

(* ===================================================================== *)
(** ** RepoView (App.tsx): remotes and the collapsed files                *)
(* ===================================================================== *)

Module RepoView.

Record GitRemote : Type := {
  name : string;
  url : string;
  branches : option (list string)
}.

(** [arr.findIndex(f)]; [None] is the -1 of no match. *)
Fixpoint findIndexFrom {A} (f : A -> bool) (i : nat) (l : list A) : option nat :=
  match l with
  | [] => None
  | x :: l' => if f x then Some i else findIndexFrom f (S i) l'
  end.
Definition findIndex {A} (f : A -> bool) (l : list A) : option nat :=
  findIndexFrom f 0 l.

(** [arr.filter((x, index) => f(x, index))], from position [i] on. *)
Fixpoint filterFrom {A} (f : A -> nat -> bool) (i : nat) (l : list A) : list A :=
  match l with
  | [] => []
  | x :: l' =>
      if f x i then x :: filterFrom f (S i) l' else filterFrom f (S i) l'
  end.

(** [uniqueRemotes] of [loadRemotes]: the remotes whose index is the
    first index of their name. *)
Definition uniqueRemotes (remoteList : list GitRemote) : list GitRemote :=
  filterFrom
    (fun remote index =>
       match findIndex (fun r => String.eqb (name r) (name remote)) remoteList with
       | Some first => Nat.eqb index first
       | None => false
       end)
    0 remoteList.

(** The states [remotes] and [remoteCollapsed]. *)
Record Remotes : Type := {
  remotes : list GitRemote;
  remoteCollapsed : Dict.Flags
}.

(** [initialCollapsed] of [loadRemotes]. *)
Definition initialCollapsed (uniqueRemotes : list GitRemote) : Dict.Flags :=
  fold_left (fun m remote => Dict.store (name remote) true m) uniqueRemotes [].

(** The two states after [get_remotes] resolved with [remoteList]. *)
Definition loadRemotes (remoteList : list GitRemote) : Remotes :=
  {| remotes := uniqueRemotes remoteList;
     remoteCollapsed := initialCollapsed (uniqueRemotes remoteList) |}.

(** The updater of [loadRemoteBranches]:
    [prev.map((r) => (r.name === remoteName ? { ...r, branches } : r))]. *)
Definition withBranches (remoteName : string) (loaded : list string)
           (prev : list GitRemote) : list GitRemote :=
  map (fun r =>
         if String.eqb (name r) remoteName
         then {| name := name r; url := url r; branches := Some loaded |}
         else r)
      prev.

(** [toggleRemote(remoteName)]: the states after the click, and the
    remote whose branches it asks [loadRemoteBranches] for, if any. *)
Definition toggleRemote (s : Remotes) (remoteName : string)
  : Remotes * option string :=
  let isCurrentlyCollapsed := Dict.truthyAt (remoteCollapsed s) remoteName in
  ({| remotes := remotes s;
      remoteCollapsed := Dict.flip (remoteCollapsed s) remoteName |},
   if isCurrentlyCollapsed then
     match find (fun r => String.eqb (name r) remoteName) (remotes s) with
     | Some remote =>
         match branches remote with
         | None => Some remoteName
         | Some _ => None
         end
     | None => None
     end
   else None).

(** [onSelectBranch] of the tree of remote [remoteName]: the value given
    to [setSelectedBranch]. *)
Definition onSelectRemoteBranch (remoteName branch : string) : option string :=
  Some (remoteName ++ "/" ++ branch).

(** [collapsedFiles], a [Set<number>]: its members in insertion order. *)
Definition IndexSet : Type := list nat.

Definition has (s : IndexSet) (i : nat) : bool := existsb (Nat.eqb i) s.
Definition delete (s : IndexSet) (i : nat) : IndexSet :=
  filter (fun j => negb (Nat.eqb j i)) s.
Definition add (s : IndexSet) (i : nat) : IndexSet :=
  if has s i then s else (s ++ [i])%list.
Definition size (s : IndexSet) : nat := List.length s.

(** The updater of [toggleFileCollapse(index)]. *)
Definition toggleFileCollapse (prev : IndexSet) (index : nat) : IndexSet :=
  if has prev index then delete prev index else add prev index.

(** The click on the collapse-all button when [commitFiles] has [n]
    entries: [new Set()] or [new Set(commitFiles.map((_, i) => i))]. *)
Definition collapseAllClick (collapsedFiles : IndexSet) (n : nat) : IndexSet :=
  if Nat.eqb (size collapsedFiles) n then [] else seq 0 n.

(** The label of that button. *)
Definition collapseAllLabel (collapsedFiles : IndexSet) (n : nat) : string :=
  if Nat.eqb (size collapsedFiles) n then "Expand All" else "Collapse All".

(** The states of [collapsedFiles]: it starts empty and changes by the two
    clicks; the number of files changes with the commit shown. *)
Inductive collapsible : IndexSet -> Prop :=
| collapsible_initial : collapsible []
| collapsible_toggle s i : collapsible s -> collapsible (toggleFileCollapse s i)
| collapsible_all s n : collapsible s -> collapsible (collapseAllClick s n).

End RepoView.

(* ===================================================================== *)
(** ** CommitHistory.tsx: the cells of a commit row                       *)
(* ===================================================================== *)

Module CommitRow.

(** [commit.message.split("\n")[0]]. *)
Definition subject (message : string) : string :=
  List.hd EmptyString (Js.split Js.nl message).

End CommitRow.

(* ===================================================================== *)
(** ** Launcher (App.tsx): where a clone goes                             *)
(* ===================================================================== *)

Module Clone.
Import Js.

(** [s.slice(n)] on a string. *)
Fixpoint dropChars (n : nat) (s : string) : string :=
  match n, s with
  | O, _ => s
  | S n', String _ s' => dropChars n' s'
  | S _, EmptyString => EmptyString
  end.

(** [s.replace(pat, rep)] for a string pattern and a replacement text
    without [$]: the first occurrence only. *)
Fixpoint replaceFirst (pat rep s : string) : string :=
  if String.prefix pat s then rep ++ dropChars (String.length pat) s
  else match s with
       | EmptyString => EmptyString
       | String c s' => String c (replaceFirst pat rep s')
       end.

(** [cloneUrl.split("/").pop()?.replace(".git", "") || "repo"]. *)
Definition repoName (cloneUrl : string) : string :=
  orElse (replaceFirst ".git" EmptyString
            (List.last (split "/" cloneUrl) EmptyString))
         "repo".

(** [`${clonePath}/${repoName}`]. *)
Definition fullPath (clonePath cloneUrl : string) : string :=
  clonePath ++ "/" ++ repoName cloneUrl.

End Clone.

(* ===================================================================== *)
(** ** BranchTree.tsx                                                     *)
(* ===================================================================== *)

Module BranchTree.
Import Js.

Record GitBranch : Type := {
  name : string;
  is_head : bool
}.

(** A [BranchTree] object: the array under the key [_branches] ([None]:
    no such key) and the sub-trees under the other keys, in the order in
    which the keys were added. *)
#[warnings="-register-all"]
Inductive Tree : Type :=
| Node (own : option (list string)) (folders : list (string * Tree)).

Definition own (t : Tree) : option (list string) :=
  match t with Node o _ => o end.
Definition folders (t : Tree) : list (string * Tree) :=
  match t with Node _ fs => fs end.

(** [{}]. *)
Definition empty : Tree := Node None [].

(** Keys for which [tree[key]] is not a lookup among the folders: the key
    of the array, and the names every object inherits from
    [Object.prototype].  A branch with such a folder name is outside this
    model. *)
Definition reserved : list string := "_branches" :: Dict.prototypeNames.

Definition ordinary (key : string) : bool :=
  negb (existsb (String.eqb key) reserved).

(** [obj[key]] and [obj[key] = v] on the folders. *)
Fixpoint get (key : string) (fs : list (string * Tree)) : option Tree :=
  match fs with
  | [] => None
  | (k, v) :: fs' => if String.eqb k key then Some v else get key fs'
  end.

Fixpoint set (key : string) (v : Tree) (fs : list (string * Tree))
  : list (string * Tree) :=
  match fs with
  | [] => [(key, v)]
  | (k, v') :: fs' =>
      if String.eqb k key then (key, v) :: fs' else (k, v') :: set key v fs'
  end.

(** [if (!current._branches) current._branches = [];
     current._branches.push(branch.name)]. *)
Definition pushBranch (branchName : string) (current : Tree) : Tree :=
  Node (Some (match own current with
              | Some l => l
              | None => []
              end ++ [branchName])%list)
       (folders current).

(** [if (!current[key]) current[key] = {}; current = current[key]]: the
    object the walk goes on with. *)
Definition child (key : string) (current : Tree) : Tree :=
  match get key (folders current) with
  | Some sub => sub
  | None => empty
  end.

(** The walk from the object [current] along [keys] and the push at its
    end; the last of [keys] names no folder and is not looked at.  The
    result is [current] after the update ([None]: a reserved key). *)
Fixpoint fileUnder (keys : list string) (branchName : string) (current : Tree)
  : option Tree :=
  match keys with
  | [] => Some (pushBranch branchName current)
  | key :: keys' =>
      match keys' with
      | [] => Some (pushBranch branchName current)
      | _ :: _ =>
          if ordinary key then
            match fileUnder keys' branchName (child key current) with
            | Some sub =>
                Some (Node (own current) (set key sub (folders current)))
            | None => None
            end
          else None
      end
  end.

(** The body of the [forEach] of [buildBranchTree]. *)
Definition addBranch (tree : Tree) (branch : GitBranch) : option Tree :=
  let parts := split "/" (name branch) in
  if Nat.eqb (List.length parts) 1 then
    Some (pushBranch (name branch) tree)
  else
    match parts with
    | prefix :: rest =>
        if ordinary prefix then
          (* [current = tree[prefix]], then the loop over [rest] *)
          match fileUnder rest (name branch) (child prefix tree) with
          | Some sub => Some (Node (own tree) (set prefix sub (folders tree)))
          | None => None
          end
        else None
    | [] => None
    end.

Fixpoint addAll (tree : Tree) (branches : list GitBranch) : option Tree :=
  match branches with
  | [] => Some tree
  | branch :: rest =>
      match addBranch tree branch with
      | Some tree' => addAll tree' rest
      | None => None
      end
  end.

Definition buildBranchTree (branches : list GitBranch) : option Tree :=
  addAll empty branches.

(** The sub-tree reached from [tree] by the keys of [path], and the
    branch names listed there. *)
Fixpoint at_ (tree : Tree) (path : list string) : option Tree :=
  match path with
  | [] => Some tree
  | key :: path' =>
      match get key (folders tree) with
      | Some sub => at_ sub path'
      | None => None
      end
  end.

Definition branchesAt (tree : Tree) (path : list string) : list string :=
  match at_ tree path with
  | Some (Node (Some l) _) => l
  | _ => []
  end.

(** The longest chain of folders in a tree, the tree itself counted. *)
Fixpoint depth (t : Tree) : nat :=
  match t with
  | Node _ fs =>
      S ((fix deepest (l : list (string * Tree)) : nat :=
            match l with
            | [] => 0
            | (_, sub) :: l' => Nat.max (depth sub) (deepest l')
            end) fs)
  end.

(** The rows [renderTree] produces. *)
Inductive Element : Type :=
| BranchItem (key : string) (selected : bool) (paddingLeft : nat)
             (label : string) (current : bool)
| BranchFolder (key : string) (paddingLeft : nat) (collapsed : bool)
               (label : string).

Inductive ItemType : Type := branchType | folderType.

Record Item : Type := {
  type : ItemType;
  itemName : string
}.

(** [items.forEach(item => elements.push(...))], where producing the
    rows of an item may fail. *)
Fixpoint forEach (f : Item -> option (list Element)) (items : list Item)
  : option (list Element) :=
  match items with
  | [] => Some []
  | item :: rest =>
      match f item, forEach f rest with
      | Some rows, Some more => Some (rows ++ more)%list
      | _, _ => None
      end
  end.

(** [prefix ? `${prefix}/${name}` : name]. *)
Definition folderKeyOf (prefix itemName : string) : string :=
  if truthy prefix then prefix ++ "/" ++ itemName else itemName.

(** The state [folderCollapsed] and the truthiness of
    [folderCollapsed[key]]. *)
Definition Collapsed : Type := Dict.Flags.

Definition collapsedAt (m : Collapsed) (key : string) : bool :=
  Dict.truthyAt m key.

(** The updater of the click on a folder row:
    [{ ...prev, [folderKey]: !prev[folderKey] }]. *)
Definition toggleFolder (prev : Collapsed) (folderKey : string) : Collapsed :=
  Dict.flip prev folderKey.

Section Render.
(** Built-ins of the host: [localeCompare], [Array.prototype.sort] and
    [Object.keys]. *)
Variable localeCompare : string -> string -> Z.
Variable arraySort : (Item -> Item -> Z) -> list Item -> list Item.
Variable objectKeys : Tree -> list string.

(** The props and the state [renderTree] reads. *)
Variable branches : list GitBranch.
Variable selectedBranch : option string.
Variable folderCollapsed : Collapsed.

(** The row of a branch item. *)
Definition branchRow (level : nat) (itemName : string) : Element :=
  let branch := find (fun b => String.eqb (name b) itemName) branches in
  let isSelected :=
    match selectedBranch with
    | Some s => String.eqb s itemName
    | None => false
    end in
  BranchItem itemName isSelected (16 + level * 12)
             (List.last (split "/" itemName) EmptyString)
             (match branch with Some b => is_head b | None => false end).

(** [renderTree(tree, level, prefix)]; [None]: the recursion is deeper
    than [fuel], or a folder item names no key of the tree (a
    [TypeError]). *)
Fixpoint renderTree (fuel : nat) (tree : Tree) (level : nat) (prefix : string)
  : option (list Element) :=
  match fuel with
  | O => None
  | S fuel' =>
      let rootBranches := own tree in
      let folderNames :=
        filter (fun k => negb (String.eqb k "_branches")) (objectKeys tree) in
      let items :=
        ((match rootBranches with
          | Some l => map (fun n => {| type := branchType; itemName := n |}) l
          | None => []
          end)
         ++ map (fun n => {| type := folderType; itemName := n |}) folderNames)%list
      in
      let sorted :=
        arraySort (fun a b => localeCompare (itemName a) (itemName b)) items in
      forEach
        (fun item =>
           match type item with
           | branchType => Some [branchRow level (itemName item)]
           | folderType =>
               let folderKey := folderKeyOf prefix (itemName item) in
               let isCollapsed := collapsedAt folderCollapsed folderKey in
               let row :=
                 BranchFolder (prefix ++ "-" ++ itemName item)
                              (16 + level * 12) isCollapsed (itemName item) in
               if isCollapsed then Some [row]
               else
                 match get (itemName item) (folders tree) with
                 | Some sub =>
                     match renderTree fuel' sub (level + 1) folderKey with
                     | Some rows => Some (row :: rows)
                     | None => None
                     end
                 | None => None
                 end
           end)
        sorted
  end.
End Render.

(** [getRemoteForBranch], on the names of [remotes]; [None] is [null]. *)
Definition getRemoteForBranch (remotes : list string) : option string :=
  if Nat.eqb (List.length remotes) 0 then None
  else
    let hasOrigin := existsb (fun r => String.eqb r "origin") remotes in
    if hasOrigin then Some "origin" else List.hd_error remotes.

(** The state [contextMenu] set by a right click on the row of branch
    [itemName]. *)
Record Menu : Type := {
  branch : string;
  isHead : bool;
  remote : option string
}.

Definition openMenu (branches : list GitBranch) (remotes : list string)
           (itemName : string) : Menu :=
  let found := find (fun b => String.eqb (name b) itemName) branches in
  {| branch := itemName;
     isHead := match found with Some b => is_head b | None => false end;
     remote := getRemoteForBranch remotes |}.

(** What the parent is asked when an entry of the menu is clicked
    ([None]: nothing), in a tree that was given the callbacks, as the tree
    of the local branches is. *)
Inductive Ask : Type :=
| onCheckoutBranch (branch : string)
| onFetch (branch remote : string)
| onPull (branch remote : string).

Definition clickCheckout (m : Menu) : option Ask :=
  if negb (isHead m) then Some (onCheckoutBranch (branch m)) else None.

Definition clickFetch (m : Menu) : option Ask :=
  match remote m with
  | Some r => if truthy r then Some (onFetch (branch m) r) else None
  | None => None
  end.

Definition clickPull (m : Menu) : option Ask :=
  match remote m with
  | Some r =>
      if isHead m && truthy r then Some (onPull (branch m) r) else None
  | None => None
  end.

(** The double click on the row of branch [itemName]. *)
Definition doubleClick (branches : list GitBranch) (itemName : string)
  : option Ask :=
  let found := find (fun b => String.eqb (name b) itemName) branches in
  if negb (match found with Some b => is_head b | None => false end)
  then Some (onCheckoutBranch itemName) else None.

End BranchTree.

(* ===================================================================== *)
(** ** The specification's words, for comparison with the code            *)
(* ===================================================================== *)

Module Spec.

Fixpoint takeWhile {A} (f : A -> bool) (l : list A) : list A :=
  match l with
  | [] => []
  | x :: l' => if f x then x :: takeWhile f l' else []
  end.

(** "Each hunk's body runs until the next marker or end of text": the
    lines strictly after line [j], up to but excluding the next line that
    begins with the marker. *)
Definition hunkBody (ls : list string) (j : nat) : list string :=
  takeWhile (fun l => negb (DiffView.isHunkLine l)) (skipn (S j) ls).



(** A header ["@@ -a,x +b,y @@"] followed by any text. *)
Definition header (a x b y rest : string) : string :=
  "@@ -" ++ a ++ "," ++ x ++ " +" ++ b ++ "," ++ y ++ " @@" ++ rest.

Fixpoint allDigits (s : string) : bool :=
  match s with
  | EmptyString => true
  | String c s' => Js.isDigit c && allDigits s'
  end.

(** A decimal numeral: one digit or more. *)
Definition numeral (s : string) : Prop :=
  s <> EmptyString /\ allDigits s = true.

End Spec.

(* ===================================================================== *)
(** ** Facts about the primitives                                         *)
(* ===================================================================== *)

Section ListFacts.
Context {A : Type}.

Lemma takeWhile_stop (f : A -> bool) (pre : list A) (x : A) (post : list A) :
  Forall (fun y => f y = true) pre -> f x = false ->
  Spec.takeWhile f (pre ++ x :: post) = pre.
Proof.
  intros Hpre Hx. induction Hpre as [|y pre Hy _ IH]; simpl.
  - now rewrite Hx.
  - now rewrite Hy, IH.
Qed.

Lemma takeWhile_all (f : A -> bool) (l : list A) :
  Forall (fun y => f y = true) l -> Spec.takeWhile f l = l.
Proof.
  intros H. induction H as [|y l Hy _ IH]; simpl; [reflexivity|].
  now rewrite Hy, IH.
Qed.

Lemma firstn_length_app (pre post : list A) :
  firstn (List.length pre) (pre ++ post) = pre.
Proof.
  induction pre; simpl; [now destruct post | now f_equal].
Qed.

Lemma skipn_length_app (pre post : list A) :
  skipn (List.length pre) (pre ++ post) = post.
Proof. induction pre; simpl; auto. Qed.
End ListFacts.

Section SplitFacts.
Import Js.

Lemma split_nonempty (sep : ascii) (s : string) : split sep s <> [].
Proof.
  destruct s as [|c s]; simpl; [discriminate|].
  destruct (Ascii.eqb c sep); [discriminate|].
  destruct (split sep s); discriminate.
Qed.

(** The empty text has a single, empty line. *)
Lemma split_empty (sep : ascii) : split sep EmptyString = [EmptyString].
Proof. reflexivity. Qed.

Lemma orElse_truthy (a b : string) : truthy a = true -> orElse a b = a.
Proof. unfold orElse. now intros ->. Qed.
End SplitFacts.

(* ===================================================================== *)
(** ** DiffView: the marker scan and the rendered rows                    *)
(* ===================================================================== *)

Section ScanFacts.
Import DiffView.

Definition plain (l : string) : Prop := isHunkLine l = false.

Lemma hunk_line_truthy (m : string) : isHunkLine m = true -> Js.truthy m = true.
Proof. destruct m; [discriminate | reflexivity]. Qed.

Lemma scan_Some (rest : list string) : forall i j,
  scan i rest = Some j ->
  exists pre m post,
    rest = (pre ++ m :: post)%list /\ j = i + List.length pre /\
    isHunkLine m = true /\ Forall plain pre.
Proof.
  induction rest as [|l rest IH]; intros i j H; simpl in H; [discriminate|].
  destruct (isHunkLine l) eqn:Hl.
  - inversion H; subst. exists [], l, rest. simpl.
    repeat split; auto with arith.
  - destruct (IH _ _ H) as (pre & m & post & -> & -> & Hm & Hpre).
    exists (l :: pre), m, post. simpl. repeat split; auto; lia.
Qed.

Lemma scan_None (rest : list string) : forall i,
  scan i rest = None -> Forall plain rest.
Proof.
  induction rest as [|l rest IH]; intros i H; simpl in H; [constructor|].
  destruct (isHunkLine l) eqn:Hl; [discriminate|].
  constructor; [exact Hl | eauto].
Qed.

Lemma scan_finds (pre : list string) (m : string) (post : list string) :
  Forall plain pre -> isHunkLine m = true ->
  forall i, scan i (pre ++ m :: post) = Some (i + List.length pre).
Proof.
  intros Hpre Hm. induction Hpre as [|l pre Hl _ IH]; intros i; simpl.
  - rewrite Hm. f_equal. lia.
  - rewrite Hl, IH. f_equal. lia.
Qed.

Lemma scan_plain (rest : list string) :
  Forall plain rest -> forall i, scan i rest = None.
Proof.
  intros H. induction H as [|l rest Hl _ IH]; intros i; simpl; auto.
  now rewrite Hl.
Qed.

(** Where the rendering starts when the text has a marker. *)
Lemma startIdx_first (ls : list string) :
  Exists (fun l => isHunkLine l = true) ls ->
  exists pre m post,
    ls = (pre ++ m :: post)%list /\ startIdx ls = List.length pre /\
    isHunkLine m = true /\ Forall plain pre.
Proof.
  intros Hex. unfold startIdx, findHunkFrom. simpl skipn.
  destruct (scan 0 ls) as [j|] eqn:Hs.
  - destruct (scan_Some _ _ _ Hs) as (pre & m & post & -> & -> & Hm & Hpre).
    exists pre, m, post. auto.
  - apply scan_None in Hs. exfalso.
    apply Exists_exists in Hex. destruct Hex as (l & Hin & Hl).
    rewrite Forall_forall in Hs. specialize (Hs _ Hin).
    unfold plain in Hs. congruence.
Qed.

Lemma startIdx_plain (ls : list string) :
  Forall plain ls -> startIdx ls = 0.
Proof.
  intros H. unfold startIdx, findHunkFrom. simpl skipn.
  now rewrite scan_plain.
Qed.

(** Every marker line lies at or after [startIdx]. *)
Lemma startIdx_le (ls : list string) (j : nat) (m : string) :
  nth_error ls j = Some m -> isHunkLine m = true -> startIdx ls <= j.
Proof.
  intros Hj Hm.
  destruct (startIdx_first ls) as (pre & m0 & post & Hls & Hst & _ & Hpre).
  { apply Exists_exists. exists m. split; [eapply nth_error_In; eauto | auto]. }
  rewrite Hst. destruct (Nat.le_gt_cases (List.length pre) j) as [|Hlt]; auto.
  exfalso. rewrite Hls, nth_error_app1 in Hj by exact Hlt.
  apply nth_error_In in Hj. rewrite Forall_forall in Hpre.
  specialize (Hpre _ Hj). unfold plain in Hpre. congruence.
Qed.
End ScanFacts.

Section RowFacts.
Import Js DiffView.

(** What row [k] shows of line [l], whatever the counters are. *)
Definition rowOf (p : Props) (k : nat) (l : string) (r : Row) : Prop :=
  key r = k /\ isHunk r = isHunkLine l /\ content r = orElse l " " /\
  discardBtn r = isHunkLine l && showActions p && onDiscard p /\
  stageBtn r = isHunkLine l && showActions p && onStage p.

Lemma renderLine_rowOf (p : Props) (k : nat) (o n : num) (l : string) :
  rowOf p k l (fst (renderLine p k o n l)).
Proof.
  unfold rowOf, renderLine.
  destruct (isHunkLine l); [destruct (Regex.search hunkRe l)|];
    repeat match goal with
           | |- context [if ?b then _ else _] => destruct b
           end; simpl; repeat split; reflexivity.
Qed.

Lemma rows_length (p : Props) (ls : list string) : forall k o n,
  List.length (rows p k o n ls) = List.length ls.
Proof.
  induction ls as [|l ls IH]; intros k o n; simpl; [reflexivity|].
  destruct (renderLine p k o n l) as [r [o' n']]. simpl. now rewrite IH.
Qed.

Lemma rows_nth (p : Props) (ls : list string) : forall k o n i l,
  nth_error ls i = Some l ->
  exists r, nth_error (rows p k o n ls) i = Some r /\ rowOf p (k + i) l r.
Proof.
  induction ls as [|l0 ls IH]; intros k o n [|i] l H; simpl in H;
    try discriminate.
  - inversion H; subst. simpl.
    pose proof (renderLine_rowOf p k o n l) as Hr.
    destruct (renderLine p k o n l) as [r [o' n']]. simpl in *.
    exists r. now rewrite Nat.add_0_r.
  - simpl. destruct (renderLine p k o n l0) as [r0 [o' n']]. simpl.
    destruct (IH (S k) o' n' i l H) as (r & Hr & Hrow).
    exists r. split; [exact Hr|]. now rewrite <- Nat.add_succ_comm.
Qed.

Lemma rows_content (p : Props) (ls : list string) : forall k o n,
  map content (rows p k o n ls) = map (fun l => orElse l " ") ls.
Proof.
  induction ls as [|l ls IH]; intros k o n; simpl; [reflexivity|].
  pose proof (renderLine_rowOf p k o n l) as (_ & _ & Hc & _).
  destruct (renderLine p k o n l) as [r [o' n']]. simpl in *.
  now rewrite Hc, IH.
Qed.

Lemma rows_plain (p : Props) (ls : list string) : forall k o n,
  Forall plain ls ->
  Forall (fun r => isHunk r = false /\ discardBtn r = false /\ stageBtn r = false)
         (rows p k o n ls).
Proof.
  induction ls as [|l ls IH]; intros k o n H; simpl; [constructor|].
  inversion H as [|? ? Hl Hls]; subst.
  pose proof (renderLine_rowOf p k o n l) as (_ & Hh & _ & Hd & Hs).
  destruct (renderLine p k o n l) as [r [o' n']]. simpl in *.
  unfold plain in Hl. rewrite Hl in *. constructor; auto.
Qed.

(** The arguments a hunk row's handlers compute are the marker line and
    the body in the specification's sense. *)
Lemma hunkArgs_spec (ls : list string) (start idx : nat) (m : string) :
  nth_error ls (start + idx) = Some m ->
  hunkArgs ls start idx
  = (Some m, join NL (Spec.hunkBody ls (start + idx))).
Proof.
  intros Hm. unfold hunkArgs, findHunkFrom, Spec.hunkBody, slice.
  rewrite Hm. f_equal. f_equal.
  replace (start + idx + 1) with (S (start + idx)) by lia.
  set (j := start + idx). set (tl := skipn (S j) ls).
  destruct (scan (S j) tl) as [e|] eqn:Hs.
  - destruct (scan_Some _ _ _ Hs) as (pre & m' & post & Htl & -> & Hm' & Hpre).
    replace (0 <=? Z.of_nat (S j + List.length pre))%Z with true
      by (symmetry; apply Z.leb_le; lia).
    rewrite Nat2Z.id, Htl.
    replace (S j + List.length pre - S j) with (List.length pre) by lia.
    rewrite firstn_length_app. symmetry. apply takeWhile_stop.
    + eapply Forall_impl; [|exact Hpre]. intros l Hl. unfold plain in Hl.
      now rewrite Hl.
    + now rewrite Hm'.
  - change (0 <=? -1)%Z with false. cbv iota.
    apply scan_None in Hs.
    rewrite firstn_all2 by (unfold tl; rewrite length_skipn; lia).
    symmetry. apply takeWhile_all.
    eapply Forall_impl; [|exact Hs]. intros l Hl. unfold plain in Hl.
    now rewrite Hl.
Qed.
End RowFacts.

(* ===================================================================== *)
(** ** The header expression on a well-formed header                      *)
(* ===================================================================== *)

Section RegexFacts.
Import Js Regex.


Lemma length_app_string (s t : string) :
  String.length (s ++ t) = String.length s + String.length t.
Proof. induction s; simpl; auto. Qed.

Lemma substring_app_prefix (s t : string) :
  substring 0 (String.length s) (s ++ t) = s.
Proof.
  induction s as [|c s IH]; simpl.
  - now destruct t.
  - now rewrite IH.
Qed.

Lemma consumed_app (s t : string) : consumed (s ++ t) t = s.
Proof.
  unfold consumed. rewrite length_app_string.
  replace (String.length s + String.length t - String.length t)
    with (String.length s) by lia.
  apply substring_app_prefix.
Qed.



Lemma run_cat (r1 r2 : regex) (s : string) (cs : captures) k :
  run (Cat r1 r2) s cs k = run r1 s cs (fun s1 cs1 => run r2 s1 cs1 k).
Proof. reflexivity. Qed.





End RegexFacts.

(* ===================================================================== *)
(** ** DiffView: line numbers                                             *)
(* ===================================================================== *)

Section NumberFacts.
Import Js.

(** Up to 2^53 the counters are exact. *)
Lemma nearestDouble_exact (n : N) :
  (n <= maxExact)%N -> nearestDouble n = Int n.
Proof.
  intros Hn. unfold nearestDouble.
  destruct (N.ltb_spec n maxExact) as [_|Hge]; [reflexivity|].
  assert (n = maxExact) as -> by lia. reflexivity.
Qed.


End NumberFacts.

Section NumberingFacts.
Import Js DiffView.
Variable p : Props.






Lemma parseInt_numeral (a : string) :
  Spec.numeral a -> parseInt a = nearestDouble (digitsValue 0 a).
Proof.
  intros [Hne Hd]. destruct a as [|c a]; [congruence|].
  simpl in Hd. apply andb_prop in Hd as [Hc _].
  unfold parseInt. now rewrite Hc.
Qed.








End NumberingFacts.

(* ===================================================================== *)
(** ** Executions of asynchronous handlers                                *)
(* ===================================================================== *)

Section AsyncFacts.
Import Engine Async.

(** Invariants hold along every execution. *)
Lemma steps_invariant (Inv : Config -> Prop) (c0 : Config) :
  Inv c0 ->
  (forall c c', Inv c -> step c c' -> Inv c') ->
  forall c, steps c0 c -> Inv c.
Proof.
  intros H0 Hstep c Hc. induction Hc; eauto.
Qed.

Lemma issued_app (t1 t2 : list Event) :
  issued (t1 ++ t2) = (issued t1 ++ issued t2)%list.
Proof.
  induction t1 as [|[r|r resp|e] t1 IH]; simpl; auto. now rewrite IH.
Qed.

Lemma effects_app (t1 t2 : list Event) :
  effects (t1 ++ t2) = (effects t1 ++ effects t2)%list.
Proof.
  induction t1 as [|[r|r resp|e] t1 IH]; simpl; auto. now rewrite IH.
Qed.

Lemma In_issued (t : list Event) (r : Request) :
  In r (issued t) <-> In (Issued r) t.
Proof.
  induction t as [|[r'|r' resp|e] t IH]; simpl.
  - tauto.
  - rewrite IH. split; intros [H|H]; auto; left; congruence.
  - rewrite IH. split; [auto | intros [H|H]; [discriminate|auto]].
  - rewrite IH. split; [auto | intros [H|H]; [discriminate|auto]].
Qed.

Lemma In_effects (t : list Event) (e : Effect) :
  In e (effects t) <-> In (Did e) t.
Proof.
  induction t as [|[r'|r' resp|e'] t IH]; simpl.
  - tauto.
  - rewrite IH. split; [auto | intros [H|H]; [discriminate|auto]].
  - rewrite IH. split; [auto | intros [H|H]; [discriminate|auto]].
  - rewrite IH. split; intros [H|H]; auto; left; congruence.
Qed.

Lemma Forall_removeAt {A} (P : A -> Prop) (l : list A) : forall i,
  Forall P l -> Forall P (removeAt i l).
Proof.
  induction l as [|x l IH]; intros [|i] H; simpl; auto;
    inversion H; subst; auto.
Qed.

Lemma Forall_setAt {A} (P : A -> Prop) (y : A) (l : list A) : forall i,
  Forall P l -> P y -> Forall P (setAt i y l).
Proof.
  induction l as [|x l IH]; intros [|i] H Hy; simpl; auto;
    inversion H; subst; auto.
Qed.

Lemma Forall_nth_error {A} (P : A -> Prop) (l : list A) (i : nat) (x : A) :
  Forall P l -> nth_error l i = Some x -> P x.
Proof.
  intros H Hn. rewrite Forall_forall in H. eauto using nth_error_In.
Qed.

(** Nothing can happen once no function is suspended. *)
Lemma idle_stuck (c c' : Config) : pending c = [] -> ~ step c c'.
Proof.
  intros Hp [i j resp H|i H]; unfold deliver, resume in H;
    rewrite Hp in H; destruct i; discriminate.
Qed.

Lemma idle_forever (c c' : Config) : pending c = [] -> steps c c' -> c' = c.
Proof.
  intros Hp Hs. induction Hs as [|c1 c2 _ IH Hstep]; [reflexivity|].
  subst c1. now apply idle_stuck in Hstep.
Qed.

(** *** Safety: every event of every execution is a good one *)

Section Safety.
Variable good : Event -> Prop.
Hypothesis good_settled : forall r resp, good (Settled r resp).

(** An outcome a [Promise.all] over [slots] can have: the members that
    were resolved from the start keep their value. *)
Definition agrees (slots : list Slot) (o : Outcome) : Prop :=
  match o with
  | Fulfilled vs =>
      Forall2 (fun s v => match s with
                          | Have v' => v = v'
                          | Waiting _ => True
                          end) slots vs
  | Rejected _ => True
  end.

Inductive safe : Act -> Prop :=
| safe_Done : safe Done
| safe_Emit e k : good (Did e) -> safe k -> safe (Emit e k)
| safe_Await r k :
    good (Issued r) -> (forall resp, safe (k resp)) -> safe (Await r k)
| safe_AwaitAll srcs k :
    Forall good (issuedBy srcs) ->
    (forall o, agrees (map slotOf srcs) o -> safe (k o)) ->
    safe (AwaitAll srcs k)
| safe_Call child k : safe child -> safe k -> safe (Call child k).

Definition safePending (p : Pending) : Prop :=
  match p with
  | OnOne _ k => forall resp, safe (k resp)
  | OnAll slots k => forall o, agrees slots o -> safe (k o)
  end.

Definition safeConfig (c : Config) : Prop :=
  Forall good (trace c) /\ Forall safePending (pending c).

Lemma start_safe (a : Act) :
  safe a ->
  Forall good (fst (start a)) /\ Forall safePending (snd (start a)).
Proof.
  induction 1 as [|e k He _ [IHt IHp]|r k Hr Hk _|srcs k Hs Hk _
                  |child k _ [IHt1 IHp1] _ [IHt2 IHp2]]; simpl.
  - split; constructor.
  - destruct (start k) as [t ps]. simpl in *. split; auto.
  - split; repeat constructor; auto.
  - split; [exact Hs|]. repeat constructor. exact Hk.
  - destruct (start child) as [t1 p1], (start k) as [t2 p2]. simpl in *.
    split; apply Forall_app; auto.
Qed.

Lemma continue_safe (c : Config) (i : nat) (ev : list Event) (a : Act) :
  safeConfig c -> Forall good ev -> safe a -> safeConfig (continue c i ev a).
Proof.
  intros [Ht Hp] Hev Ha. unfold continue, safeConfig.
  destruct (start_safe a Ha) as [Ht' Hp'].
  destruct (start a) as [t ps]. simpl in *. split.
  - apply Forall_app. split; [exact Ht|].
    apply Forall_app. split; assumption.
  - apply Forall_app. split; [now apply Forall_removeAt | exact Hp'].
Qed.

Lemma agrees_setAt (slots : list Slot) (j : nat) (r : Request)
      (v : Value) (o : Outcome) :
  nth_error slots j = Some (Waiting r) ->
  agrees (setAt j (Have v) slots) o -> agrees slots o.
Proof.
  destruct o as [vs|e]; simpl; [|auto].
  revert j vs. induction slots as [|s slots IH]; intros [|j] vs Hn H;
    simpl in *; try discriminate.
  - inversion Hn; subst. inversion H; subst. constructor; auto.
  - inversion H; subst. constructor; eauto.
Qed.

Lemma values_agrees (slots : list Slot) : forall vs,
  values slots = Some vs -> agrees slots (Fulfilled vs).
Proof.
  induction slots as [|[r|v] slots IH]; intros vs H; simpl in *.
  - inversion H. constructor.
  - discriminate.
  - destruct (values slots) as [vs'|]; [|discriminate].
    inversion H; subst. constructor; auto.
Qed.

Lemma step_safe (c c' : Config) : safeConfig c -> step c c' -> safeConfig c'.
Proof.
  intros Hc [i j resp H|i H].
  - unfold deliver in H.
    destruct (nth_error (pending c) i) as [[r k|slots k]|] eqn:Hi;
      [| |discriminate].
    + inversion H; subst. apply continue_safe; auto.
      apply (Forall_nth_error _ _ _ _ (proj2 Hc) Hi).
    + destruct (nth_error slots j) as [[r|v]|] eqn:Hj; try discriminate.
      pose proof (Forall_nth_error _ _ _ _ (proj2 Hc) Hi) as Hk.
      destruct resp as [v|e]; inversion H; subst.
      * destruct Hc as [Ht Hp]. split; simpl.
        -- apply Forall_app. split; auto.
        -- apply Forall_setAt; auto. simpl. intros o Ho.
           apply Hk. eapply agrees_setAt; eauto.
      * apply continue_safe; auto. apply Hk. exact I.
  - unfold resume in H.
    destruct (nth_error (pending c) i) as [[r k|slots k]|] eqn:Hi;
      try discriminate.
    destruct (values slots) as [vs|] eqn:Hv; [|discriminate].
    inversion H; subst. apply continue_safe; auto.
    apply (Forall_nth_error _ _ _ _ (proj2 Hc) Hi).
    now apply values_agrees.
Qed.

(** Every event of every execution of a safe handler is good. *)
Lemma steps_safe (a : Act) (c : Config) :
  safe a -> steps (launch a) c -> Forall good (trace c).
Proof.
  intros Ha Hs.
  apply (steps_invariant safeConfig (launch a)); auto.
  - unfold launch, safeConfig. destruct (start_safe a Ha) as [Ht Hp].
    destruct (start a) as [t ps]. split; assumption.
  - apply step_safe.
Qed.
End Safety.
End AsyncFacts.

(* ===================================================================== *)
(** ** StageView: the executions of a hunk handler                        *)
(* ===================================================================== *)

Section HunkHandlerFacts.
Import Js Engine Async StageView.

Variable localeCompare : string -> string -> Z.
Variable arraySort :
  (FileStatus -> FileStatus -> option Z) ->
  list FileStatus -> option (list FileStatus).

Let handlerOf := handler localeCompare arraySort.
Let loadStatusOf := loadStatus localeCompare arraySort.

(** The guard of both handlers lets the call through. *)
Definition actionable (st : State) (file header body : string) : Prop :=
  selectedFile st = Some file /\ truthy file = true /\
  truthy header = true /\ truthy body = true.

(** What a handler does once its request has settled. *)
Definition hunkCont (b : Button) (st : State) (file : string)
  : Response -> Act :=
  fun r =>
    match r with
    | Resolve _ =>
        Call (loadStatusOf st) (Call (loadDiff st file (selectedStaged st)) Done)
    | Reject error =>
        Await (errorDialog (failureText b st error)) (fun _ => Done)
    end.

Lemma handler_actionable b st file header body :
  actionable st file header body ->
  handlerOf b st (Some header) (Some body)
  = Await (hunkRequest b st file header body) (hunkCont b st file).
Proof.
  intros (Hf & Hfile & Hh & Hb).
  destruct b; unfold handlerOf, handler, handleStageHunk, handleDiscardHunk;
    rewrite Hf, Hfile, Hh, Hb; reflexivity.
Qed.

(** An empty or missing body stops either handler at its guard. *)
Lemma handler_empty_body b st header body :
  truthyOpt body = false -> handlerOf b st header body = Done.
Proof.
  intros Hb.
  destruct b; unfold handlerOf, handler, handleStageHunk, handleDiscardHunk;
    destruct (selectedFile st) as [f|]; auto;
    destruct header as [h|]; auto;
    destruct body as [l|]; auto; simpl in Hb; rewrite Hb;
    now rewrite !orb_true_r.
Qed.

(** Handlers bodies without any [await]. *)
Inductive sync : Act -> Prop :=
| sync_Done : sync Done
| sync_Emit e k : sync k -> sync (Emit e k).

Definition isDid (ev : Event) : Prop :=
  match ev with Did _ => True | _ => False end.

Lemma sync_start (a : Act) :
  sync a -> snd (start a) = [] /\ Forall isDid (fst (start a)).
Proof.
  induction 1 as [|e k _ [IHp IHt]]; simpl.
  - split; constructor.
  - destruct (start k) as [t ps]. simpl in *. split; auto.
    constructor; simpl; auto.
Qed.

Lemma clearSelection_sync k : sync k -> sync (clearSelection k).
Proof. intros. unfold clearSelection. now repeat constructor. Qed.

Lemma loadStatus_cont_sync st :
  exists k, loadStatusOf st = Await (get_status (repoPath st)) k
            /\ forall resp, sync (k resp).
Proof.
  unfold loadStatusOf, loadStatus. eexists. split; [reflexivity|].
  intros [v|e]; [|repeat constructor].
  destruct (arraySort _ _) as [unstaged|]; [|repeat constructor].
  destruct (arraySort _ _) as [stagedL|]; [|repeat constructor].
  do 2 constructor.
  assert (Hleft : forall k, sync k ->
            sync (if (List.length unstaged =? 0)%nat
                     && (List.length stagedL =? 0)%nat
                  then clearSelection k else k)).
  { intros k Hk. destruct (_ && _); auto using clearSelection_sync. }
  destruct (selectedFile st) as [f|]; [|apply Hleft; constructor].
  destruct (truthy f); [|apply Hleft; constructor].
  constructor.
  destruct (existsb _ _);
    [|apply clearSelection_sync]; apply Hleft; constructor.
Qed.

Lemma loadDiff_cont_sync st file isStaged :
  exists k, loadDiff st file isStaged
            = Await (get_diff (repoPath st) file isStaged) k
            /\ forall resp, sync (k resp).
Proof.
  unfold loadDiff. eexists. split; [reflexivity|].
  intros [v|e]; repeat constructor.
Qed.

Section OneCall.
Variables (b : Button) (st : State) (file header body : string).
Hypothesis Hact : actionable st file header body.

Let req := hunkRequest b st file header body.
Let statusReq := get_status (repoPath st).
Let diffReq := get_diff (repoPath st) file (selectedStaged st).
Let dialog (e : string) := errorDialog (failureText b st e).
Let c0 := launch (handlerOf b st (Some header) (Some body)).

Definition reload (r : Request) : Prop := r = statusReq \/ r = diffReq.

(** Events after a successful action: reloads settle, state is set. *)
Definition aftermath (ev : Event) : Prop :=
  match ev with
  | Issued _ => False
  | Settled r _ => reload r
  | Did _ => True
  end.

(** Events after a failed action: the dialog closes. *)
Definition closing (e : string) (ev : Event) : Prop :=
  match ev with
  | Settled r _ => r = dialog e
  | _ => False
  end.

Definition quiet (p : Pending) : Prop :=
  match p with
  | OnOne r k => reload r /\ forall resp, sync (k resp)
  | OnAll _ _ => False
  end.

Inductive phase : Config -> Prop :=
| phase_waiting :
    phase {| trace := [Issued req];
             pending := [OnOne req (hunkCont b st file)] |}
| phase_failed e rest ps :
    Forall (closing e) rest ->
    ps = [] \/ ps = [OnOne (dialog e) (fun _ => Done)] ->
    phase {| trace := [Issued req; Settled req (Reject e); Issued (dialog e)]
                      ++ rest;
             pending := ps |}
| phase_reloading v rest ps :
    Forall aftermath rest -> Forall quiet ps ->
    phase {| trace := [Issued req; Settled req (Resolve v);
                       Issued statusReq; Issued diffReq] ++ rest;
             pending := ps |}.

Lemma launch_handler :
  c0 = {| trace := [Issued req];
          pending := [OnOne req (hunkCont b st file)] |}.
Proof.
  unfold c0. now rewrite (handler_actionable b st file header body Hact).
Qed.

Lemma phase_step (c c' : Config) : phase c -> step c c' -> phase c'.
Proof.
  intros Hph Hstep. destruct Hph as [|e rest ps Hrest Hps|v rest ps Hrest Hps].
  - destruct Hstep as [i j resp H|i H].
    + destruct i as [|[|i]]; try discriminate.
      unfold deliver in H. simpl in H. inversion H; subst c'; clear H.
      destruct resp as [v|e].
      * destruct (loadStatus_cont_sync st) as (kS & HS & HkS).
        destruct (loadDiff_cont_sync st file (selectedStaged st))
          as (kD & HD & HkD).
        unfold continue, hunkCont. cbn [start]. rewrite HS, HD. cbn.
        apply (phase_reloading v []); [constructor|].
        constructor; [split; [now left | exact HkS]|].
        constructor; [split; [now right | exact HkD]|]. constructor.
      * unfold continue, hunkCont. cbn.
        apply (phase_failed e []); [constructor | now right].
    + destruct i as [|[|i]]; discriminate.
  - destruct Hps as [->| ->].
    + exfalso. eapply idle_stuck; [|exact Hstep]. reflexivity.
    + destruct Hstep as [i j resp H|i H];
        destruct i as [|[|i]]; try discriminate.
      unfold deliver in H. simpl in H. inversion H; subst c'; clear H.
      unfold continue. cbn [start trace pending removeAt app].
      match goal with
      | |- phase {| trace := ?T; pending := _ |} =>
          replace T with
            ([Issued req; Settled req (Reject e); Issued (dialog e)]
             ++ (rest ++ [Settled (dialog e) resp]))%list
            by (simpl; rewrite ?app_nil_r; reflexivity)
      end.
      apply phase_failed; [|now left].
      apply Forall_app. split; [exact Hrest|]. repeat constructor.
  - destruct Hstep as [i j resp H|i H].
    + unfold deliver in H. cbn [pending trace] in H.
      destruct (nth_error ps i) as [[r k|slots k]|] eqn:Hi; try discriminate.
      * pose proof (Forall_nth_error _ _ _ _ Hps Hi) as [Hr Hk].
        inversion H; subst c'; clear H. unfold continue.
        destruct (sync_start _ (Hk resp)) as [Hsp Hst].
        destruct (start (k resp)) as [t ps']. simpl in Hsp, Hst. subst ps'.
        cbn [pending trace]. rewrite app_nil_r.
        match goal with
        | |- phase {| trace := ?T; pending := _ |} =>
            replace T with
              ([Issued req; Settled req (Resolve v); Issued statusReq;
                Issued diffReq] ++ (rest ++ Settled r resp :: t))%list
              by (simpl; rewrite <- ?app_assoc; reflexivity)
        end.
        apply phase_reloading; [|now apply Forall_removeAt].
        apply Forall_app. split; [exact Hrest|].
        constructor; [exact Hr|].
        eapply Forall_impl; [|exact Hst]. now intros [| |].
      * now pose proof (Forall_nth_error _ _ _ _ Hps Hi).
    + unfold resume in H. cbn [pending] in H.
      destruct (nth_error ps i) as [[r k|slots k]|] eqn:Hi; try discriminate.
      now pose proof (Forall_nth_error _ _ _ _ Hps Hi).
Qed.

Lemma phase_reachable (c : Config) : steps c0 c -> phase c.
Proof.
  apply steps_invariant.
  - rewrite launch_handler. constructor.
  - apply phase_step.
Qed.

Lemma req_not_reload : ~ reload req.
Proof.
  unfold reload, req, statusReq, diffReq, hunkRequest, stageRequest.
  destruct b; [destruct (selectedStaged st)|]; intros [H|H]; discriminate.
Qed.

Lemma req_not_dialog e : req <> dialog e.
Proof.
  unfold req, dialog, hunkRequest, stageRequest, errorDialog.
  destruct b; [destruct (selectedStaged st)|]; discriminate.
Qed.

Lemma aftermath_issued rest : Forall aftermath rest -> issued rest = [].
Proof.
  induction 1 as [|[r|r resp|e] rest Hx _ IH]; simpl in *; auto.
  contradiction.
Qed.

Lemma closing_issued e rest :
  Forall (closing e) rest -> issued rest = [] /\ effects rest = [].
Proof.
  induction 1 as [|[r|r resp|ef] rest Hx _ IH]; simpl in *; auto;
    contradiction.
Qed.

(** The engine has rejected the request: one dialog, nothing else. *)
Lemma failed_run (c : Config) (e : string) :
  steps c0 c -> In (Settled req (Reject e)) (trace c) ->
  issued (trace c) = [req; dialog e] /\ effects (trace c) = [].
Proof.
  intros Hs Hin. destruct (phase_reachable c Hs)
    as [|e' rest ps Hrest Hps|v rest ps Hrest Hps]; cbn [trace] in *.
  - destruct Hin as [H|[]]. discriminate.
  - assert (e' = e) as ->.
    { destruct Hin as [H|[H|[H|H]]]; try discriminate.
      - now inversion H.
      - rewrite Forall_forall in Hrest. apply Hrest in H. simpl in H.
        now apply req_not_dialog in H. }
    destruct (closing_issued e rest Hrest) as [Hi He].
    rewrite issued_app, effects_app, Hi, He. split; reflexivity.
  - exfalso. destruct Hin as [H|[H|[H|[H|H]]]]; try discriminate.
    rewrite Forall_forall in Hrest. apply Hrest in H. simpl in H.
    now apply req_not_reload in H.
Qed.

(** The engine has accepted the request: both reloads are requested at
    once, before any other event. *)
Lemma succeeded_run (c : Config) (v : Value) :
  steps c0 c -> In (Settled req (Resolve v)) (trace c) ->
  exists rest,
    trace c = ([Issued req; Settled req (Resolve v);
                Issued statusReq; Issued diffReq] ++ rest)%list
    /\ issued rest = [].
Proof.
  intros Hs Hin. destruct (phase_reachable c Hs)
    as [|e' rest ps Hrest Hps|v' rest ps Hrest Hps]; cbn [trace] in *.
  - destruct Hin as [H|[]]. discriminate.
  - exfalso. destruct Hin as [H|[H|[H|H]]]; try discriminate.
    rewrite Forall_forall in Hrest. apply Hrest in H. simpl in H.
    now apply req_not_dialog in H.
  - assert (v' = v) as ->.
    { destruct Hin as [H|[H|[H|[H|H]]]]; try discriminate.
      - now inversion H.
      - rewrite Forall_forall in Hrest. apply Hrest in H. simpl in H.
        now apply req_not_reload in H. }
    exists rest. split; [reflexivity | now apply aftermath_issued].
Qed.

(** Both outcomes do occur. *)
Lemma may_settle (resp : Response) :
  exists c, step c0 c /\ In (Settled req resp) (trace c).
Proof.
  rewrite launch_handler. eexists. split.
  - apply (step_deliver _ _ 0 0 resp). reflexivity.
  - unfold continue. destruct (start (hunkCont b st file resp)) as [t ps].
    cbn. auto.
Qed.
End OneCall.
End HunkHandlerFacts.

(* ===================================================================== *)
(** ** DiffView: what is rendered and what a click passes on              *)
(* ===================================================================== *)

Section RenderFacts.
Import Js DiffView.

Lemma rows_isHunk (p : Props) (ls : list string) : forall k o n,
  map isHunk (rows p k o n ls) = map isHunkLine ls.
Proof.
  induction ls as [|l ls IH]; intros k o n; simpl; [reflexivity|].
  pose proof (renderLine_rowOf p k o n l) as (_ & Hh & _).
  destruct (renderLine p k o n l) as [r [o' n']]. simpl in *.
  now rewrite Hh, IH.
Qed.

Lemma marker_makes_truthy (p : Props) :
  Exists (fun l => isHunkLine l = true) (lines p) -> truthy (diff p) = true.
Proof.
  unfold lines. destruct (diff p) as [|c d]; [|reflexivity].
  simpl. intros H. inversion H as [? ? Hm|? ? Hm]; subst.
  - discriminate.
  - inversion Hm.
Qed.

Lemma renderDiff_marker (p : Props) (pre : list string) (m : string)
      (post : list string) :
  lines p = (pre ++ m :: post)%list -> Forall plain pre ->
  isHunkLine m = true ->
  renderDiff p = Some (rows p 0 (Int 0) (Int 0) (m :: post)).
Proof.
  intros Hls Hpre Hm. unfold renderDiff.
  rewrite marker_makes_truthy.
  - unfold sliceFrom, startIdx, findHunkFrom. simpl skipn at 1.
    rewrite Hls, (scan_finds pre m post Hpre Hm 0). simpl Nat.add.
    now rewrite skipn_length_app.
  - rewrite Hls. apply Exists_app. right. now constructor.
Qed.
End RenderFacts.

(** A diff with two hunks, as the engine returns it for a modified file. *)
Definition exampleDiff : string :=
  "diff --git a/f.txt b/f.txt
--- a/f.txt
+++ b/f.txt
@@ -1,3 +1,3 @@ intro
 one
-two
+deux
@@ -10,2 +10,3 @@
 ten
+eleven".

Definition exampleProps : DiffView.Props :=
  {| DiffView.diff := exampleDiff;
     DiffView.filename := "f.txt";
     DiffView.onDiscard := true;
     DiffView.onStage := true;
     DiffView.showActions := true;
     DiffView.actionLabel := "Stage" |}.

(** The text the engine returns for a changed binary file: no marker. *)
Definition binaryProps : DiffView.Props :=
  {| DiffView.diff := "Binary files a/logo.png and b/logo.png differ";
     DiffView.filename := "logo.png";
     DiffView.onDiscard := true;
     DiffView.onStage := true;
     DiffView.showActions := true;
     DiffView.actionLabel := "Stage" |}.

(** Worked examples of the primitives and of the renderer. *)
Example split_keeps_last_empty_line :
  Js.split Js.nl "a
" = ["a"; EmptyString].
Proof. reflexivity. Qed.

Example header_without_lengths :
  Regex.search DiffView.hunkRe "@@ -10 +12 @@ tail"
  = Some [(2, "12"); (1, "10")].
Proof. vm_compute. reflexivity. Qed.

Example combined_header_does_not_match :
  Regex.search DiffView.hunkRe "@@@ -1,2 -1,2 +1,3 @@@" = None.
Proof. vm_compute. reflexivity. Qed.

Example example_line_numbers :
  option_map (map (fun r => (DiffView.oldNum r, DiffView.newNum r)))
             (DiffView.renderDiff exampleProps)
  = Some [(EmptyString, EmptyString); ("1", "1"); ("2", EmptyString);
          (EmptyString, "2"); (EmptyString, EmptyString); ("10", "10");
          (EmptyString, "11")].
Proof. vm_compute. reflexivity. Qed.

Example binary_text_is_rendered :
  option_map (map (fun r => (DiffView.isHunk r, DiffView.oldNum r,
                             DiffView.newNum r, DiffView.content r)))
             (DiffView.renderDiff binaryProps)
  = Some [(false, "0", "0", "Binary files a/logo.png and b/logo.png differ")].
Proof. vm_compute. reflexivity. Qed.

(** C2.  When the diff text has a line that begins with the marker, the
    rendering starts exactly at the first such line: the lines before it
    produce no row, the first row is that marker's hunk row, and the rows
    are, one for one, the marker line and the lines after it. *)
Theorem render_starts_at_first_marker (p : DiffView.Props) :
  Exists (fun l => DiffView.isHunkLine l = true) (DiffView.lines p) ->
  exists pre m post rs,
    DiffView.lines p = (pre ++ m :: post)%list /\
    Forall plain pre /\ DiffView.isHunkLine m = true /\
    DiffView.renderDiff p = Some rs /\
    rs = DiffView.rows p 0 (Js.Int 0) (Js.Int 0) (m :: post) /\
    map DiffView.content rs = m :: map (fun l => Js.orElse l " ") post /\
    map DiffView.isHunk rs = true :: map DiffView.isHunkLine post.
Proof.
  intros Hex.
  destruct (startIdx_first _ Hex) as (pre & m & post & Hls & _ & Hm & Hpre).
  exists pre, m, post, (DiffView.rows p 0 (Js.Int 0) (Js.Int 0) (m :: post)).
  repeat split; auto.
  - now apply renderDiff_marker with (pre := pre).
  - rewrite rows_content. simpl. f_equal.
    apply orElse_truthy. now apply hunk_line_truthy.
  - rewrite rows_isHunk. simpl. now rewrite Hm.
Qed.

Lemma render_starts_at_first_marker_witness :
  exists pre m post rs,
    DiffView.lines exampleProps = (pre ++ m :: post)%list /\
    Forall plain pre /\ DiffView.isHunkLine m = true /\
    DiffView.renderDiff exampleProps = Some rs /\
    rs = DiffView.rows exampleProps 0 (Js.Int 0) (Js.Int 0) (m :: post) /\
    map DiffView.content rs = m :: map (fun l => Js.orElse l " ") post /\
    map DiffView.isHunk rs = true :: map DiffView.isHunkLine post.
Proof.
  apply (render_starts_at_first_marker exampleProps).
  vm_compute. do 3 apply Exists_cons_tl. apply Exists_cons_hd. reflexivity.
Defined.

(** The claim of C8 as it is written: a text without a marker line gives
    no output. *)
Definition markerless_gives_no_output (p : DiffView.Props) : Prop :=
  Forall plain (DiffView.lines p) ->
  DiffView.renderDiff p = None \/ DiffView.renderDiff p = Some [].

(** C8, counterexample.  The text of a binary change has no marker line,
    yet it is rendered: one row, numbered 0 and 0. *)
Lemma markerless_output_counterexample :
  ~ markerless_gives_no_output binaryProps.
Proof.
  unfold markerless_gives_no_output. intros H.
  destruct H as [H|H].
  - repeat constructor.
  - vm_compute in H. discriminate.
  - vm_compute in H. discriminate.
Qed.

(** C8, amended.  A text without a marker line never yields a hunk row, so
    no hunk action can be started from it; the empty text gives no output,
    and any other text is rendered whole, one plain row per line from its
    first line on.  The renderer is a total function: it cannot fail. *)
Theorem markerless_diff_has_no_hunks (p : DiffView.Props) :
  Forall plain (DiffView.lines p) ->
  (DiffView.diff p = EmptyString -> DiffView.renderDiff p = None) /\
  (DiffView.diff p <> EmptyString ->
     DiffView.renderDiff p
     = Some (DiffView.rows p 0 (Js.Int 0) (Js.Int 0) (DiffView.lines p))) /\
  (forall rs, DiffView.renderDiff p = Some rs ->
     List.length rs = List.length (DiffView.lines p) /\
     Forall (fun r => DiffView.isHunk r = false /\
                      DiffView.discardBtn r = false /\
                      DiffView.stageBtn r = false) rs).
Proof.
  intros Hplain.
  assert (Hrender : Js.truthy (DiffView.diff p) = true ->
            DiffView.renderDiff p
            = Some (DiffView.rows p 0 (Js.Int 0) (Js.Int 0) (DiffView.lines p))).
  { intros Ht. unfold DiffView.renderDiff. rewrite Ht.
    now rewrite (startIdx_plain _ Hplain). }
  split; [|split].
  - intros He. unfold DiffView.renderDiff. now rewrite He.
  - intros Hne. apply Hrender.
    destruct (DiffView.diff p) eqn:Hd; [congruence | reflexivity].
  - intros rs Hrs.
    destruct (Js.truthy (DiffView.diff p)) eqn:Ht.
    + rewrite (Hrender eq_refl) in Hrs. inversion Hrs; subst.
      split; [apply rows_length | now apply rows_plain].
    + unfold DiffView.renderDiff in Hrs. rewrite Ht in Hrs. discriminate.
Qed.

Lemma markerless_diff_has_no_hunks_witness :
  (DiffView.diff binaryProps = EmptyString -> DiffView.renderDiff binaryProps = None) /\
  (DiffView.diff binaryProps <> EmptyString ->
     DiffView.renderDiff binaryProps
     = Some (DiffView.rows binaryProps 0 (Js.Int 0) (Js.Int 0)
               (DiffView.lines binaryProps))) /\
  (forall rs, DiffView.renderDiff binaryProps = Some rs ->
     List.length rs = List.length (DiffView.lines binaryProps) /\
     Forall (fun r => DiffView.isHunk r = false /\
                      DiffView.discardBtn r = false /\
                      DiffView.stageBtn r = false) rs).
Proof.
  apply (markerless_diff_has_no_hunks binaryProps).
  repeat constructor.
Defined.

(* ===================================================================== *)
(** ** StageView: the requests a hunk handler can make                    *)
(* ===================================================================== *)

(** The three commands that apply a patch. *)
Definition patchRequest (r : Engine.Request) : Prop :=
  match r with
  | Engine.stage_hunk _ _ _ _ _ => True
  | Engine.unstage_hunk _ _ _ _ _ => True
  | Engine.discard_hunk _ _ _ _ _ => True
  | _ => False
  end.

(** The user is told about a failure: an error dialog or a console error. *)
Definition report (ev : Async.Event) : Prop :=
  match ev with
  | Async.Issued (Engine.dialog_message _ _ _) => True
  | Async.Did (Engine.consoleError _ _) => True
  | _ => False
  end.

Section PatchRequests.
Import Js Engine Async StageView.

Variable localeCompare : string -> string -> Z.
Variable arraySort :
  (FileStatus -> FileStatus -> option Z) ->
  list FileStatus -> option (list FileStatus).
Variables (b : Button) (st : State) (file header body : string).
Hypothesis Hfile : selectedFile st = Some file.

Let req := hunkRequest b st file header body.

(** The only patch request is [req]. *)
Definition onlyReq (ev : Event) : Prop :=
  match ev with
  | Issued r => patchRequest r -> r = req
  | _ => True
  end.

Lemma sync_onlyReq (a : Act) : sync a -> safe onlyReq a.
Proof. induction 1; constructor; simpl; auto. Qed.

Lemma handler_safe :
  safe onlyReq (handler localeCompare arraySort b st (Some header) (Some body)).
Proof.
  destruct (truthy file && truthy header && truthy body) eqn:Hg.
  - apply andb_prop in Hg as [Hg Hb]. apply andb_prop in Hg as [Hf Hh].
    rewrite (handler_actionable localeCompare arraySort b st file header body)
      by (repeat split; assumption).
    constructor; [simpl; auto|].
    intros [v|e]; simpl.
    + destruct (loadStatus_cont_sync localeCompare arraySort st)
        as (kS & -> & HkS).
      destruct (loadDiff_cont_sync st file (selectedStaged st))
        as (kD & -> & HkD).
      repeat constructor; simpl; try contradiction;
        intros; now apply sync_onlyReq.
    + repeat constructor. simpl. contradiction.
  - replace (handler localeCompare arraySort b st (Some header) (Some body))
      with Done; [constructor|].
    destruct b; unfold handler, handleStageHunk, handleDiscardHunk;
      rewrite Hfile;
      destruct (truthy file), (truthy header), (truthy body);
      try discriminate; reflexivity.
Qed.

Lemma handler_requests (c : Config) (r : Request) :
  steps (launch (handler localeCompare arraySort b st (Some header) (Some body))) c ->
  In r (issued (trace c)) -> patchRequest r -> r = req.
Proof.
  intros Hs Hin Hp.
  pose proof (steps_safe onlyReq (fun _ _ => I) _ c handler_safe Hs) as Hall.
  rewrite Forall_forall in Hall. apply In_issued in Hin.
  exact (Hall _ Hin Hp).
Qed.
End PatchRequests.

(** A state of [StageView] with [f.txt] selected among the unstaged files
    and its diff loaded, and a host whose sort keeps the order. *)
Definition exampleState : StageView.State :=
  {| StageView.repoPath := "/repo";
     StageView.selectedFile := Some "f.txt";
     StageView.selectedStaged := false;
     StageView.diff := exampleDiff |}.

Definition keepOrder
  (cmp : Engine.FileStatus -> Engine.FileStatus -> option Z)
  (l : list Engine.FileStatus) : option (list Engine.FileStatus) := Some l.

Definition byteCompare (a b : string) : Z :=
  match String.compare a b with Lt => (-1)%Z | Eq => 0%Z | Gt => 1%Z end.

(** C1.  For every marker line [m], at index [j] of the diff text: the row
    rendered for it is a hunk row showing [m]; its stage and discard
    handlers pass on exactly [m] as header and, as body, the lines strictly
    after [j] up to the next marker line or the end of the text, joined
    with newlines.  In [StageView], when that body is not empty, the click
    on the stage button sends at once [unstage_hunk] (staged changes
    shown) or [stage_hunk] (unstaged changes shown), and the click on the
    discard button of the unstaged view sends [discard_hunk], each for the
    repository, the file shown, the diff shown, the header [m] and that
    body; and no other patch request is ever sent in the executions that
    follow.  With an empty body nothing is sent. *)
Theorem hunk_action_passes_marker_and_body
        (p : DiffView.Props) (j : nat) (m : string) :
  nth_error (DiffView.lines p) j = Some m ->
  DiffView.isHunkLine m = true ->
  let idx := j - DiffView.startIdx (DiffView.lines p) in
  let body := Js.join Js.NL (Spec.hunkBody (DiffView.lines p) j) in
  (exists rs row,
      DiffView.renderDiff p = Some rs /\ nth_error rs idx = Some row /\
      DiffView.isHunk row = true /\ DiffView.content row = m) /\
  DiffView.handleStageHunk p idx
  = (if DiffView.onStage p then Some (Some m, body) else None) /\
  DiffView.handleDiscardHunk p idx
  = (if DiffView.onDiscard p then Some (Some m, body) else None) /\
  forall localeCompare arraySort st,
    StageView.diffView st = Some p ->
    let stage :=
      if StageView.selectedStaged st then
        Engine.unstage_hunk (StageView.repoPath st) (DiffView.filename p)
                            (DiffView.diff p) m body
      else
        Engine.stage_hunk (StageView.repoPath st) (DiffView.filename p)
                          (DiffView.diff p) m body in
    let discard :=
      Engine.discard_hunk (StageView.repoPath st) (DiffView.filename p)
                          (DiffView.diff p) m body in
    let sent b :=
      Async.trace
        (Async.launch (StageView.click localeCompare arraySort st b idx)) in
    (Js.truthy body = true ->
     sent StageView.StageButton = [Async.Issued stage] /\
     sent StageView.DiscardButton
     = (if StageView.selectedStaged st then [] else [Async.Issued discard])) /\
    (Js.truthy body = false ->
     sent StageView.StageButton = [] /\ sent StageView.DiscardButton = []) /\
    forall b c r,
      Async.steps
        (Async.launch (StageView.click localeCompare arraySort st b idx)) c ->
      In r (Async.issued (Async.trace c)) -> patchRequest r ->
      Js.truthy body = true /\
      r = match b with
          | StageView.StageButton => stage
          | StageView.DiscardButton => discard
          end.
Proof.
  intros Hj Hm idx body.
  pose proof (startIdx_le _ _ _ Hj Hm) as Hle.
  assert (Hidx : DiffView.startIdx (DiffView.lines p) + idx = j)
    by (unfold idx; lia).
  assert (Hargs : DiffView.hunkArgs (DiffView.lines p)
                    (DiffView.startIdx (DiffView.lines p)) idx
                  = (Some m, body)).
  { pose proof (hunkArgs_spec (DiffView.lines p)
                  (DiffView.startIdx (DiffView.lines p)) idx m) as H.
    rewrite Hidx in H. exact (H Hj). }
  assert (Hex : Exists (fun l => DiffView.isHunkLine l = true) (DiffView.lines p)).
  { apply Exists_exists. exists m. split; [eapply nth_error_In; eauto | auto]. }
  assert (Hrow : exists rs row,
             DiffView.renderDiff p = Some rs /\ nth_error rs idx = Some row /\
             rowOf p idx m row).
  { unfold DiffView.renderDiff. rewrite (marker_makes_truthy p Hex).
    destruct (rows_nth p (Js.sliceFrom (DiffView.startIdx (DiffView.lines p))
                                        (DiffView.lines p))
                0 (Js.Int 0) (Js.Int 0) idx m) as (row & Hr & Hrow).
    { unfold Js.sliceFrom. now rewrite nth_error_skipn, Hidx. }
    eauto. }
  destruct Hrow as (rs & row & Hrs & Hnth & _ & Hh & Hc & Hd & Hs).
  clearbody idx body.
  split; [|split; [|split]].
  - exists rs, row. repeat split; auto; try congruence.
    rewrite Hc. apply orElse_truthy. now apply hunk_line_truthy.
  - unfold DiffView.handleStageHunk. now rewrite Hargs.
  - unfold DiffView.handleDiscardHunk. now rewrite Hargs.
  - intros localeCompare arraySort st Hview stage discard sent.
    assert (Hsel : exists file,
               StageView.selectedFile st = Some file /\ Js.truthy file = true /\
               DiffView.filename p = file /\ DiffView.diff p = StageView.diff st /\
               DiffView.onStage p = true /\ DiffView.showActions p = true /\
               DiffView.onDiscard p = negb (StageView.selectedStaged st)).
    { unfold StageView.diffView in Hview.
      destruct (StageView.selectedFile st) as [file|]; [|discriminate].
      destruct (Js.truthy file) eqn:Hfile; [|discriminate].
      exists file. inversion Hview as [Hp]. simpl. auto 10. }
    destruct Hsel as (file & Hfile & Htf & Hname & Hdiff & HonS & Hshow & HonD).
    assert (Hclick : forall b,
              StageView.click localeCompare arraySort st b idx
              = (if match b with
                    | StageView.StageButton => true
                    | StageView.DiscardButton => negb (StageView.selectedStaged st)
                    end
                 then StageView.handler localeCompare arraySort b st
                        (Some m) (Some body)
                 else Async.Done)).
    { intros b. unfold StageView.click. rewrite Hview, Hrs, Hnth.
      destruct b; unfold StageView.hasButton.
      - rewrite Hs, Hm, Hshow, HonS. simpl.
        unfold DiffView.handleStageHunk. now rewrite HonS, Hargs.
      - rewrite Hd, Hm, Hshow, HonD. simpl.
        destruct (StageView.selectedStaged st); simpl; [reflexivity|].
        unfold DiffView.handleDiscardHunk. now rewrite HonD, Hargs. }
    assert (Hreq : forall b,
              StageView.hunkRequest b st file m body
              = match b with
                | StageView.StageButton => stage
                | StageView.DiscardButton => discard
                end).
    { intros [|]; unfold stage, discard, StageView.hunkRequest,
        StageView.stageRequest; rewrite Hname, Hdiff; reflexivity. }
    assert (Hsent : forall b,
              Js.truthy body = true ->
              Async.trace
                (Async.launch
                   (StageView.handler localeCompare arraySort b st
                      (Some m) (Some body)))
              = [Async.Issued (StageView.hunkRequest b st file m body)]).
    { intros b Hb.
      rewrite (handler_actionable localeCompare arraySort b st file m body);
        [reflexivity|].
      repeat split; auto. now apply hunk_line_truthy. }
    assert (Hnone : forall b,
              Js.truthy body = false ->
              StageView.handler localeCompare arraySort b st (Some m) (Some body)
              = Async.Done).
    { intros b Hb. now apply handler_empty_body. }
    split; [|split].
    + intros Hb. unfold sent. rewrite !Hclick. split.
      * now rewrite (Hsent StageView.StageButton Hb),
          (Hreq StageView.StageButton).
      * pose proof (Hsent StageView.DiscardButton Hb) as Hd'.
        rewrite (Hreq StageView.DiscardButton) in Hd'.
        destruct (StageView.selectedStaged st); [reflexivity|].
        cbn [negb]. exact Hd'.
    + intros Hb. unfold sent. rewrite !Hclick, !Hnone by exact Hb.
      split; [reflexivity|]. now destruct (negb (StageView.selectedStaged st)).
    + intros b c r Hsteps Hin Hpatch.
      rewrite Hclick in Hsteps.
      destruct (match b with
                | StageView.StageButton => true
                | StageView.DiscardButton => negb (StageView.selectedStaged st)
                end).
      * destruct (Js.truthy body) eqn:Hb.
        -- split; [reflexivity|]. rewrite <- Hreq.
           eapply handler_requests; eauto.
        -- rewrite (Hnone b eq_refl) in Hsteps.
           apply idle_forever in Hsteps; [|reflexivity]. subst c. destruct Hin.
      * apply idle_forever in Hsteps; [|reflexivity]. subst c. destruct Hin.
Qed.

Lemma hunk_action_passes_marker_and_body_witness :
  DiffView.handleDiscardHunk exampleProps 4
  = Some (Some "@@ -10,2 +10,3 @@", " ten
+eleven")
  /\ Async.trace
       (Async.launch
          (StageView.click byteCompare keepOrder exampleState
             StageView.StageButton 0))
     = [Async.Issued
          (Engine.stage_hunk "/repo" "f.txt" exampleDiff
             "@@ -1,3 +1,3 @@ intro" " one
-two
+deux")].
Proof.
  pose proof (hunk_action_passes_marker_and_body
                exampleProps 7 "@@ -10,2 +10,3 @@" eq_refl eq_refl) as H7.
  pose proof (hunk_action_passes_marker_and_body
                exampleProps 3 "@@ -1,3 +1,3 @@ intro" eq_refl eq_refl) as H3.
  split.
  - exact (proj1 (proj2 (proj2 H7))).
  - destruct H3 as (_ & _ & _ & H3).
    destruct (H3 byteCompare keepOrder exampleState eq_refl) as (Hsent & _).
    exact (proj1 (Hsent eq_refl)).
Defined.



(** Beyond 2^53 the counters are no longer exact: the start field
    9007199254740993 is read as 9007199254740992, and the counter stays
    there. *)
Definition hugeProps : DiffView.Props :=
  {| DiffView.diff := "@@ -9007199254740993,2 +1,2 @@
 one
 two";
     DiffView.filename := "f.txt";
     DiffView.onDiscard := true;
     DiffView.onStage := true;
     DiffView.showActions := true;
     DiffView.actionLabel := "Stage" |}.

Example counters_are_doubles :
  option_map (map (fun r => (DiffView.oldNum r, DiffView.newNum r)))
             (DiffView.renderDiff hugeProps)
  = Some [(EmptyString, EmptyString);
          ("9007199254740992", "1");
          ("9007199254740992", "2")].
Proof. vm_compute. reflexivity. Qed.

(** The claim of C3 as it is written: a hunk action with an empty body
    ends up reporting a failure. *)
Definition empty_body_is_reported
           (localeCompare : string -> string -> Z)
           (arraySort : (Engine.FileStatus -> Engine.FileStatus -> option Z) ->
                        list Engine.FileStatus -> option (list Engine.FileStatus))
           (b : StageView.Button) (st : StageView.State) (header : string)
  : Prop :=
  exists c,
    Async.steps
      (Async.launch
         (StageView.handler localeCompare arraySort b st
            (Some header) (Some EmptyString))) c
    /\ Exists report (Async.trace c).

(** C3, counterexample.  The stage handler called with a hunk header and
    the empty body reports nothing: its execution has no event at all. *)
Lemma empty_body_counterexample :
  ~ empty_body_is_reported byteCompare keepOrder StageView.StageButton
      exampleState "@@ -1,3 +1,3 @@ intro".
Proof.
  intros (c & Hsteps & Hrep).
  apply idle_forever in Hsteps; [|reflexivity]. subst c.
  inversion Hrep.
Qed.

(** C3, amended.  A stage, unstage or discard handler called with an empty
    or missing hunk body returns at its guard: in every execution nothing
    is requested from the engine, so no patch is applied, and nothing is
    reported either. *)
Theorem empty_body_is_dropped_silently
        (localeCompare : string -> string -> Z)
        (arraySort : (Engine.FileStatus -> Engine.FileStatus -> option Z) ->
                     list Engine.FileStatus -> option (list Engine.FileStatus))
        (b : StageView.Button) (st : StageView.State)
        (header body : option string) (c : Async.Config) :
  Js.truthyOpt body = false ->
  Async.steps
    (Async.launch (StageView.handler localeCompare arraySort b st header body)) c ->
  Async.trace c = [] /\ Async.pending c = [].
Proof.
  intros Hb Hsteps.
  rewrite (handler_empty_body localeCompare arraySort b st header body Hb)
    in Hsteps.
  apply idle_forever in Hsteps; [|reflexivity]. now subst c.
Qed.

Lemma empty_body_is_dropped_silently_witness :
  Async.trace
    (Async.launch
       (StageView.handler byteCompare keepOrder StageView.DiscardButton
          exampleState (Some "@@ -1,3 +1,3 @@ intro") (Some EmptyString))) = []
  /\ Async.pending
       (Async.launch
          (StageView.handler byteCompare keepOrder StageView.DiscardButton
             exampleState (Some "@@ -1,3 +1,3 @@ intro") (Some EmptyString))) = [].
Proof.
  apply (empty_body_is_dropped_silently byteCompare keepOrder
           StageView.DiscardButton exampleState
           (Some "@@ -1,3 +1,3 @@ intro") (Some EmptyString)).
  - reflexivity.
  - apply Async.steps_refl.
Defined.

(** C4.  When the engine rejects the request of a stage, unstage or discard
    handler with an error, then in every execution the requests made are
    exactly two: the patch request, once, and one error dialog whose text
    carries the error; no state is touched.  Such executions exist. *)
Theorem rejected_hunk_action_is_reported_once
        (localeCompare : string -> string -> Z)
        (arraySort : (Engine.FileStatus -> Engine.FileStatus -> option Z) ->
                     list Engine.FileStatus -> option (list Engine.FileStatus))
        (b : StageView.Button) (st : StageView.State)
        (file header body error : string) :
  actionable st file header body ->
  let req := StageView.hunkRequest b st file header body in
  let c0 := Async.launch
              (StageView.handler localeCompare arraySort b st
                 (Some header) (Some body)) in
  (exists c, Async.step c0 c /\
             In (Async.Settled req (Engine.Reject error)) (Async.trace c)) /\
  forall c,
    Async.steps c0 c ->
    In (Async.Settled req (Engine.Reject error)) (Async.trace c) ->
    Async.issued (Async.trace c)
    = [req; StageView.errorDialog (StageView.failureText b st error)]
    /\ Async.effects (Async.trace c) = [].
Proof.
  intros Hact req c0. split.
  - apply may_settle. exact Hact.
  - intros c Hsteps Hin.
    exact (failed_run localeCompare arraySort b st file header body Hact
             c error Hsteps Hin).
Qed.

(** C5.  When the engine accepts the request of a stage, unstage or discard
    handler, then in every execution the two events right after the
    acceptance are the request for the file status and the request for the
    diff of the selected file (in its staged or unstaged view); no state
    update, hence no rendering, comes between, and no further request
    follows.  Such executions exist. *)
Theorem accepted_hunk_action_reloads_status_and_diff
        (localeCompare : string -> string -> Z)
        (arraySort : (Engine.FileStatus -> Engine.FileStatus -> option Z) ->
                     list Engine.FileStatus -> option (list Engine.FileStatus))
        (b : StageView.Button) (st : StageView.State)
        (file header body : string) (v : Engine.Value) :
  actionable st file header body ->
  let req := StageView.hunkRequest b st file header body in
  let c0 := Async.launch
              (StageView.handler localeCompare arraySort b st
                 (Some header) (Some body)) in
  (exists c, Async.step c0 c /\
             In (Async.Settled req (Engine.Resolve v)) (Async.trace c)) /\
  forall c,
    Async.steps c0 c ->
    In (Async.Settled req (Engine.Resolve v)) (Async.trace c) ->
    exists rest,
      Async.trace c
      = ([Async.Issued req;
          Async.Settled req (Engine.Resolve v);
          Async.Issued (Engine.get_status (StageView.repoPath st));
          Async.Issued (Engine.get_diff (StageView.repoPath st) file
                          (StageView.selectedStaged st))] ++ rest)%list
      /\ Async.issued rest = [].
Proof.
  intros Hact req c0. split.
  - apply may_settle. exact Hact.
  - intros c Hsteps Hin.
    exact (succeeded_run localeCompare arraySort b st file header body Hact
             c v Hsteps Hin).
Qed.

Lemma rejected_hunk_action_is_reported_once_witness :
  exists c,
    Async.step
      (Async.launch
         (StageView.handler byteCompare keepOrder StageView.StageButton
            exampleState (Some "@@ -10,2 +10,3 @@") (Some " ten
+eleven"))) c
    /\ Async.issued (Async.trace c)
       = [Engine.stage_hunk "/repo" "f.txt" exampleDiff "@@ -10,2 +10,3 @@" " ten
+eleven";
          Engine.dialog_message "Failed to stage hunk: patch does not apply"
            "Error" "error"].
Proof.
  destruct (rejected_hunk_action_is_reported_once byteCompare keepOrder
              StageView.StageButton exampleState "f.txt" "@@ -10,2 +10,3 @@"
              " ten
+eleven" "patch does not apply")
    as [(c & Hstep & Hin) Hall].
  - repeat split; reflexivity.
  - exists c. split; [exact Hstep|].
    apply Hall; [|exact Hin].
    eapply Async.steps_step; [apply Async.steps_refl | exact Hstep].
Defined.

Lemma accepted_hunk_action_reloads_status_and_diff_witness :
  exists c rest,
    Async.step
      (Async.launch
         (StageView.handler byteCompare keepOrder StageView.DiscardButton
            exampleState (Some "@@ -10,2 +10,3 @@") (Some " ten
+eleven"))) c
    /\ Async.trace c
       = ([Async.Issued (Engine.discard_hunk "/repo" "f.txt" exampleDiff
                           "@@ -10,2 +10,3 @@" " ten
+eleven");
           Async.Settled (Engine.discard_hunk "/repo" "f.txt" exampleDiff
                            "@@ -10,2 +10,3 @@" " ten
+eleven") (Engine.Resolve Engine.VUndefined);
           Async.Issued (Engine.get_status "/repo");
           Async.Issued (Engine.get_diff "/repo" "f.txt" false)] ++ rest)%list.
Proof.
  destruct (accepted_hunk_action_reloads_status_and_diff byteCompare keepOrder
              StageView.DiscardButton exampleState "f.txt" "@@ -10,2 +10,3 @@"
              " ten
+eleven" Engine.VUndefined)
    as [(c & Hstep & Hin) Hall].
  - repeat split; reflexivity.
  - destruct (Hall c) as (rest & Htrace & _); [|exact Hin|].
    + eapply Async.steps_step; [apply Async.steps_refl | exact Hstep].
    + exists c, rest. split; [exact Hstep | exact Htrace].
Defined.

(* ===================================================================== *)
(** ** CommitHistory: the commit-list requests and the hue                *)
(* ===================================================================== *)

Section HistoryFacts.
Import Js Engine Async CommitHistory.
Variable p : Props.

(** The three filter configurations of a [get_commits] request. *)
Definition filterOf (localOnly : bool) (branchName : option string) : Prop :=
  (localOnly = false /\ branchName = None) \/
  (localOnly = true /\ branchName = None) \/
  (localOnly = false /\
   exists name, branchName = Some name /\ currentBranch p = Some name /\
                truthy name = true).

Definition historyGood (ev : Event) : Prop :=
  match ev with
  | Issued (get_commits path limit localOnly branchName) =>
      path = repoPath p /\ limit = 10000%N /\ filterOf localOnly branchName
  | Did (setCommits _ _ Current) =>
      truthyOpt (currentBranch p) = false -> Current = []
  | _ => True
  end.

Ltac tail_safe :=
  solve [repeat (constructor; simpl; auto)].

Lemma loadAllCommits_safe : safe historyGood (loadAllCommits p).
Proof.
  unfold loadAllCommits. constructor; [exact I|].
  constructor.
  - unfold allRequest, localRequest, currentSource, filterOf. simpl.
    apply Forall_cons.
    { split; [reflexivity|]. split; [reflexivity|]. left. now split. }
    apply Forall_cons.
    { split; [reflexivity|]. split; [reflexivity|]. right. left. now split. }
    destruct (currentBranch p) as [name|] eqn:Hb; simpl; [|constructor].
    destruct (truthy name) eqn:Ht; simpl; [|constructor].
    apply Forall_cons; [|constructor].
    split; [reflexivity|]. split; [reflexivity|].
    right. right. split; [reflexivity|]. exists name. auto.
  - intros [vs|e] Hagree; [|tail_safe].
    destruct vs as [|allV [|localV [|currentV [|extra vs]]]]; try tail_safe.
    constructor.
    + simpl. intros Hno. simpl in Hagree.
      inversion Hagree as [|? ? ? ? _ H1]; subst.
      inversion H1 as [|? ? ? ? _ H2]; subst.
      inversion H2 as [|? ? ? ? H3 _]; subst.
      unfold currentSource in H3. rewrite Hno in H3. simpl in H3.
      now subst currentV.
    + destruct (asCommits allV) as [|first others]; [tail_safe|].
      destruct (currentBranch p) as [branch|]; [|tail_safe].
      destruct (truthy branch); [|tail_safe].
      constructor; [exact I|].
      intros [v|e]; [|unfold select; tail_safe].
      unfold select. tail_safe.
Qed.

Lemma launch_loadAllCommits :
  issued (trace (launch (loadAllCommits p)))
  = (allRequest p :: localRequest p ::
     (if truthyOpt (currentBranch p)
      then [get_commits (repoPath p) 10000 false (currentBranch p)]
      else []))%list.
Proof.
  unfold launch, loadAllCommits, currentSource. simpl.
  destruct (truthyOpt (currentBranch p)); reflexivity.
Qed.

(** Without a current branch and with both lists delivered, the third
    list is stored as the empty one. *)
Lemma no_branch_run (allL localL : list GitCommit) :
  truthyOpt (currentBranch p) = false ->
  exists c, steps (launch (loadAllCommits p)) c
            /\ In (setCommits allL localL []) (effects (trace c)).
Proof.
  intros Hno. eexists. split.
  - eapply steps_step; [eapply steps_step; [eapply steps_step;
      [apply steps_refl|]|]|].
    + apply (step_deliver _ _ 0 0 (Resolve (VCommits allL))).
      unfold launch, loadAllCommits, currentSource. rewrite Hno. reflexivity.
    + apply (step_deliver _ _ 0 1 (Resolve (VCommits localL))). reflexivity.
    + apply (step_resume _ _ 0). reflexivity.
  - unfold continue. cbn [values setAt slotOf map asCommits trace].
    match goal with
    | |- context [start ?a] => destruct (start a) as [t ps] eqn:Hstart
    end.
    cbn [trace]. rewrite !effects_app.
    apply in_or_app. right. apply in_or_app. right.
    cbn [start] in Hstart.
    match type of Hstart with
    | (let '(_, _) := start ?k in _) = _ => destruct (start k)
    end.
    inversion Hstart; subst. simpl. now left.
Qed.

Lemma doubleOfZ_exact (z : Z) :
  (0 <= z <= Z.of_N maxExact)%Z -> doubleOfZ z = Some z.
Proof.
  intros Hz. unfold doubleOfZ. rewrite nearestDouble_exact by lia.
  f_equal. rewrite N2Z.inj_abs_N. lia.
Qed.

(** Within the exact range the hue is 60 times the index modulo 6. *)
Lemma hue_exact (line : GraphLine) :
  (0 <= color line)%Z -> (color line * 60 <= Z.of_N maxExact)%Z ->
  hue line = Some (60 * (color line mod 6))%Z.
Proof.
  intros Hc Hp. unfold hue.
  rewrite (doubleOfZ_exact (color line)) by lia.
  rewrite (doubleOfZ_exact (color line * 60)) by lia.
  f_equal. rewrite Z.rem_mod_nonneg by lia.
  change 360%Z with (6 * 60)%Z. rewrite Z.mul_mod_distr_r by lia. lia.
Qed.

(** The stroke of each of the six hues. *)
Definition strokeOf (residue : Z) : string :=
  "hsl(" ++ decimal (Z.to_N (60 * residue)) ++ ", 70%, 60%)".

Lemma stroke_exact (line : GraphLine) :
  (0 <= color line)%Z -> (color line * 60 <= Z.of_N maxExact)%Z ->
  stroke line = strokeOf (color line mod 6).
Proof.
  intros Hc Hp. unfold stroke, strokeOf. rewrite (hue_exact line Hc Hp).
  pose proof (Z.mod_pos_bound (color line) 6 ltac:(lia)) as Hb.
  assert (Hcases : (color line mod 6 = 0 \/ color line mod 6 = 1 \/
                    color line mod 6 = 2 \/ color line mod 6 = 3 \/
                    color line mod 6 = 4 \/ color line mod 6 = 5)%Z) by lia.
  destruct Hcases as [->|[->|[->|[->|[->| ->]]]]]; reflexivity.
Qed.

Lemma strokeOf_inj (r1 r2 : Z) :
  (0 <= r1 < 6)%Z -> (0 <= r2 < 6)%Z -> strokeOf r1 = strokeOf r2 -> r1 = r2.
Proof.
  intros H1 H2 H.
  assert (C1 : (r1 = 0 \/ r1 = 1 \/ r1 = 2 \/ r1 = 3 \/ r1 = 4 \/ r1 = 5)%Z)
    by lia.
  assert (C2 : (r2 = 0 \/ r2 = 1 \/ r2 = 2 \/ r2 = 3 \/ r2 = 4 \/ r2 = 5)%Z)
    by lia.
  destruct C1 as [->|[->|[->|[->|[->| ->]]]]];
    destruct C2 as [->|[->|[->|[->|[->| ->]]]]];
    try reflexivity; vm_compute in H; discriminate.
Qed.
End HistoryFacts.

Definition exampleHistory : CommitHistory.Props :=
  {| CommitHistory.repoPath := "/repo";
     CommitHistory.currentBranch := Some "main" |}.

Definition detachedHistory : CommitHistory.Props :=
  {| CommitHistory.repoPath := "/repo";
     CommitHistory.currentBranch := None |}.

(** C6.  [loadAllCommits] requests at once the all-branches list, the
    local-only list and, when a current branch exists, the list of that
    branch.  In every execution each [get_commits] request has limit 10000
    and exactly one of the three filter configurations, the single-branch
    one naming the current branch.  Without a current branch no
    single-branch request is made and the list stored for it is empty. *)
Theorem commit_requests_use_three_filters (p : CommitHistory.Props) :
  Async.issued (Async.trace (Async.launch (CommitHistory.loadAllCommits p)))
  = (Engine.get_commits (CommitHistory.repoPath p) 10000 false None
     :: Engine.get_commits (CommitHistory.repoPath p) 10000 true None
     :: (if Js.truthyOpt (CommitHistory.currentBranch p)
         then [Engine.get_commits (CommitHistory.repoPath p) 10000 false
                 (CommitHistory.currentBranch p)]
         else []))%list /\
  (forall c,
      Async.steps (Async.launch (CommitHistory.loadAllCommits p)) c ->
      (forall path limit localOnly branchName,
          In (Engine.get_commits path limit localOnly branchName)
             (Async.issued (Async.trace c)) ->
          limit = 10000%N /\ filterOf p localOnly branchName) /\
      (Js.truthyOpt (CommitHistory.currentBranch p) = false ->
       (forall path limit localOnly name,
           ~ In (Engine.get_commits path limit localOnly (Some name))
                (Async.issued (Async.trace c))) /\
       (forall All Local Current,
           In (Engine.setCommits All Local Current)
              (Async.effects (Async.trace c)) ->
           Current = []))) /\
  (Js.truthyOpt (CommitHistory.currentBranch p) = false ->
   forall allL localL,
   exists c,
     Async.steps (Async.launch (CommitHistory.loadAllCommits p)) c /\
     In (Engine.setCommits allL localL []) (Async.effects (Async.trace c))).
Proof.
  split; [apply launch_loadAllCommits|]. split.
  - intros c Hsteps.
    pose proof (steps_safe (historyGood p) (fun _ _ => I) _ c
                  (loadAllCommits_safe p) Hsteps) as Hall.
    rewrite Forall_forall in Hall.
    assert (Hreq : forall path limit localOnly branchName,
               In (Engine.get_commits path limit localOnly branchName)
                  (Async.issued (Async.trace c)) ->
               limit = 10000%N /\ filterOf p localOnly branchName).
    { intros path limit localOnly branchName Hin.
      apply In_issued in Hin. apply Hall in Hin. simpl in Hin. tauto. }
    split; [exact Hreq|]. intros Hno. split.
    + intros path limit localOnly name Hin.
      destruct (Hreq _ _ _ _ Hin) as [_ [[_ H]|[[_ H]|[_ H]]]];
        try discriminate.
      destruct H as (name' & _ & Hcur & Ht).
      rewrite Hcur in Hno. simpl in Hno. congruence.
    + intros All Local Current Hin.
      apply In_effects in Hin. rename Hin into Hdid.
      apply Hall in Hdid. simpl in Hdid. auto.
  - intros Hno allL localL. now apply no_branch_run.
Qed.

Lemma commit_requests_use_three_filters_witness :
  Async.issued
    (Async.trace (Async.launch (CommitHistory.loadAllCommits exampleHistory)))
  = [Engine.get_commits "/repo" 10000 false None;
     Engine.get_commits "/repo" 10000 true None;
     Engine.get_commits "/repo" 10000 false (Some "main")]
  /\ exists c,
       Async.steps
         (Async.launch (CommitHistory.loadAllCommits detachedHistory)) c /\
       In (Engine.setCommits [] [] []) (Async.effects (Async.trace c)).
Proof.
  split.
  - exact (proj1 (commit_requests_use_three_filters exampleHistory)).
  - exact (proj2 (proj2 (commit_requests_use_three_filters detachedHistory))
             eq_refl [] []).
Defined.

(** C9.  For a graph line whose colour index is a counter value, not
    negative and small enough for its product with 60 to be exact as a
    double (at most 2^53), the rendered hue is (colour x 60) mod 360, which
    is 60 times the index modulo 6, one of the six values 0, 60, 120, 180,
    240 and 300, and the stroke is [hsl(h, 70%, 60%)] with the numeral of
    that hue.  Two such indices give the same hue, and the same stroke,
    exactly when they are congruent modulo 6: the palette has six colours. *)
Theorem hue_cycles_with_period_six (l1 l2 : Engine.GraphLine) :
  (0 <= Engine.color l1)%Z ->
  (Engine.color l1 * 60 <= Z.of_N Js.maxExact)%Z ->
  (0 <= Engine.color l2)%Z ->
  (Engine.color l2 * 60 <= Z.of_N Js.maxExact)%Z ->
  CommitHistory.hue l1 = Some ((Engine.color l1 * 60) mod 360)%Z /\
  CommitHistory.hue l1 = Some (60 * (Engine.color l1 mod 6))%Z /\
  In (60 * (Engine.color l1 mod 6))%Z [0; 60; 120; 180; 240; 300]%Z /\
  CommitHistory.stroke l1
  = "hsl(" ++ Js.decimal (Z.to_N (60 * (Engine.color l1 mod 6)))
    ++ ", 70%, 60%)" /\
  ((Engine.color l1 mod 6 = Engine.color l2 mod 6)%Z <->
   CommitHistory.hue l1 = CommitHistory.hue l2) /\
  ((Engine.color l1 mod 6 = Engine.color l2 mod 6)%Z <->
   CommitHistory.stroke l1 = CommitHistory.stroke l2).
Proof.
  intros H1 B1 H2 B2.
  pose proof (hue_exact l1 H1 B1) as Hh1.
  pose proof (hue_exact l2 H2 B2) as Hh2.
  pose proof (stroke_exact l1 H1 B1) as Hs1.
  pose proof (stroke_exact l2 H2 B2) as Hs2.
  pose proof (Z.mod_pos_bound (Engine.color l1) 6 ltac:(lia)) as Hb1.
  pose proof (Z.mod_pos_bound (Engine.color l2) 6 ltac:(lia)) as Hb2.
  split; [|split; [exact Hh1|split; [|split; [exact Hs1|split]]]].
  - rewrite Hh1. f_equal.
    change 360%Z with (6 * 60)%Z. rewrite Z.mul_mod_distr_r by lia. lia.
  - assert (Hcases : (Engine.color l1 mod 6 = 0 \/ Engine.color l1 mod 6 = 1 \/
                      Engine.color l1 mod 6 = 2 \/ Engine.color l1 mod 6 = 3 \/
                      Engine.color l1 mod 6 = 4 \/ Engine.color l1 mod 6 = 5)%Z)
      by lia.
    destruct Hcases as [->|[->|[->|[->|[->| ->]]]]]; simpl; auto 10.
  - rewrite Hh1, Hh2. split; [intros ->; reflexivity|].
    intros H. assert (H' : (60 * (Engine.color l1 mod 6)
                            = 60 * (Engine.color l2 mod 6))%Z) by congruence.
    clear - H'. apply Z.mul_reg_l in H'; [exact H' | discriminate].
  - rewrite Hs1, Hs2. split; [intros ->; reflexivity|].
    now apply strokeOf_inj.
Qed.

Definition lineOfColor (c : Z) : Engine.GraphLine :=
  {| Engine.upper := true; Engine.from := 0; Engine.to := 1; Engine.color := c |}.

Lemma hue_cycles_with_period_six_witness :
  CommitHistory.hue (lineOfColor 7) = Some 60%Z /\
  CommitHistory.stroke (lineOfColor 7) = "hsl(60, 70%, 60%)" /\
  CommitHistory.stroke (lineOfColor 7) = CommitHistory.stroke (lineOfColor 1) /\
  CommitHistory.stroke (lineOfColor 7) <> CommitHistory.stroke (lineOfColor 2).
Proof.
  destruct (hue_cycles_with_period_six (lineOfColor 7) (lineOfColor 1))
    as (_ & H60 & _ & Hstroke & _ & Hsame);
    [simpl; lia | vm_compute; discriminate | simpl; lia
     | vm_compute; discriminate |].
  destruct (hue_cycles_with_period_six (lineOfColor 7) (lineOfColor 2))
    as (_ & _ & _ & _ & _ & Hother);
    [simpl; lia | vm_compute; discriminate | simpl; lia
     | vm_compute; discriminate |].
  split; [exact H60|]. split; [exact Hstroke|].
  split; [apply Hsame; reflexivity|].
  intros H. apply Hother in H. discriminate.
Defined.

(** Beyond that range the product is rounded and the hue leaves the
    palette. *)
Example hue_of_a_rounded_product :
  CommitHistory.hue (lineOfColor 600479950316067) = Some 176%Z.
Proof. vm_compute. reflexivity. Qed.

(* ===================================================================== *)
(** ** Launcher: the recent repositories                                  *)
(* ===================================================================== *)

Section RecentFacts.
Import Launcher.

Definition others (p : string) (l : list RecentRepo) : list RecentRepo :=
  filter (fun r => negb (String.eqb (path r) p)) l.

Definition paths (l : list RecentRepo) : list string := map path l.

(** The invariant of the list: no path twice, ten entries at most. *)
Definition tidy (l : list RecentRepo) : Prop :=
  NoDup (paths l) /\ List.length l <= 10.

Lemma others_paths (p : string) (l : list RecentRepo) :
  forall q, In q (paths (others p l)) <-> In q (paths l) /\ q <> p.
Proof.
  intros q. unfold paths, others. rewrite !in_map_iff. split.
  - intros (r & Hq & Hin). apply filter_In in Hin as [Hin Hne].
    apply negb_true_iff, String.eqb_neq in Hne. subst q. split; eauto.
  - intros [(r & Hq & Hin) Hne]. exists r. split; [exact Hq|].
    apply filter_In. split; [exact Hin|].
    apply negb_true_iff, String.eqb_neq. congruence.
Qed.

Lemma others_NoDup (p : string) (l : list RecentRepo) :
  NoDup (paths l) -> NoDup (paths (others p l)).
Proof.
  unfold paths, others. induction l as [|r l IH]; simpl; intros H; auto.
  inversion H as [|? ? Hnotin Hl]; subst.
  destruct (negb (String.eqb (path r) p)); simpl; auto.
  constructor; auto. intros Hin. apply Hnotin.
  now apply (others_paths p l (path r)) in Hin.
Qed.

Lemma others_length (p : string) (l : list RecentRepo) :
  List.length (others p l) <= List.length l.
Proof.
  unfold others. induction l as [|r l IH]; simpl; auto.
  destruct (negb _); simpl; lia.
Qed.

(** Removing a path that occurs, in a list without repetition, removes
    exactly one entry. *)
Lemma others_length_present (p : string) (l : list RecentRepo) :
  NoDup (paths l) -> In p (paths l) ->
  S (List.length (others p l)) = List.length l.
Proof.
  unfold paths, others. induction l as [|r l IH]; simpl; intros Hnd Hin.
  - destruct Hin.
  - inversion Hnd as [|? ? Hnotin Hl]; subst.
    destruct (String.eqb (path r) p) eqn:Heq; simpl.
    + apply String.eqb_eq in Heq. f_equal.
      assert (Hall : filter (fun r0 => negb (String.eqb (path r0) p)) l = l).
      { apply forallb_filter_id. apply forallb_forall. intros r0 Hr0.
        apply negb_true_iff, String.eqb_neq. intros He.
        apply Hnotin. rewrite Heq, <- He. now apply in_map. }
      now rewrite Hall.
    + f_equal. apply IH; auto.
      destruct Hin as [Hin|Hin]; auto.
      apply String.eqb_neq in Heq. congruence.
Qed.

Lemma firstn_In {A} (n : nat) (l : list A) (x : A) :
  In x (firstn n l) -> In x l.
Proof.
  revert n. induction l as [|y l IH]; intros [|n] H; simpl in *; auto.
  - contradiction.
  - destruct H as [H|H]; eauto.
Qed.

Lemma firstn_NoDup {A} (n : nat) (l : list A) : NoDup l -> NoDup (firstn n l).
Proof.
  revert n. induction l as [|x l IH]; intros [|n] H; simpl;
    try constructor.
  - inversion H; subst. intros Hin. apply firstn_In in Hin. contradiction.
  - inversion H; subst. now apply IH.
Qed.

Lemma add_unfold (now p : string) (s : State) :
  recentRepos (addToRecentRepos now s p)
  = {| path := p; name := repoName p; lastOpened := now |}
    :: firstn 9 (others p (recentRepos s)).
Proof. reflexivity. Qed.

Lemma paths_firstn (n : nat) (l : list RecentRepo) :
  paths (firstn n l) = firstn n (paths l).
Proof. unfold paths. symmetry. apply firstn_map. Qed.

Lemma add_tidy (now p : string) (s : State) :
  NoDup (paths (recentRepos s)) ->
  tidy (recentRepos (addToRecentRepos now s p)).
Proof.
  intros Hnd. rewrite add_unfold. unfold tidy.
  change (paths ({| path := p; name := repoName p; lastOpened := now |}
                 :: firstn 9 (others p (recentRepos s))))
    with (p :: paths (firstn 9 (others p (recentRepos s)))).
  rewrite paths_firstn. split.
  - constructor.
    + intros Hin. apply firstn_In in Hin.
      apply (others_paths p (recentRepos s) p) in Hin. tauto.
    + apply firstn_NoDup. now apply others_NoDup.
  - cbn [List.length].
    pose proof (firstn_le_length 9 (others p (recentRepos s))). lia.
Qed.

Lemma delete_tidy (p : string) (s : State) :
  tidy (recentRepos s) -> tidy (recentRepos (deleteRecentRepo s p)).
Proof.
  intros [Hnd Hlen]. unfold deleteRecentRepo, tidy. simpl. split.
  - now apply others_NoDup.
  - pose proof (others_length p (recentRepos s)). unfold others in *. lia.
Qed.

(** Every state the launcher reaches keeps both its list and the stored
    list tidy. *)
Lemma reachable_tidy (s : State) :
  reachable s ->
  tidy (recentRepos s) /\ forall l, stored s = Some l -> tidy l.
Proof.
  induction 1 as [|s _ [IH1 IH2]|s _ [IH1 IH2]|s now p _ [IH1 IH2]
                  |s p _ [IH1 IH2]].
  - split; [split; [constructor | simpl; lia] | discriminate].
  - split; [split; [constructor | simpl; lia] | exact IH2].
  - unfold loadRecentRepos. destruct (stored s) as [l|] eqn:Hst; simpl.
    + split; [now apply IH2 | exact IH2].
    + split; [exact IH1 | rewrite Hst; discriminate].
  - pose proof (add_tidy now p s (proj1 IH1)) as Ht.
    split; [exact Ht|]. intros l Hl. simpl in Hl. inversion Hl; subst.
    exact Ht.
  - pose proof (delete_tidy p s IH1) as Ht.
    split; [exact Ht|]. intros l Hl. simpl in Hl. inversion Hl; subst.
    exact Ht.
Qed.
End RecentFacts.

(** C10.  In every state the launcher can reach, adding a path leaves a
    list of at most ten entries, all with different paths, whose first
    entry is the new one for that path; the same list is stored.  If the
    path was already listed, the new list is the new entry followed by all
    the other entries in their old order, and is as long as the old one:
    the entry has moved to the front and nothing is duplicated or lost. *)
Theorem add_recent_repo_keeps_list_tidy
        (s : Launcher.State) (now p : string) :
  Launcher.reachable s ->
  let newRepo := {| Launcher.path := p;
                    Launcher.name := Launcher.repoName p;
                    Launcher.lastOpened := now |} in
  let updated := Launcher.recentRepos (Launcher.addToRecentRepos now s p) in
  List.length updated <= 10 /\
  NoDup (map Launcher.path updated) /\
  List.hd_error updated = Some newRepo /\
  Launcher.stored (Launcher.addToRecentRepos now s p) = Some updated /\
  (In p (map Launcher.path (Launcher.recentRepos s)) ->
   updated = newRepo :: others p (Launcher.recentRepos s) /\
   List.length updated = List.length (Launcher.recentRepos s)).
Proof.
  intros Hreach newRepo updated.
  destruct (reachable_tidy s Hreach) as [[Hnd Hlen] _].
  destruct (add_tidy now p s Hnd) as [Hnd' Hlen'].
  split; [exact Hlen'|]. split; [exact Hnd'|].
  split; [reflexivity|]. split; [reflexivity|].
  intros Hin.
  pose proof (others_length_present p _ Hnd Hin) as Hone.
  assert (Hupd : updated = newRepo :: others p (Launcher.recentRepos s)).
  { unfold updated. rewrite add_unfold. fold newRepo. f_equal.
    apply firstn_all2. lia. }
  split; [exact Hupd|]. rewrite Hupd. simpl. exact Hone.
Qed.

Definition repo (p : string) : Launcher.RecentRepo :=
  {| Launcher.path := p; Launcher.name := Launcher.repoName p;
     Launcher.lastOpened := "2025-01-01T00:00:00.000Z" |}.

Lemma add_recent_repo_keeps_list_tidy_witness :
  Launcher.recentRepos
    (Launcher.addToRecentRepos "2025-01-01T00:00:00.000Z"
       (Launcher.addToRecentRepos "2025-01-01T00:00:00.000Z"
          (Launcher.addToRecentRepos "2025-01-01T00:00:00.000Z"
             Launcher.initial "/src/gitx")
          "/src/linux")
       "/src/gitx")
  = [repo "/src/gitx"; repo "/src/linux"].
Proof.
  refine (proj1 (proj2 (proj2 (proj2 (proj2
            (add_recent_repo_keeps_list_tidy
               (Launcher.addToRecentRepos "2025-01-01T00:00:00.000Z"
                  (Launcher.addToRecentRepos "2025-01-01T00:00:00.000Z"
                     Launcher.initial "/src/gitx")
                  "/src/linux")
               "2025-01-01T00:00:00.000Z" "/src/gitx" _)))) _)).
  - do 2 apply Launcher.reach_add. apply Launcher.reach_initial.
  - simpl. auto.
Defined.

(* ===================================================================== *)
(** ** Splitting and joining                                              *)
(* ===================================================================== *)

Section SplitJoinFacts.
Import Js.

(** [s.includes(c)] for a character. *)
Fixpoint hasChar (c : ascii) (s : string) : bool :=
  match s with
  | EmptyString => false
  | String d s' => Ascii.eqb d c || hasChar c s'
  end.

Definition sepOf (c : ascii) : string := String c EmptyString.

Lemma append_assoc (a b c : string) : (a ++ b) ++ c = a ++ (b ++ c).
Proof. induction a as [|x a IH]; simpl; [reflexivity | now rewrite IH]. Qed.

Lemma join_cons (sep x : string) (y : string) (l : list string) :
  join sep (x :: y :: l) = x ++ sep ++ join sep (y :: l).
Proof. reflexivity. Qed.

Lemma join_split (sep : ascii) (s : string) :
  join (sepOf sep) (split sep s) = s.
Proof.
  induction s as [|c s IH]; [reflexivity|]. simpl split.
  destruct (Ascii.eqb c sep) eqn:Hc.
  - apply Ascii.eqb_eq in Hc. subst c.
    destruct (split sep s) as [|w ws] eqn:Hs.
    + now apply split_nonempty in Hs.
    + rewrite join_cons, IH. reflexivity.
  - destruct (split sep s) as [|w ws] eqn:Hs.
    + now apply split_nonempty in Hs.
    + destruct ws as [|w' ws].
      * simpl in *. now rewrite IH.
      * rewrite join_cons. rewrite join_cons in IH. now rewrite <- IH.
Qed.

Lemma split_words (sep : ascii) (s : string) :
  Forall (fun w => hasChar sep w = false) (split sep s).
Proof.
  induction s as [|c s IH]; simpl.
  - repeat constructor.
  - destruct (Ascii.eqb c sep) eqn:Hc.
    + constructor; [reflexivity | exact IH].
    + destruct (split sep s) as [|w ws]; [repeat constructor; simpl; now rewrite Hc|].
      inversion IH; subst. constructor; auto. simpl. now rewrite Hc.
Qed.

Lemma split_app_sep (sep : ascii) (w t : string) :
  hasChar sep w = false -> split sep (w ++ String sep t) = w :: split sep t.
Proof.
  induction w as [|c w IH]; simpl; intros H.
  - now rewrite Ascii.eqb_refl.
  - apply orb_false_iff in H as [Hc Hw]. rewrite Hc, (IH Hw). reflexivity.
Qed.

Lemma split_word (sep : ascii) (w : string) :
  hasChar sep w = false -> split sep w = [w].
Proof.
  induction w as [|c w IH]; simpl; intros H; [reflexivity|].
  apply orb_false_iff in H as [Hc Hw]. now rewrite Hc, (IH Hw).
Qed.

(** Joining lines that hold no separator and splitting again gives the
    lines back, unless there was no line at all. *)
Lemma split_join (sep : ascii) (l : list string) :
  l <> [] -> Forall (fun w => hasChar sep w = false) l ->
  split sep (join (sepOf sep) l) = l.
Proof.
  induction l as [|x l IH]; intros Hne Hall; [congruence|].
  inversion Hall as [|? ? Hx Hl]; subst.
  destruct l as [|y l].
  - simpl. now apply split_word.
  - rewrite join_cons.
    change (sepOf sep ++ join (sepOf sep) (y :: l))
      with (String sep (join (sepOf sep) (y :: l))).
    rewrite (split_app_sep sep x _ Hx), IH; auto. discriminate.
Qed.

Lemma join_snoc (sep : string) (init : list string) (w : string) :
  join sep (init ++ [w])
  = match init with
    | [] => w
    | _ :: _ => join sep init ++ sep ++ w
    end.
Proof.
  induction init as [|x init IH]; [reflexivity|].
  destruct init as [|y init].
  - reflexivity.
  - change ((x :: y :: init) ++ [w])%list with (x :: (y :: init) ++ [w])%list.
    change ((y :: init) ++ [w])%list with (y :: (init ++ [w]))%list in *.
    rewrite join_cons, IH, join_cons.
    now rewrite !append_assoc.
Qed.
End SplitJoinFacts.

Section TilingFacts.
Import Js DiffView.

Lemma nth_error_splits {A} (l : list A) (j : nat) (x : A) :
  nth_error l j = Some x ->
  l = (firstn j l ++ x :: skipn (S j) l)%list /\ List.length (firstn j l) = j.
Proof.
  revert j. induction l as [|y l IH]; intros [|j] H; simpl in *;
    try discriminate.
  - inversion H. auto.
  - destruct (IH _ H) as [E L]. split; [now f_equal | now f_equal].
Qed.

Lemma takeWhile_splits {A} (f : A -> bool) (l : list A) :
  l = (Spec.takeWhile f l ++ skipn (List.length (Spec.takeWhile f l)) l)%list
  /\ Forall (fun x => f x = true) (Spec.takeWhile f l)
  /\ (skipn (List.length (Spec.takeWhile f l)) l = []
      \/ exists x r, skipn (List.length (Spec.takeWhile f l)) l = x :: r
                     /\ f x = false).
Proof.
  induction l as [|x l (E & Hall & Hrest)]; simpl.
  - repeat split; auto.
  - destruct (f x) eqn:Hx; simpl.
    + repeat split; [now f_equal | now constructor | exact Hrest].
    + repeat split; [constructor|]. right. eauto.
Qed.

Lemma lines_have_no_newline (p : Props) :
  Forall (fun w => hasChar nl w = false) (lines p).
Proof. apply split_words. Qed.

Lemma diff_is_joined_lines (p : Props) : diff p = join NL (lines p).
Proof. symmetry. apply (join_split nl). Qed.
End TilingFacts.

(** X1.  Whatever row a click handler of [DiffView] runs for, the header
    and the body text it computes sit in the diff text as they are: the
    text is the lines before the row, the header line, the lines of the
    body, and the lines left over, joined with newlines.  No body line
    begins with the marker, and what is left over is nothing or begins with
    the next marker line.  Unless the body is empty, splitting the body
    text at newlines gives back exactly its lines. *)
Theorem hunk_and_body_tile_the_diff
        (p : DiffView.Props) (idx : nat) (m text : string) :
  DiffView.hunkArgs (DiffView.lines p) (DiffView.startIdx (DiffView.lines p)) idx
  = (Some m, text) ->
  exists before body rest,
    DiffView.lines p = (before ++ m :: body ++ rest)%list /\
    List.length before = DiffView.startIdx (DiffView.lines p) + idx /\
    text = Js.join Js.NL body /\
    DiffView.diff p = Js.join Js.NL (before ++ m :: body ++ rest) /\
    Forall plain body /\
    (rest = [] \/
     exists m' rest', rest = m' :: rest' /\ DiffView.isHunkLine m' = true) /\
    (body <> [] -> Js.split Js.nl text = body).
Proof.
  intros Hargs.
  set (ls := DiffView.lines p) in *.
  set (j := DiffView.startIdx ls + idx) in *.
  assert (Hm : nth_error ls j = Some m).
  { unfold DiffView.hunkArgs in Hargs. now inversion Hargs. }
  rewrite (hunkArgs_spec ls _ idx m Hm) in Hargs.
  inversion Hargs as [Htext]. clear Hargs. fold j in Htext |- *.
  destruct (nth_error_splits ls j m Hm) as [Hls Hlen].
  destruct (takeWhile_splits (fun l => negb (DiffView.isHunkLine l))
              (skipn (S j) ls)) as (Htl & Hbody & Hrest).
  fold (Spec.hunkBody ls j) in Htl, Hbody, Hrest.
  set (body := Spec.hunkBody ls j) in *.
  set (rest := skipn (List.length body) (skipn (S j) ls)) in *.
  assert (Hdecomp : ls = (firstn j ls ++ m :: body ++ rest)%list).
  { rewrite <- Htl. exact Hls. }
  assert (Hplain : Forall plain body).
  { eapply Forall_impl; [|exact Hbody]. intros l Hl.
    now apply negb_true_iff in Hl. }
  exists (firstn j ls), body, rest.
  split; [exact Hdecomp|]. split; [exact Hlen|]. split; [reflexivity|].
  split; [|split; [exact Hplain|split]].
  - rewrite <- Hdecomp. apply diff_is_joined_lines.
  - destruct Hrest as [Hr|(x & r & Hr & Hx)]; [now left|].
    right. exists x, r. split; [exact Hr|]. now apply negb_false_iff in Hx.
  - intros Hne. apply (split_join Js.nl body Hne).
    pose proof (lines_have_no_newline p) as Hall. fold ls in Hall.
    rewrite Hdecomp in Hall.
    apply Forall_app in Hall as [_ Hall]. inversion Hall as [|? ? _ Htail]; subst.
    now apply Forall_app in Htail as [Hb _].
Qed.

Lemma hunk_and_body_tile_the_diff_witness :
  exists before body rest,
    DiffView.lines exampleProps
    = (before ++ "@@ -1,3 +1,3 @@ intro" :: body ++ rest)%list /\
    List.length before = DiffView.startIdx (DiffView.lines exampleProps) + 0 /\
    " one
-two
+deux" = Js.join Js.NL body /\
    DiffView.diff exampleProps
    = Js.join Js.NL (before ++ "@@ -1,3 +1,3 @@ intro" :: body ++ rest) /\
    Forall plain body /\
    (rest = [] \/
     exists m' rest', rest = m' :: rest' /\ DiffView.isHunkLine m' = true) /\
    (body <> [] -> Js.split Js.nl " one
-two
+deux" = body).
Proof.
  apply (hunk_and_body_tile_the_diff exampleProps 0).
  vm_compute. reflexivity.
Defined.

(** X2.  The subject shown for a commit is its message up to the first
    newline: it holds no newline, and the message is the subject alone or
    the subject, a newline and the rest. *)
Theorem subject_is_first_line (message : string) :
  hasChar Js.nl (CommitRow.subject message) = false /\
  (message = CommitRow.subject message \/
   exists rest, message = CommitRow.subject message ++ Js.NL ++ rest).
Proof.
  unfold CommitRow.subject.
  pose proof (split_words Js.nl message) as Hw.
  pose proof (join_split Js.nl message) as Hj.
  destruct (Js.split Js.nl message) as [|w ws] eqn:Hs.
  - now apply split_nonempty in Hs.
  - inversion Hw as [|? ? Hnw _]. simpl List.hd. split; [exact Hnw|].
    destruct ws as [|w' ws].
    + left. simpl in Hj. congruence.
    + right. rewrite join_cons in Hj. eexists. symmetry. exact Hj.
Qed.

(** X3.  The name recorded for a repository is the part of its path after
    the last slash: it holds no slash and the path is the name, or a
    directory, a slash and the name.  Only when that part is empty (the
    path is empty or ends with a slash) is the whole path the name.  A
    non-empty path always gets a non-empty name. *)
Theorem repo_name_is_last_segment (p : string) :
  ((hasChar "/" (Launcher.repoName p) = false /\
    (p = Launcher.repoName p \/
     exists dir, p = dir ++ "/" ++ Launcher.repoName p))
   \/
   (Launcher.repoName p = p /\
    (p = EmptyString \/ exists dir, p = dir ++ "/"))) /\
  (Js.truthy p = true -> Js.truthy (Launcher.repoName p) = true).
Proof.
  unfold Launcher.repoName, Js.orElse.
  pose proof (split_words "/" p) as Hw.
  pose proof (join_split "/" p) as Hj.
  pose proof (split_nonempty "/" p) as Hne.
  destruct (exists_last Hne) as (init & w & Hs).
  rewrite Hs in *. rewrite last_last.
  rewrite join_snoc in Hj.
  apply Forall_app in Hw as [_ Hw]. inversion Hw as [|? ? Hnw _].
  destruct (Js.truthy w) eqn:Ht.
  - split; [|intros _; exact Ht]. left. split; [exact Hnw|].
    destruct init as [|seg init]; [left; congruence|].
    right. eexists. symmetry. exact Hj.
  - split; [|auto]. right. split; [reflexivity|].
    destruct w; [|discriminate].
    destruct init as [|seg init]; [left; congruence|].
    right. eexists. rewrite <- Hj. reflexivity.
Qed.

Lemma repo_name_is_last_segment_witness :
  Js.truthy (Launcher.repoName "/src/gitx") = true.
Proof.
  exact (proj2 (repo_name_is_last_segment "/src/gitx") eq_refl).
Defined.

(* ===================================================================== *)
(** ** Launcher: deleting, and adding to a full list                      *)
(* ===================================================================== *)

Section RecentMoreFacts.
Import Launcher.

Lemma others_absent (p : string) (l : list RecentRepo) :
  ~ In p (paths l) -> others p l = l.
Proof.
  intros Hno. unfold others. apply forallb_filter_id, forallb_forall.
  intros r Hr. apply negb_true_iff, String.eqb_neq. intros He.
  apply Hno. rewrite <- He. now apply in_map.
Qed.

Lemma others_present (p : string) (l : list RecentRepo) :
  NoDup (paths l) -> In p (paths l) ->
  exists before r after,
    l = (before ++ r :: after)%list /\ path r = p /\
    others p l = (before ++ after)%list.
Proof.
  induction l as [|x l IH]; intros Hnd Hin; [destruct Hin|].
  inversion Hnd as [|? ? Hx Hl]; subst.
  destruct (String.eqb (path x) p) eqn:He.
  - apply String.eqb_eq in He. exists [], x, l. repeat split; auto.
    unfold others. simpl. rewrite (proj2 (String.eqb_eq _ _) He). simpl.
    apply (others_absent p l). now rewrite <- He.
  - apply String.eqb_neq in He.
    destruct Hin as [Hin|Hin]; [contradiction|].
    destruct (IH Hl Hin) as (before & r & after & -> & Hr & Ho).
    exists (x :: before), r, after. repeat split; auto.
    unfold others in *. simpl.
    rewrite (proj2 (String.eqb_neq _ _) He). simpl. now rewrite Ho.
Qed.

Lemma others_firstn_absent (p : string) (n : nat) (l : list RecentRepo) :
  others p (firstn n (others p l)) = firstn n (others p l).
Proof.
  apply others_absent. intros Hin. rewrite paths_firstn in Hin.
  apply firstn_In in Hin. apply (others_paths p l p) in Hin. tauto.
Qed.

Lemma delete_after_add (now p : string) (s : State) :
  recentRepos (deleteRecentRepo (addToRecentRepos now s p) p)
  = firstn 9 (others p (recentRepos s)).
Proof.
  unfold deleteRecentRepo. cbn [recentRepos]. rewrite add_unfold.
  fold (others p ({| path := p; name := repoName p; lastOpened := now |}
                  :: firstn 9 (others p (recentRepos s)))).
  unfold others at 1. cbn [filter path]. rewrite String.eqb_refl. cbn [negb].
  apply (others_firstn_absent p 9 (recentRepos s)).
Qed.
End RecentMoreFacts.

(** Three repositories added one after the other to an empty list. *)
Definition threeRepos : Launcher.State :=
  Launcher.addToRecentRepos "2025-01-03T00:00:00.000Z"
    (Launcher.addToRecentRepos "2025-01-02T00:00:00.000Z"
       (Launcher.addToRecentRepos "2025-01-01T00:00:00.000Z"
          Launcher.initial "/src/a")
       "/src/b")
    "/src/c".

Lemma threeRepos_reachable : Launcher.reachable threeRepos.
Proof. do 3 apply Launcher.reach_add. apply Launcher.reach_initial. Qed.

(** X4.  In every state the launcher can reach, deleting a path leaves a
    list without that path and stores it.  If the path was not listed the
    list is unchanged; if it was, exactly its one entry is taken out and
    the entries before and after it stay as they were. *)
Theorem delete_recent_repo_removes_its_entry
        (s : Launcher.State) (p : string) :
  Launcher.reachable s ->
  let l := Launcher.recentRepos s in
  let l' := Launcher.recentRepos (Launcher.deleteRecentRepo s p) in
  ~ In p (map Launcher.path l') /\
  Launcher.stored (Launcher.deleteRecentRepo s p) = Some l' /\
  (~ In p (map Launcher.path l) -> l' = l) /\
  (In p (map Launcher.path l) ->
   exists before r after,
     l = (before ++ r :: after)%list /\ Launcher.path r = p /\
     l' = (before ++ after)%list).
Proof.
  intros Hreach l l'.
  destruct (reachable_tidy s Hreach) as [[Hnd _] _].
  split; [|split; [reflexivity|split]].
  - intros Hin. apply (others_paths p l p) in Hin. tauto.
  - apply others_absent.
  - now apply others_present.
Qed.

Lemma delete_recent_repo_removes_its_entry_witness :
  exists before r after,
    Launcher.recentRepos threeRepos = (before ++ r :: after)%list /\
    Launcher.path r = "/src/b" /\
    Launcher.recentRepos (Launcher.deleteRecentRepo threeRepos "/src/b")
    = (before ++ after)%list.
Proof.
  apply (proj2 (proj2 (proj2
           (delete_recent_repo_removes_its_entry threeRepos "/src/b"
              threeRepos_reachable)))).
  simpl. auto.
Defined.

(** X5.  In every state the launcher can reach, adding a path and deleting
    it again gives the list that deleting alone gives, as long as the path
    was already listed or the list had fewer than ten entries.  With ten
    entries and a new path the last entry is lost on the way: the first
    nine are left. *)
Theorem add_then_delete_recent_repo
        (s : Launcher.State) (now p : string) :
  Launcher.reachable s ->
  let l := Launcher.recentRepos s in
  let back := Launcher.recentRepos
                (Launcher.deleteRecentRepo
                   (Launcher.addToRecentRepos now s p) p) in
  (In p (map Launcher.path l) \/ List.length l < 10 ->
   back = Launcher.recentRepos (Launcher.deleteRecentRepo s p)) /\
  (~ In p (map Launcher.path l) -> back = firstn 9 l) /\
  (~ In p (map Launcher.path l) -> List.length l < 10 -> back = l).
Proof.
  intros Hreach l back.
  destruct (reachable_tidy s Hreach) as [[Hnd Hlen] _].
  fold l in Hnd, Hlen.
  assert (Hback : back = firstn 9 (others p l)) by apply delete_after_add.
  assert (Hdel : Launcher.recentRepos (Launcher.deleteRecentRepo s p)
                 = others p l) by reflexivity.
  rewrite Hdel. clearbody l back.
  assert (Hshort : In p (map Launcher.path l) \/ List.length l < 10 ->
                   List.length (others p l) <= 9).
  { intros [Hin|Hlt].
    - pose proof (others_length_present p l Hnd Hin). lia.
    - pose proof (others_length p l). lia. }
  split; [|split].
  - intros H. rewrite Hback. apply firstn_all2. now apply Hshort.
  - intros Hno. rewrite Hback. now rewrite (others_absent p l Hno).
  - intros Hno Hlt. rewrite Hback, (others_absent p l Hno).
    apply firstn_all2. lia.
Qed.

Lemma add_then_delete_recent_repo_witness :
  Launcher.recentRepos
    (Launcher.deleteRecentRepo
       (Launcher.addToRecentRepos "2025-01-04T00:00:00.000Z" threeRepos "/src/d")
       "/src/d")
  = Launcher.recentRepos threeRepos.
Proof.
  refine (proj2 (proj2 (add_then_delete_recent_repo threeRepos
                          "2025-01-04T00:00:00.000Z" "/src/d"
                          threeRepos_reachable)) _ _).
  - simpl. intuition discriminate.
  - simpl. lia.
Defined.

(** X6.  In every state the launcher can reach, adding a path that is not
    listed puts its entry in front of the first nine old entries: a list
    of fewer than ten entries keeps them all, and a list of ten loses
    exactly its last entry, the one opened longest ago. *)
Theorem add_recent_repo_evicts_the_last
        (s : Launcher.State) (now p : string) :
  Launcher.reachable s ->
  ~ In p (map Launcher.path (Launcher.recentRepos s)) ->
  let l := Launcher.recentRepos s in
  let newRepo := {| Launcher.path := p;
                    Launcher.name := Launcher.repoName p;
                    Launcher.lastOpened := now |} in
  let updated := Launcher.recentRepos (Launcher.addToRecentRepos now s p) in
  updated = newRepo :: firstn 9 l /\
  (List.length l < 10 -> updated = newRepo :: l) /\
  (List.length l = 10 ->
   exists kept dropped, l = (kept ++ [dropped])%list /\ updated = newRepo :: kept).
Proof.
  intros Hreach Hno l newRepo updated.
  assert (Hupd : updated = newRepo :: firstn 9 l).
  { unfold updated. rewrite add_unfold. fold newRepo.
    now rewrite (others_absent p _ Hno). }
  split; [exact Hupd|]. split.
  - intros Hlt. rewrite Hupd. f_equal. apply firstn_all2. lia.
  - intros Hten.
    assert (Hne : l <> []) by (intros E; rewrite E in Hten; discriminate).
    destruct (exists_last Hne) as (kept & dropped & Hl).
    exists kept, dropped. split; [exact Hl|].
    rewrite Hupd. f_equal. rewrite Hl.
    rewrite Hl, length_app in Hten. simpl in Hten.
    replace 9 with (List.length kept) by lia.
    apply firstn_length_app.
Qed.

Lemma add_recent_repo_evicts_the_last_witness :
  Launcher.recentRepos
    (Launcher.addToRecentRepos "2025-01-04T00:00:00.000Z" threeRepos "/src/d")
  = {| Launcher.path := "/src/d"; Launcher.name := "d";
       Launcher.lastOpened := "2025-01-04T00:00:00.000Z" |}
    :: Launcher.recentRepos threeRepos.
Proof.
  refine (proj1 (proj2 (add_recent_repo_evicts_the_last threeRepos
                          "2025-01-04T00:00:00.000Z" "/src/d"
                          threeRepos_reachable _)) _).
  - simpl. intuition discriminate.
  - simpl. lia.
Defined.

(* ===================================================================== *)
(** ** RepoView: the remotes without repeated names                       *)
(* ===================================================================== *)

Section UniqueRemotesFacts.
Import RepoView.

Definition remoteNames (l : list GitRemote) : list string := map name l.

Definition named (n : string) (r : GitRemote) : bool := String.eqb (name r) n.

Definition seenName (n : string) (seen : list string) : bool :=
  existsb (String.eqb n) seen.

(** The remotes of [l] whose name is neither in [seen] nor earlier in [l]. *)
Fixpoint keepNew (seen : list string) (l : list GitRemote) : list GitRemote :=
  match l with
  | [] => []
  | x :: t =>
      if seenName (name x) seen then keepNew seen t
      else x :: keepNew (name x :: seen) t
  end.

Lemma seenName_In (n : string) (seen : list string) :
  seenName n seen = true <-> In n seen.
Proof.
  unfold seenName. rewrite existsb_exists. split.
  - intros (m & Hin & He). apply String.eqb_eq in He. now subst.
  - intros Hin. exists n. split; [exact Hin | apply String.eqb_refl].
Qed.

Lemma seenName_ext (n : string) (s1 s2 : list string) :
  (forall m, In m s1 <-> In m s2) -> seenName n s1 = seenName n s2.
Proof.
  intros H. destruct (seenName n s1) eqn:H1, (seenName n s2) eqn:H2; auto.
  - apply seenName_In, H, seenName_In in H1. congruence.
  - apply seenName_In, H, seenName_In in H2. congruence.
Qed.

Lemma keepNew_ext (l : list GitRemote) : forall s1 s2,
  (forall m, In m s1 <-> In m s2) -> keepNew s1 l = keepNew s2 l.
Proof.
  induction l as [|x t IH]; intros s1 s2 H; [reflexivity|]. simpl.
  rewrite (seenName_ext (name x) s1 s2 H).
  destruct (seenName (name x) s2); [now apply IH|].
  f_equal. apply IH. intros m. simpl. rewrite H. tauto.
Qed.

Lemma findIndexFrom_none {A} (f : A -> bool) (pre : list A) (x : A)
      (t : list A) (i : nat) :
  Forall (fun y => f y = false) pre -> f x = true ->
  findIndexFrom f i (pre ++ x :: t) = Some (i + List.length pre).
Proof.
  intros Hpre Hx. revert i.
  induction Hpre as [|y pre Hy _ IH]; intros i; simpl.
  - rewrite Hx. f_equal. lia.
  - rewrite Hy, IH. f_equal. lia.
Qed.

Lemma findIndexFrom_some {A} (f : A -> bool) (pre rest : list A) (i : nat) :
  Exists (fun y => f y = true) pre ->
  exists j, findIndexFrom f i (pre ++ rest) = Some j /\ j < i + List.length pre.
Proof.
  intros Hex. revert i. induction pre as [|y pre IH]; intros i.
  - inversion Hex.
  - simpl. destruct (f y) eqn:Hy.
    + exists i. split; [reflexivity | lia].
    + inversion Hex as [? ? H|? ? H]; subst; [congruence|].
      destruct (IH H (S i)) as (j & Hj & Hlt). exists j. split; [exact Hj | lia].
Qed.

(** The index test of [uniqueRemotes] at a position of the list. *)
Lemma first_index_test (pre : list GitRemote) (x : GitRemote)
      (t : list GitRemote) :
  match findIndex (fun r => String.eqb (name r) (name x)) (pre ++ x :: t) with
  | Some first => Nat.eqb (List.length pre) first
  | None => false
  end = negb (seenName (name x) (remoteNames pre)).
Proof.
  unfold findIndex.
  destruct (seenName (name x) (remoteNames pre)) eqn:Hseen; simpl.
  - apply seenName_In in Hseen. unfold remoteNames in Hseen.
    apply in_map_iff in Hseen as (y & Hy & Hin).
    destruct (findIndexFrom_some (fun r => String.eqb (name r) (name x))
                pre (x :: t) 0) as (j & -> & Hlt).
    { apply Exists_exists. exists y. split; [exact Hin|].
      now apply String.eqb_eq. }
    apply Nat.eqb_neq. lia.
  - rewrite findIndexFrom_none.
    + simpl. apply Nat.eqb_refl.
    + apply Forall_forall. intros y Hin.
      apply String.eqb_neq. intros He.
      assert (In (name x) (remoteNames pre))
        by (rewrite <- He; now apply in_map).
      apply seenName_In in H. congruence.
    + apply String.eqb_refl.
Qed.

Lemma filterFrom_keepNew (l : list GitRemote) : forall pre suf,
  l = (pre ++ suf)%list ->
  filterFrom
    (fun remote index =>
       match findIndex (fun r => String.eqb (name r) (name remote)) l with
       | Some first => Nat.eqb index first
       | None => false
       end)
    (List.length pre) suf
  = keepNew (remoteNames pre) suf.
Proof.
  intros pre suf. revert pre.
  induction suf as [|x t IH]; intros pre Hl; [reflexivity|].
  cbn [filterFrom keepNew]. rewrite Hl at 1. rewrite first_index_test.
  assert (Hnext : l = ((pre ++ [x]) ++ t)%list)
    by (rewrite <- app_assoc; exact Hl).
  pose proof (IH _ Hnext) as IH'.
  rewrite length_app in IH'. simpl in IH'.
  replace (List.length pre + 1) with (S (List.length pre)) in IH' by lia.
  rewrite IH'. unfold remoteNames. rewrite map_app. simpl.
  destruct (seenName (name x) (map name pre)) eqn:Hseen; simpl.
  - apply keepNew_ext. intros n. rewrite in_app_iff. simpl.
    apply seenName_In in Hseen. split; [|auto].
    intros [H|[H|[]]]; [exact H | now subst].
  - f_equal. apply keepNew_ext. intros n. rewrite in_app_iff. simpl. tauto.
Qed.
End UniqueRemotesFacts.

Section KeepNewFacts.
Import RepoView.

Lemma uniqueRemotes_keepNew (l : list GitRemote) :
  uniqueRemotes l = keepNew [] l.
Proof. exact (filterFrom_keepNew l [] l eq_refl). Qed.

Lemma keepNew_names (l : list GitRemote) : forall seen n,
  In n (remoteNames (keepNew seen l)) <-> In n (remoteNames l) /\ ~ In n seen.
Proof.
  induction l as [|x t IH]; intros seen n; simpl; [tauto|].
  destruct (seenName (name x) seen) eqn:Hs.
  - apply seenName_In in Hs. rewrite IH. split.
    + intros [H1 H2]. auto.
    + intros [[H|H] H2]; [subst; contradiction | auto].
  - assert (Hx : ~ In (name x) seen).
    { intros H. apply seenName_In in H. congruence. }
    simpl. rewrite IH. simpl. split.
    + intros [H|[H1 H2]]; [subst; auto | split; [auto | tauto]].
    + intros [[H|H] H2]; [auto|].
      destruct (string_dec (name x) n); [auto | right; tauto].
Qed.

Lemma keepNew_NoDup (l : list GitRemote) : forall seen,
  NoDup (remoteNames (keepNew seen l)).
Proof.
  induction l as [|x t IH]; intros seen; simpl; [constructor|].
  destruct (seenName (name x) seen); [apply IH|].
  simpl. constructor; [|apply IH].
  intros H. apply keepNew_names in H. simpl in H. tauto.
Qed.

Lemma keepNew_find (l : list GitRemote) : forall seen n,
  ~ In n seen -> find (named n) (keepNew seen l) = find (named n) l.
Proof.
  induction l as [|x t IH]; intros seen n Hn; simpl; [reflexivity|].
  unfold named at 2. destruct (seenName (name x) seen) eqn:Hs.
  - apply seenName_In in Hs.
    destruct (String.eqb (name x) n) eqn:He.
    + apply String.eqb_eq in He. subst. contradiction.
    + now apply IH.
  - simpl. unfold named at 1.
    destruct (String.eqb (name x) n) eqn:He; [reflexivity|].
    apply IH. simpl. apply String.eqb_neq in He. tauto.
Qed.

Lemma keepNew_fixed (l : list GitRemote) : forall seen,
  NoDup (remoteNames l) -> (forall n, In n (remoteNames l) -> ~ In n seen) ->
  keepNew seen l = l.
Proof.
  induction l as [|x t IH]; intros seen Hnd Hdis; simpl; [reflexivity|].
  inversion Hnd as [|? ? Hx Ht]; subst.
  destruct (seenName (name x) seen) eqn:Hs.
  - apply seenName_In in Hs. exfalso. apply (Hdis (name x)); simpl; auto.
  - f_equal. apply IH; [exact Ht|].
    intros n Hin [H|H]; [subst; contradiction|].
    apply (Hdis n); simpl; auto.
Qed.
End KeepNewFacts.

(** X7.  The remotes kept by [loadRemotes] have pairwise different names,
    and the names are those the engine returned.  For each name the remote
    kept is the first one returned with that name.  A list without repeated
    names is kept as it is, so deduplicating twice changes nothing. *)
Theorem unique_remotes_keep_first_of_each_name
        (remoteList : list RepoView.GitRemote) :
  NoDup (map RepoView.name (RepoView.uniqueRemotes remoteList)) /\
  (forall n, In n (map RepoView.name (RepoView.uniqueRemotes remoteList))
             <-> In n (map RepoView.name remoteList)) /\
  (forall n, find (named n) (RepoView.uniqueRemotes remoteList)
             = find (named n) remoteList) /\
  (NoDup (map RepoView.name remoteList) ->
   RepoView.uniqueRemotes remoteList = remoteList) /\
  RepoView.uniqueRemotes (RepoView.uniqueRemotes remoteList)
  = RepoView.uniqueRemotes remoteList.
Proof.
  rewrite !uniqueRemotes_keepNew.
  assert (Hfix : forall l, NoDup (map RepoView.name l) -> keepNew [] l = l).
  { intros l Hnd. apply keepNew_fixed; auto. }
  split; [apply keepNew_NoDup|]. split.
  - intros n. rewrite (keepNew_names remoteList [] n). simpl.
    unfold remoteNames. tauto.
  - split; [intros n; now apply keepNew_find|]. split; [apply Hfix|].
    apply Hfix. apply keepNew_NoDup.
Qed.

Definition remoteOf (n u : string) : RepoView.GitRemote :=
  {| RepoView.name := n; RepoView.url := u; RepoView.branches := None |}.

Lemma unique_remotes_keep_first_of_each_name_witness :
  RepoView.uniqueRemotes
    [remoteOf "origin" "git@a"; remoteOf "fork" "git@b"; remoteOf "origin" "git@c"]
  = [remoteOf "origin" "git@a"; remoteOf "fork" "git@b"]
  /\ RepoView.uniqueRemotes [remoteOf "origin" "git@a"; remoteOf "fork" "git@b"]
     = [remoteOf "origin" "git@a"; remoteOf "fork" "git@b"].
Proof.
  split; [reflexivity|].
  apply (proj1 (proj2 (proj2 (proj2
           (unique_remotes_keep_first_of_each_name
              [remoteOf "origin" "git@a"; remoteOf "fork" "git@b"]))))).
  simpl. repeat constructor; simpl; intuition discriminate.
Defined.

(* ===================================================================== *)
(** ** RepoView: the set of collapsed files                               *)
(* ===================================================================== *)

Section CollapseFacts.
Import RepoView.

Lemma has_In (s : IndexSet) (i : nat) : has s i = true <-> In i s.
Proof.
  unfold has. rewrite existsb_exists. split.
  - intros (j & Hin & He). apply Nat.eqb_eq in He. now subst.
  - intros Hin. exists i. split; [exact Hin | apply Nat.eqb_refl].
Qed.

Lemma has_false (s : IndexSet) (i : nat) : has s i = false <-> ~ In i s.
Proof.
  rewrite <- has_In. destruct (has s i); split; congruence.
Qed.

Lemma delete_In (s : IndexSet) (i j : nat) :
  In j (delete s i) <-> In j s /\ j <> i.
Proof.
  unfold delete. rewrite filter_In, negb_true_iff, Nat.eqb_neq. tauto.
Qed.

Lemma toggle_In (s : IndexSet) (i j : nat) :
  In j (toggleFileCollapse s i) <-> (j = i /\ ~ In i s) \/ (j <> i /\ In j s).
Proof.
  unfold toggleFileCollapse, add.
  destruct (has s i) eqn:Hi.
  - apply has_In in Hi. rewrite delete_In. split.
    + intros [H1 H2]. auto.
    + intros [[-> H]|[H1 H2]]; [contradiction | auto].
  - apply has_false in Hi. rewrite in_app_iff. simpl. split.
    + intros [H|[H|[]]].
      * right. split; [|exact H]. intros ->. contradiction.
      * left. subst. auto.
    + intros [[-> _]|[_ H]]; auto.
Qed.

Lemma has_eq_iff (s t : IndexSet) (i j : nat) :
  (In i s <-> In j t) -> has s i = has t j.
Proof.
  intros H. destruct (has s i) eqn:H1, (has t j) eqn:H2; auto.
  - apply has_In, H, has_In in H1. congruence.
  - apply has_In, H, has_In in H2. congruence.
Qed.

Lemma collapsible_NoDup (s : IndexSet) : collapsible s -> NoDup s.
Proof.
  induction 1 as [|s i _ IH|s n _ IH].
  - constructor.
  - unfold toggleFileCollapse, add. destruct (has s i) eqn:Hi.
    + now apply NoDup_filter.
    + apply has_false in Hi. apply NoDup_app; auto.
      * repeat constructor. intros [].
      * intros x Hx [<-|[]]. contradiction.
  - unfold collapseAllClick. destruct (Nat.eqb _ _); [constructor|].
    apply seq_NoDup.
Qed.
End CollapseFacts.

Section CollapseSizeFacts.
Import RepoView.

Lemma delete_size (s : IndexSet) (i : nat) :
  NoDup s -> In i s -> S (size (delete s i)) = size s.
Proof.
  unfold size, delete. induction s as [|x s IH]; intros Hnd Hin; [destruct Hin|].
  inversion Hnd as [|? ? Hx Hs]; subst. simpl.
  destruct (Nat.eqb x i) eqn:He; simpl.
  - apply Nat.eqb_eq in He. subst x. f_equal. f_equal.
    apply forallb_filter_id, forallb_forall. intros j Hj.
    apply negb_true_iff, Nat.eqb_neq. intros ->. contradiction.
  - f_equal. apply IH; [exact Hs|].
    destruct Hin as [->|Hin]; [|exact Hin].
    now rewrite Nat.eqb_refl in He.
Qed.

Lemma full_set (s : IndexSet) (n : nat) :
  NoDup s -> (forall i, In i s -> i < n) ->
  (size s = n <-> forall i, i < n -> In i s).
Proof.
  intros Hnd Hrange. unfold size.
  assert (Hincl : incl s (seq 0 n)).
  { intros i Hi. apply in_seq. specialize (Hrange i Hi). lia. }
  split.
  - intros Hsize i Hi.
    apply (NoDup_length_incl Hnd (l' := seq 0 n)); auto.
    + rewrite length_seq. lia.
    + apply in_seq. lia.
  - intros Hall.
    assert (Hincl' : incl (seq 0 n) s).
    { intros i Hi. apply in_seq in Hi. apply Hall. lia. }
    pose proof (NoDup_incl_length Hnd Hincl) as H1.
    pose proof (NoDup_incl_length (seq_NoDup n 0) Hincl') as H2.
    rewrite length_seq in H1, H2. lia.
Qed.
End CollapseSizeFacts.

(** X8.  A click on the collapse mark of file [i] flips exactly that file:
    [i] is collapsed afterwards if and only if it was not before, every
    other file keeps its state, the number of collapsed files goes up or
    down by one, and a second click brings every file back to its state. *)
Theorem toggle_file_collapse_flips_one_file
        (s : RepoView.IndexSet) (i : nat) :
  RepoView.collapsible s ->
  RepoView.has (RepoView.toggleFileCollapse s i) i = negb (RepoView.has s i) /\
  (forall j, j <> i ->
     RepoView.has (RepoView.toggleFileCollapse s i) j = RepoView.has s j) /\
  RepoView.size (RepoView.toggleFileCollapse s i)
  = (if RepoView.has s i then RepoView.size s - 1 else RepoView.size s + 1) /\
  (forall j,
     RepoView.has
       (RepoView.toggleFileCollapse (RepoView.toggleFileCollapse s i) i) j
     = RepoView.has s j).
Proof.
  intros Hc. pose proof (collapsible_NoDup s Hc) as Hnd.
  split; [|split; [|split]].
  - destruct (RepoView.has s i) eqn:Hi; simpl.
    + apply has_false. rewrite toggle_In. apply has_In in Hi. tauto.
    + apply has_In. rewrite toggle_In. apply has_false in Hi. tauto.
  - intros j Hj. apply has_eq_iff. rewrite toggle_In. tauto.
  - unfold RepoView.toggleFileCollapse, RepoView.add.
    destruct (RepoView.has s i) eqn:Hi.
    + apply has_In in Hi. pose proof (delete_size s i Hnd Hi). lia.
    + unfold RepoView.size. now rewrite length_app.
  - intros j. apply has_eq_iff. rewrite !toggle_In.
    destruct (Nat.eq_dec j i) as [->|Hne]; [|tauto].
    destruct (in_dec Nat.eq_dec i s); tauto.
Qed.

Lemma toggle_file_collapse_flips_one_file_witness :
  RepoView.has (RepoView.toggleFileCollapse [2; 0] 0) 0 = false /\
  RepoView.size (RepoView.toggleFileCollapse [2; 0] 0) = 1.
Proof.
  assert (Hc : RepoView.collapsible [2; 0]).
  { apply (RepoView.collapsible_toggle [2] 0).
    apply (RepoView.collapsible_toggle [] 2).
    apply RepoView.collapsible_initial. }
  destruct (toggle_file_collapse_flips_one_file [2; 0] 0 Hc)
    as (H1 & _ & H3 & _).
  split; [exact H1 | exact H3].
Defined.

(** X9.  The button over the file list reads "Expand All" exactly when the
    number of collapsed indices equals the number of files.  When every
    collapsed index belongs to a file of the commit shown, that is exactly
    when every file is collapsed.  A click then collapses every file if
    the button read "Collapse All" and expands every file if it read
    "Expand All". *)
Theorem collapse_all_button_tracks_the_files
        (s : RepoView.IndexSet) (n : nat) :
  RepoView.collapsible s ->
  (forall i, In i s -> i < n) ->
  (RepoView.collapseAllLabel s n = "Expand All"
   <-> forall i, i < n -> RepoView.has s i = true) /\
  (RepoView.collapseAllLabel s n = "Collapse All" ->
   forall i, RepoView.has (RepoView.collapseAllClick s n) i = Nat.ltb i n) /\
  (RepoView.collapseAllLabel s n = "Expand All" ->
   RepoView.collapseAllClick s n = []).
Proof.
  intros Hc Hrange. pose proof (collapsible_NoDup s Hc) as Hnd.
  pose proof (full_set s n Hnd Hrange) as Hfull.
  unfold RepoView.collapseAllLabel, RepoView.collapseAllClick.
  destruct (Nat.eqb (RepoView.size s) n) eqn:He.
  - apply Nat.eqb_eq in He. split; [|split].
    + split; [|reflexivity]. intros _ i Hi. apply has_In.
      now apply (proj1 Hfull He).
    + discriminate.
    + reflexivity.
  - apply Nat.eqb_neq in He. split; [|split].
    + split; [discriminate|]. intros Hall. exfalso. apply He.
      apply Hfull. intros i Hi. apply has_In. now apply Hall.
    + intros _ i. destruct (Nat.ltb i n) eqn:Hi.
      * apply has_In, in_seq. apply Nat.ltb_lt in Hi. lia.
      * apply has_false. rewrite in_seq. apply Nat.ltb_ge in Hi. lia.
    + discriminate.
Qed.

Lemma collapse_all_button_tracks_the_files_witness :
  RepoView.has (RepoView.collapseAllClick [2; 0] 3) 1 = true.
Proof.
  assert (Hc : RepoView.collapsible [2; 0]).
  { apply (RepoView.collapsible_toggle [2] 0).
    apply (RepoView.collapsible_toggle [] 2).
    apply RepoView.collapsible_initial. }
  refine (proj1 (proj2 (collapse_all_button_tracks_the_files [2; 0] 3 Hc _)) _ 1).
  - simpl. intros i [<-|[<-|[]]]; lia.
  - reflexivity.
Defined.

(* ===================================================================== *)
(** ** DiffView: what any match of the header expression captures         *)
(* ===================================================================== *)

Section RegexSoundness.
Import Js Regex.

Lemma star_digit_inv {R} (s : string) (k : string -> option R) (r : R) :
  star Digit s k = Some r ->
  exists ds s', s = ds ++ s' /\ Spec.allDigits ds = true /\ k s' = Some r.
Proof.
  induction s as [|c s IH]; simpl; intros H.
  - exists EmptyString, EmptyString. auto.
  - destruct (isDigit c) eqn:Hc.
    + destruct (star Digit s k) as [r'|] eqn:Hs.
      * inversion H; subst r'.
        destruct (IH eq_refl) as (ds & s' & -> & Hds & Hk).
        exists (String c ds), s'. simpl. rewrite Hc. auto.
      * exists EmptyString, (String c s). auto.
    + exists EmptyString, (String c s). auto.
Qed.

Lemma run_lit_inv (p s : string) (cs : captures) k r :
  run (lit p) s cs k = Some r -> exists s', s = p ++ s' /\ k s' cs = Some r.
Proof.
  revert s. induction p as [|c p IH]; intros s H; simpl in H.
  - exists s. auto.
  - destruct s as [|d s]; [discriminate|].
    destruct (Ascii.eqb d c) eqn:Hd; [|discriminate].
    apply Ascii.eqb_eq in Hd. subst d.
    destruct (IH _ H) as (s' & -> & Hk). exists s'. auto.
Qed.

Lemma run_group_plus_inv (i : nat) (s : string) (cs : captures) k r :
  run (Group i (Plus Digit)) s cs k = Some r ->
  exists ds s', s = ds ++ s' /\ Spec.numeral ds /\
                k s' ((i, ds) :: cs) = Some r.
Proof.
  cbn [run]. destruct s as [|c s]; [discriminate|].
  cbn [accepts]. destruct (isDigit c) eqn:Hc; [|discriminate].
  intros H. apply star_digit_inv in H as (ds & s' & -> & Hds & Hk).
  exists (String c ds), s'. split; [reflexivity|]. split.
  - split; [discriminate | simpl; now rewrite Hc].
  - change (String c (ds ++ s')) with (String c ds ++ s') in Hk.
    now rewrite consumed_app in Hk.
Qed.

Lemma run_opt_chr_inv (c : ascii) (s : string) (cs : captures) k r :
  run (Opt (Atom (Chr c))) s cs k = Some r -> exists s', k s' cs = Some r.
Proof.
  cbn [run]. destruct s as [|d s].
  - intros H. eauto.
  - cbn [accepts]. destruct (Ascii.eqb d c).
    + destruct (k s cs) eqn:Hk; intros H; [inversion H; subst; eauto | eauto].
    + intros H. eauto.
Qed.

Lemma run_star_digit_inv (s : string) (cs : captures) k r :
  run (Star Digit) s cs k = Some r -> exists s', k s' cs = Some r.
Proof.
  cbn [run]. intros H. apply star_digit_inv in H as (ds & s' & _ & _ & Hk).
  eauto.
Qed.

(** Whatever the header expression matches, its two groups are numerals. *)
Lemma hunkRe_captures (s : string) (m : captures) :
  run DiffView.hunkRe s [] (fun _ cs => Some cs) = Some m ->
  exists a b, m = [(2, b); (1, a)] /\ Spec.numeral a /\ Spec.numeral b.
Proof.
  unfold DiffView.hunkRe, seq. cbn [fold_right]. intros H.
  rewrite run_cat in H. apply run_lit_inv in H as (s1 & _ & H).
  rewrite run_cat in H. apply run_group_plus_inv in H as (a & s2 & _ & Ha & H).
  rewrite run_cat in H. apply run_opt_chr_inv in H as (s3 & H).
  rewrite run_cat in H. apply run_star_digit_inv in H as (s4 & H).
  rewrite run_cat in H. apply run_lit_inv in H as (s5 & _ & H).
  rewrite run_cat in H. apply run_group_plus_inv in H as (b & s6 & _ & Hb & H).
  rewrite run_cat in H. apply run_opt_chr_inv in H as (s7 & H).
  rewrite run_cat in H. apply run_star_digit_inv in H as (s8 & H).
  rewrite run_cat in H. apply run_lit_inv in H as (s9 & _ & H).
  cbn [run] in H. inversion H. eauto.
Qed.

Lemma search_inv (r : regex) (s : string) (m : captures) :
  search r s = Some m ->
  exists t, run r t [] (fun _ cs => Some cs) = Some m.
Proof.
  induction s as [|c s IH]; simpl; intros H.
  - destruct (run r EmptyString [] (fun _ cs => Some cs)) eqn:Hr;
      [inversion H; subst; eauto | discriminate].
  - destruct (run r (String c s) [] (fun _ cs => Some cs)) eqn:Hr;
      [inversion H; subst; eauto | auto].
Qed.

Lemma uint_digits (d : Decimal.uint) :
  Spec.allDigits (NilEmpty.string_of_uint d) = true.
Proof. induction d; simpl; auto. Qed.
End RegexSoundness.

(* ===================================================================== *)
(** ** DiffView: invariants of the rendered rows                          *)
(* ===================================================================== *)

Section RowInvariants.
Import Js DiffView.
Variable p : Props.

Definition isNumber (x : num) : Prop :=
  match x with NaN => False | _ => True end.

(** A number cell is empty or shows a counter that is not NaN. *)
Definition numberCell (c : string) : Prop :=
  c = EmptyString \/ exists x, isNumber x /\ c = toString x.

Definition numberCells (r : Row) : Prop :=
  numberCell (oldNum r) /\ numberCell (newNum r).

Lemma nearestDouble_number (n : N) : isNumber (nearestDouble n).
Proof.
  unfold nearestDouble. destruct (n <? maxExact)%N; [exact I|].
  cbv zeta. destruct (_ <=? _)%N; exact I.
Qed.

Lemma incr_number (x : num) : isNumber x -> isNumber (incr x).
Proof.
  destruct x as [|n|]; intros H; [destruct H | apply nearestDouble_number | exact I].
Qed.

Lemma allDigits_app (a b : string) :
  Spec.allDigits (a ++ b) = Spec.allDigits a && Spec.allDigits b.
Proof.
  induction a as [|c a IH]; simpl; [reflexivity|].
  now rewrite IH, andb_assoc.
Qed.

Lemma decimal_digits (n : N) : Spec.allDigits (decimal n) = true.
Proof. apply uint_digits. Qed.

Lemma zeros_digits (j : nat) : Spec.allDigits (zeros j) = true.
Proof. induction j; simpl; auto. Qed.

(** No counter is printed as ["NaN"]. *)
Lemma toString_number (x : num) : isNumber x -> toString x <> "NaN".
Proof.
  destruct x as [|n|]; intros H; [destruct H| |discriminate].
  unfold toString. destruct (n <=? maxExact)%N.
  - intros E. pose proof (decimal_digits n) as Hd. rewrite E in Hd.
    discriminate.
  - destruct (fewestDigits n (String.length (decimal n))) as [s j].
    pose proof (decimal_digits s) as Hd.
    destruct (String.length (decimal s) + j <=? 21)%nat.
    + intros E.
      assert (Ha : Spec.allDigits (decimal s ++ zeros j) = true)
        by now rewrite allDigits_app, Hd, zeros_digits.
      rewrite E in Ha. discriminate.
    + destruct (decimal s) as [|c rest]; [discriminate|].
      simpl in Hd. apply andb_prop in Hd as [Hc _].
      intros E. injection E as Ec _. subst c. discriminate.
Qed.

(** A hunk row has the hunk class and empty number cells. *)
Definition hunkShape (r : Row) : Prop :=
  isHunk r = true ->
  className r = "diff-line diff-hunk" /\
  oldNum r = EmptyString /\ newNum r = EmptyString.

Lemma renderLine_counters (k : nat) (o n : num) (l : string) :
  isNumber o -> isNumber n ->
  isNumber (fst (snd (renderLine p k o n l))) /\
  isNumber (snd (snd (renderLine p k o n l))) /\
  numberCells (fst (renderLine p k o n l)).
Proof.
  intros Ho Hn. unfold renderLine, numberCells, numberCell.
  destruct (isHunkLine l).
  - destruct (Regex.search hunkRe l) as [m|] eqn:Hs.
    + apply search_inv in Hs as (t & Ht).
      apply hunkRe_captures in Ht as (a & b & -> & Ha & Hb).
      cbn [Regex.group Nat.eqb parseGroup].
      rewrite (parseInt_numeral a Ha), (parseInt_numeral b Hb).
      simpl. auto using nearestDouble_number.
    + simpl. auto.
  - destruct (startsWith l "+"); [|destruct (startsWith l "-")];
      simpl; repeat split; auto using incr_number; right; eauto.
Qed.

Lemma renderLine_hunkShape (k : nat) (o n : num) (l : string) :
  hunkShape (fst (renderLine p k o n l))
  /\ content (fst (renderLine p k o n l)) <> EmptyString.
Proof.
  unfold renderLine, hunkShape, orElse.
  destruct (isHunkLine l); [destruct (Regex.search hunkRe l)|];
    repeat match goal with
           | |- context [if startsWith ?a ?b then _ else _] =>
               destruct (startsWith a b)
           end; simpl;
    (split; [intros; try discriminate; auto|]);
    destruct l; simpl; discriminate.
Qed.

Lemma rows_numberCells (ls : list string) : forall k o n,
  isNumber o -> isNumber n -> Forall numberCells (rows p k o n ls).
Proof.
  induction ls as [|l ls IH]; intros k o n Ho Hn; simpl; [constructor|].
  pose proof (renderLine_counters k o n l Ho Hn) as (Ho' & Hn' & Hc).
  destruct (renderLine p k o n l) as [r [o' n']]. simpl in *.
  constructor; auto.
Qed.

Lemma rows_hunkShape (ls : list string) : forall k o n,
  Forall (fun r => hunkShape r /\ content r <> EmptyString) (rows p k o n ls).
Proof.
  induction ls as [|l ls IH]; intros k o n; simpl; [constructor|].
  pose proof (renderLine_hunkShape k o n l) as H.
  destruct (renderLine p k o n l) as [r [o' n']]. simpl in *.
  constructor; auto.
Qed.

Lemma rows_nth_inv (ls : list string) : forall k o n i r,
  nth_error (rows p k o n ls) i = Some r ->
  exists l, nth_error ls i = Some l /\ rowOf p (k + i) l r.
Proof.
  intros k o n i r Hr.
  assert (Hlt : i < List.length ls).
  { rewrite <- (rows_length p ls k o n). apply nth_error_Some. congruence. }
  destruct (nth_error ls i) as [l|] eqn:Hl.
  - destruct (rows_nth p ls k o n i l Hl) as (r' & Hr' & Hrow).
    exists l. split; [reflexivity|]. congruence.
  - apply nth_error_None in Hl. lia.
Qed.
End RowInvariants.

(** X10.  Every rendered row carries its position as key, so keys are
    pairwise different, and shows the line at that position after the
    start index, never an empty content.  A row has buttons only when it
    is a hunk row, actions are shown and the callback is supplied; a hunk
    row has the hunk class and no line numbers. *)
Theorem rendered_rows_are_keyed_by_position
        (p : DiffView.Props) (rs : list DiffView.Row) :
  DiffView.renderDiff p = Some rs ->
  List.length rs
  = List.length (DiffView.lines p) - DiffView.startIdx (DiffView.lines p) /\
  forall i r,
    nth_error rs i = Some r ->
    DiffView.key r = i /\
    DiffView.content r <> EmptyString /\
    (exists l,
        nth_error (DiffView.lines p) (DiffView.startIdx (DiffView.lines p) + i)
        = Some l /\
        DiffView.isHunk r = DiffView.isHunkLine l /\
        DiffView.content r = Js.orElse l " ") /\
    DiffView.discardBtn r
    = DiffView.isHunk r && DiffView.showActions p && DiffView.onDiscard p /\
    DiffView.stageBtn r
    = DiffView.isHunk r && DiffView.showActions p && DiffView.onStage p /\
    (DiffView.isHunk r = true ->
     DiffView.className r = "diff-line diff-hunk" /\
     DiffView.oldNum r = EmptyString /\ DiffView.newNum r = EmptyString).
Proof.
  unfold DiffView.renderDiff.
  destruct (Js.truthy (DiffView.diff p)); [|discriminate].
  intros H. inversion H as [Hrs]. clear H. split.
  - rewrite rows_length. unfold Js.sliceFrom. apply length_skipn.
  - intros i r Hr.
    destruct (rows_nth_inv p _ _ _ _ _ _ Hr) as (l & Hl & Hk & Hh & Hc & Hd & Hs).
    pose proof (rows_hunkShape p
                  (Js.sliceFrom (DiffView.startIdx (DiffView.lines p))
                                (DiffView.lines p)) 0 (Js.Int 0) (Js.Int 0))
      as Hall.
    rewrite Forall_forall in Hall.
    destruct (Hall r (nth_error_In _ _ Hr)) as [Hshape Hne].
    split; [exact Hk|]. split; [exact Hne|]. split.
    + exists l. unfold Js.sliceFrom in Hl. rewrite nth_error_skipn in Hl. auto.
    + rewrite Hh. split; [exact Hd|]. split; [exact Hs|]. rewrite <- Hh.
      exact Hshape.
Qed.

Lemma rendered_rows_are_keyed_by_position_witness :
  List.length (DiffView.rows exampleProps 0 (Js.Int 0) (Js.Int 0)
                 (Js.sliceFrom (DiffView.startIdx (DiffView.lines exampleProps))
                               (DiffView.lines exampleProps)))
  = 7.
Proof.
  exact (proj1 (rendered_rows_are_keyed_by_position exampleProps _ eq_refl)).
Defined.

(** X11.  In every rendered diff no line-number cell reads NaN, whatever
    the header lines look like: a cell is empty or shows a counter that is a
    number (Infinity after a header field of several hundred digits), and
    the text of such a counter is never ["NaN"]. *)
Theorem line_number_cells_are_never_NaN
        (p : DiffView.Props) (rs : list DiffView.Row) :
  DiffView.renderDiff p = Some rs ->
  Forall (fun r =>
            (numberCell (DiffView.oldNum r) /\ DiffView.oldNum r <> "NaN") /\
            (numberCell (DiffView.newNum r) /\ DiffView.newNum r <> "NaN"))
         rs.
Proof.
  unfold DiffView.renderDiff.
  destruct (Js.truthy (DiffView.diff p)); [|discriminate].
  intros H. inversion H as [Hrs].
  eapply Forall_impl; [|apply rows_numberCells; exact I].
  intros r [Ho Hn].
  assert (Hcell : forall c, numberCell c -> c <> "NaN").
  { intros c [->|(x & Hx & ->)]; [discriminate | now apply toString_number]. }
  auto.
Qed.

Lemma line_number_cells_are_never_NaN_witness :
  Forall (fun r =>
            (numberCell (DiffView.oldNum r) /\ DiffView.oldNum r <> "NaN") /\
            (numberCell (DiffView.newNum r) /\ DiffView.newNum r <> "NaN"))
         (DiffView.rows binaryProps 0 (Js.Int 0) (Js.Int 0)
            (Js.sliceFrom (DiffView.startIdx (DiffView.lines binaryProps))
                          (DiffView.lines binaryProps))).
Proof.
  exact (line_number_cells_are_never_NaN binaryProps _ eq_refl).
Defined.

(* ===================================================================== *)
(** ** StageView: what a click can ask of the engine                      *)
(* ===================================================================== *)

Section ClickFacts.
Import Js Engine Async StageView.

Variable localeCompare : string -> string -> Z.
Variable arraySort :
  (FileStatus -> FileStatus -> option Z) ->
  list FileStatus -> option (list FileStatus).

Lemma diffView_props (st : State) (p : DiffView.Props) :
  diffView st = Some p ->
  exists file,
    selectedFile st = Some file /\ truthy file = true /\
    DiffView.diff p = diff st /\
    DiffView.onStage p = true /\ DiffView.showActions p = true /\
    DiffView.onDiscard p = negb (selectedStaged st).
Proof.
  unfold diffView. destruct (selectedFile st) as [file|]; [|discriminate].
  destruct (truthy file) eqn:Ht; [|discriminate].
  intros H. inversion H as [Hp]. exists file. simpl. auto 10.
Qed.

(** A click that is not on a button of a hunk row does nothing; any other
    click runs the handler of its button on the marker line of the row. *)
Lemma click_cases (st : State) (b : Button) (idx : nat) :
  click localeCompare arraySort st b idx = Done \/
  exists p file header text,
    diffView st = Some p /\ selectedFile st = Some file /\
    nth_error (DiffView.lines p) (DiffView.startIdx (DiffView.lines p) + idx)
    = Some header /\
    DiffView.isHunkLine header = true /\
    (b = DiscardButton -> selectedStaged st = false) /\
    click localeCompare arraySort st b idx
    = handler localeCompare arraySort b st (Some header) (Some text).
Proof.
  unfold click.
  destruct (diffView st) as [p|] eqn:Hview; [|now left].
  destruct (diffView_props st p Hview)
    as (file & Hfile & _ & _ & HonS & Hshow & HonD).
  destruct (DiffView.renderDiff p) as [rs|] eqn:Hrs; [|now left].
  destruct (nth_error rs idx) as [row|] eqn:Hrow; [|now left].
  destruct (hasButton row b) eqn:Hbtn; [|now left].
  unfold DiffView.renderDiff in Hrs.
  destruct (truthy (DiffView.diff p)); [|discriminate].
  inversion Hrs as [Hrows]. rewrite <- Hrows in Hrow.
  destruct (rows_nth_inv p _ _ _ _ _ _ Hrow)
    as (l & Hl & _ & Hh & _ & Hd & Hs).
  unfold sliceFrom in Hl. rewrite nth_error_skipn in Hl.
  assert (Hhunk : DiffView.isHunkLine l = true /\
                  (b = DiscardButton -> selectedStaged st = false)).
  { destruct b; simpl in Hbtn.
    - rewrite Hs in Hbtn. apply andb_prop in Hbtn as [Hb _].
      apply andb_prop in Hb as [Hb _]. split; [exact Hb | discriminate].
    - rewrite Hd, HonD in Hbtn. apply andb_prop in Hbtn as [Hb Hst].
      apply andb_prop in Hb as [Hb _]. split; [exact Hb|].
      intros _. now apply negb_true_iff in Hst. }
  destruct Hhunk as [Hhunk Hkind].
  right. exists p, file, l.
  exists (snd (DiffView.hunkArgs (DiffView.lines p)
                 (DiffView.startIdx (DiffView.lines p)) idx)).
  split; [reflexivity|]. split; [exact Hfile|]. split; [exact Hl|].
  split; [exact Hhunk|]. split; [exact Hkind|].
  assert (Hargs : DiffView.hunkArgs (DiffView.lines p)
                    (DiffView.startIdx (DiffView.lines p)) idx
                  = (Some l,
                     snd (DiffView.hunkArgs (DiffView.lines p)
                            (DiffView.startIdx (DiffView.lines p)) idx))).
  { unfold DiffView.hunkArgs. rewrite Hl. reflexivity. }
  destruct b; cbv beta iota delta [handler].
  - unfold DiffView.handleStageHunk. rewrite HonS, Hargs. reflexivity.
  - unfold DiffView.handleDiscardHunk. rewrite HonD.
    rewrite (Hkind eq_refl).
    change (negb false) with true. cbv iota. rewrite Hargs. reflexivity.
Qed.
End ClickFacts.

(** X12.  Whatever button of whatever row is clicked, a patch request
    reaches the engine only from a button on a hunk row, for the selected
    file and the loaded diff, with the marker line of that row as header.
    It is [unstage_hunk] when the staged changes are shown, and otherwise
    [stage_hunk] from the stage button and [discard_hunk] from the discard
    button: the staged view never stages or discards, the unstaged view
    never unstages. *)
Theorem click_asks_only_what_the_view_allows
        (localeCompare : string -> string -> Z)
        (arraySort : (Engine.FileStatus -> Engine.FileStatus -> option Z) ->
                     list Engine.FileStatus -> option (list Engine.FileStatus))
        (st : StageView.State) (b : StageView.Button) (idx : nat)
        (c : Async.Config) (r : Engine.Request) :
  Async.steps (Async.launch (StageView.click localeCompare arraySort st b idx)) c ->
  In r (Async.issued (Async.trace c)) ->
  patchRequest r ->
  exists p file header body,
    StageView.diffView st = Some p /\
    StageView.selectedFile st = Some file /\
    nth_error (DiffView.lines p) (DiffView.startIdx (DiffView.lines p) + idx)
    = Some header /\
    DiffView.isHunkLine header = true /\
    r = (if StageView.selectedStaged st then
           Engine.unstage_hunk (StageView.repoPath st) file (StageView.diff st)
             header body
         else
           match b with
           | StageView.StageButton =>
               Engine.stage_hunk (StageView.repoPath st) file (StageView.diff st)
                 header body
           | StageView.DiscardButton =>
               Engine.discard_hunk (StageView.repoPath st) file
                 (StageView.diff st) header body
           end).
Proof.
  intros Hsteps Hin Hpatch.
  destruct (click_cases localeCompare arraySort st b idx)
    as [Hdone|(p & file & header & text & Hview & Hfile & Hl & Hh & Hkind & Hclick)].
  - rewrite Hdone in Hsteps. apply idle_forever in Hsteps; [|reflexivity].
    subst c. destruct Hin.
  - rewrite Hclick in Hsteps.
    pose proof (handler_requests localeCompare arraySort b st file header text
                  Hfile c r Hsteps Hin Hpatch) as Hr.
    exists p, file, header, text.
    split; [exact Hview|]. split; [exact Hfile|]. split; [exact Hl|].
    split; [exact Hh|]. rewrite Hr.
    destruct b; simpl.
    + unfold StageView.stageRequest. destruct (StageView.selectedStaged st); reflexivity.
    + now rewrite (Hkind eq_refl).
Qed.

Lemma click_asks_only_what_the_view_allows_witness :
  exists p file header body,
    StageView.diffView exampleState = Some p /\
    StageView.selectedFile exampleState = Some file /\
    nth_error (DiffView.lines p) (DiffView.startIdx (DiffView.lines p) + 4)
    = Some header /\
    DiffView.isHunkLine header = true /\
    Engine.discard_hunk "/repo" "f.txt" exampleDiff "@@ -10,2 +10,3 @@" " ten
+eleven"
    = Engine.discard_hunk "/repo" file exampleDiff header body.
Proof.
  apply (click_asks_only_what_the_view_allows byteCompare keepOrder
           exampleState StageView.DiscardButton 4
           (Async.launch
              (StageView.click byteCompare keepOrder exampleState
                 StageView.DiscardButton 4))).
  - apply Async.steps_refl.
  - vm_compute. left. reflexivity.
  - exact I.
Defined.

(* ===================================================================== *)
(** ** StageView: the selection after a status reload                     *)
(* ===================================================================== *)

Section ReloadFacts.
Import Js Engine Async StageView.

Variable localeCompare : string -> string -> Z.
Variable arraySort :
  (FileStatus -> FileStatus -> option Z) ->
  list FileStatus -> option (list FileStatus).

Definition listed (files : list FileStatus) (f : string) (inStaged : bool)
  : Prop :=
  exists x, In x files /\ path x = f /\ staged x = inStaged.

Lemma existsb_path (l : list FileStatus) (f : string) :
  existsb (fun x => String.eqb (path x) f) l = true <->
  exists x, In x l /\ path x = f.
Proof.
  rewrite existsb_exists. split; intros (x & Hin & Hx); exists x; split; auto.
  - now apply String.eqb_eq.
  - now apply String.eqb_eq.
Qed.

Lemma listed_filter (files : list FileStatus) (f : string) (b : bool)
      (shown : list FileStatus) :
  (forall x, In x shown <->
             In x (filter (fun y => Bool.eqb (staged y) b) files)) ->
  existsb (fun x => String.eqb (path x) f) shown = true <-> listed files f b.
Proof.
  intros Hsame. rewrite existsb_path. unfold listed.
  split; intros (x & Hin & Hx).
  - apply Hsame, filter_In in Hin as [Hin Hb].
    exists x. split; [exact Hin|]. split; [exact Hx|].
    now apply Bool.eqb_prop.
  - destruct Hx as [Hx Hb]. exists x. split; [|exact Hx].
    apply Hsame, filter_In. split; [exact Hin|].
    rewrite Hb. apply Bool.eqb_reflx.
Qed.

Lemma filter_staged_eqb (files : list FileStatus) :
  filter staged files = filter (fun y => Bool.eqb (staged y) true) files /\
  filter (fun f => negb (staged f)) files
  = filter (fun y => Bool.eqb (staged y) false) files.
Proof.
  split; apply filter_ext; intros x; destruct (staged x); reflexivity.
Qed.
End ReloadFacts.

Section ReloadCases.
Import Js Engine Async StageView.

(** Both lists are empty exactly when the engine reported no file. *)
Lemma no_files_left (files unstaged stagedL : list FileStatus) :
  (forall x, In x unstaged <->
             In x (filter (fun x => negb (staged x)) files)) ->
  (forall x, In x stagedL <-> In x (filter staged files)) ->
  (List.length unstaged =? 0)%nat && (List.length stagedL =? 0)%nat = true
  <-> files = [].
Proof.
  intros HU HS. split.
  - intros H. apply andb_prop in H as [H1 H2].
    apply Nat.eqb_eq in H1, H2.
    destruct unstaged; [|discriminate]. destruct stagedL; [|discriminate].
    destruct files as [|x files]; [reflexivity|]. exfalso.
    destruct (staged x) eqn:Hx.
    + apply (proj2 (HS x)). apply filter_In. split; [now left | exact Hx].
    + apply (proj2 (HU x)). apply filter_In. split; [now left|].
      now rewrite Hx.
  - intros ->. simpl in HU, HS.
    destruct unstaged as [|x l]; [|destruct (proj1 (HU x) (or_introl eq_refl))].
    destruct stagedL as [|x l]; [|destruct (proj1 (HS x) (or_introl eq_refl))].
    reflexivity.
Qed.
End ReloadCases.

(** What the closure of a [loadStatus] call makes it forget: the file its
    own render had selected, if that file is no longer listed in the view
    of that selection; with no file selected in its render, nothing unless
    no file is left at all. *)
Definition selectionGone (st : StageView.State)
           (files : list Engine.FileStatus) : Prop :=
  match StageView.selectedFile st with
  | Some f =>
      if Js.truthy f then ~ listed files f (StageView.selectedStaged st)
      else files = []
  | None => files = []
  end.

(** X13.  [loadStatus] decides by the selection of the render that created
    it, which it closes over, not by the selection at the time the answer
    arrives.  When [get_status] resolves and the host's sort returns the
    files it was given, the call finishes in that step and, besides
    storing the two lists and at most one log line, it clears the selection
    and the diff exactly in these cases: its render had a file selected
    and no file of that path is left in the list of that view; or its
    render had no file selected and the engine reports no file at all.
    The call that answers [repo-changed] is the one of the render in which
    [repoPath] last changed, at first the first render, where no file is
    selected: it leaves a selection made later in place even when that
    file is gone, as long as some file is left. *)
Theorem status_reload_clears_by_its_own_selection
        (localeCompare : string -> string -> Z)
        (arraySort : (Engine.FileStatus -> Engine.FileStatus -> option Z) ->
                     list Engine.FileStatus -> option (list Engine.FileStatus))
        (st : StageView.State)
        (files unstaged stagedL : list Engine.FileStatus) (c : Async.Config) :
  arraySort (StageView.compareUnstaged localeCompare)
    (filter (fun x => negb (Engine.staged x)) files) = Some unstaged ->
  arraySort (StageView.compareStaged localeCompare)
    (filter Engine.staged files) = Some stagedL ->
  (forall x, In x unstaged <->
             In x (filter (fun x => negb (Engine.staged x)) files)) ->
  (forall x, In x stagedL <-> In x (filter Engine.staged files)) ->
  Async.deliver (Async.launch (StageView.loadStatus localeCompare arraySort st))
                0 0 (Engine.Resolve (Engine.VFiles files)) = Some c ->
  Async.pending c = [] /\
  (In (Engine.setSelectedFile None) (Async.effects (Async.trace c)) <->
   selectionGone st files) /\
  (In (Engine.setDiff EmptyString) (Async.effects (Async.trace c)) <->
   selectionGone st files) /\
  (forall e, In e (Async.effects (Async.trace c)) ->
     e = Engine.setUnstagedFiles unstaged \/
     e = Engine.setStagedFiles stagedL \/
     e = Engine.consoleLog "Check file exists:" \/
     e = Engine.setSelectedFile None \/
     e = Engine.setDiff EmptyString).
Proof.
  intros HsortU HsortS HsameU HsameS Hdel.
  pose proof (no_files_left files unstaged stagedL HsameU HsameS) as Hnone.
  destruct (filter_staged_eqb files) as [HeqS HeqU].
  rewrite HeqU in HsameU. rewrite HeqS in HsameS.
  assert (Hexists : forall f,
            existsb (fun x => String.eqb (Engine.path x) f)
              (if StageView.selectedStaged st then stagedL else unstaged) = true
            <-> listed files f (StageView.selectedStaged st)).
  { intros f. destruct (StageView.selectedStaged st).
    - now apply listed_filter.
    - now apply listed_filter. }
  assert (Hempty : forall f, files = [] ->
                   ~ listed files f (StageView.selectedStaged st)).
  { intros f -> (x & [] & _). }
  unfold Async.launch, StageView.loadStatus in Hdel.
  cbn [Async.start Async.deliver Async.pending nth_error] in Hdel.
  unfold Async.continue in Hdel.
  cbv beta iota in Hdel.
  cbn [Engine.asFiles] in Hdel.
  rewrite HsortU, HsortS in Hdel.
  cbv beta iota zeta in Hdel.
  unfold selectionGone.
  destruct (StageView.selectedFile st) as [f|];
    [destruct (Js.truthy f);
     [destruct (existsb (fun x => String.eqb (Engine.path x) f)
                  (if StageView.selectedStaged st then stagedL else unstaged))
        eqn:Hex|]|];
    destruct ((List.length unstaged =? 0)%nat && (List.length stagedL =? 0)%nat)
      eqn:Hlen;
    cbn in Hdel; inversion Hdel as [Hc]; cbn;
    (split; [reflexivity|]).
  - exfalso. apply (Hempty f (proj1 Hnone eq_refl)). now apply Hexists.
  - assert (Hl : listed files f (StageView.selectedStaged st))
      by now apply Hexists.
    split; [|split].
    + split; [|tauto]. intros [H|[H|[H|[]]]]; discriminate.
    + split; [|tauto]. intros [H|[H|[H|[]]]]; discriminate.
    + intros e [H|[H|[H|[]]]]; subst e; auto.
  - pose proof (Hempty f (proj1 Hnone eq_refl)) as Hn.
    split; [|split].
    + split; [auto|]. intros _. right. right. right. left. reflexivity.
    + split; [auto|]. intros _. do 4 right. left. reflexivity.
    + intros e [H|[H|[H|[H|[H|[H|[H|[]]]]]]]]; subst e; auto 10.
  - assert (Hn : ~ listed files f (StageView.selectedStaged st)).
    { intros Hl. apply Hexists in Hl. congruence. }
    split; [|split].
    + split; [auto|]. intros _. right. right. right. left. reflexivity.
    + split; [auto|]. intros _. do 4 right. left. reflexivity.
    + intros e [H|[H|[H|[H|[H|[]]]]]]; subst e; auto 10.
  - pose proof (proj1 Hnone eq_refl) as Hn.
    split; [|split].
    + split; [auto|]. intros _. right. right. left. reflexivity.
    + split; [auto|]. intros _. right. right. right. left. reflexivity.
    + intros e [H|[H|[H|[H|[]]]]]; subst e; auto 10.
  - assert (Hn : files <> []).
    { intros H. apply Hnone in H. congruence. }
    split; [|split].
    + split; [|tauto]. intros [H|[H|[]]]; discriminate.
    + split; [|tauto]. intros [H|[H|[]]]; discriminate.
    + intros e [H|[H|[]]]; subst e; auto.
  - pose proof (proj1 Hnone eq_refl) as Hn.
    split; [|split].
    + split; [auto|]. intros _. right. right. left. reflexivity.
    + split; [auto|]. intros _. right. right. right. left. reflexivity.
    + intros e [H|[H|[H|[H|[]]]]]; subst e; auto 10.
  - assert (Hn : files <> []).
    { intros H. apply Hnone in H. congruence. }
    split; [|split].
    + split; [|tauto]. intros [H|[H|[]]]; discriminate.
    + split; [|tauto]. intros [H|[H|[]]]; discriminate.
    + intros e [H|[H|[]]]; subst e; auto.
Qed.

Definition otherFile : Engine.FileStatus :=
  {| Engine.path := "g.txt"; Engine.status := "modified";
     Engine.staged := false |}.

(** The state of the first render, which the call registered for
    [repo-changed] closes over: no file selected, no diff. *)
Definition mountState : StageView.State :=
  {| StageView.repoPath := "/repo";
     StageView.selectedFile := None;
     StageView.selectedStaged := false;
     StageView.diff := EmptyString |}.

Lemma status_reload_clears_by_its_own_selection_witness :
  (In (Engine.setSelectedFile None)
      (Async.effects
         (Async.trace
            (Async.continue
               (Async.launch
                  (StageView.loadStatus byteCompare keepOrder exampleState))
               0 [Async.Settled (Engine.get_status "/repo")
                    (Engine.Resolve (Engine.VFiles [otherFile]))]
               (Async.Emit (Engine.setUnstagedFiles [otherFile])
                  (Async.Emit (Engine.setStagedFiles [])
                     (Async.Emit (Engine.consoleLog "Check file exists:")
                        (StageView.clearSelection Async.Done)))))))
   <-> selectionGone exampleState [otherFile])
  /\
  (In (Engine.setSelectedFile None)
      (Async.effects
         (Async.trace
            (Async.continue
               (Async.launch
                  (StageView.loadStatus byteCompare keepOrder mountState))
               0 [Async.Settled (Engine.get_status "/repo")
                    (Engine.Resolve (Engine.VFiles [otherFile]))]
               (Async.Emit (Engine.setUnstagedFiles [otherFile])
                  (Async.Emit (Engine.setStagedFiles []) Async.Done)))))
   <-> selectionGone mountState [otherFile]).
Proof.
  split.
  - apply (status_reload_clears_by_its_own_selection byteCompare keepOrder
             exampleState [otherFile] [otherFile] []).
    + reflexivity.
    + reflexivity.
    + intros x. simpl. tauto.
    + intros x. simpl. tauto.
    + reflexivity.
  - apply (status_reload_clears_by_its_own_selection byteCompare keepOrder
             mountState [otherFile] [otherFile] []).
    + reflexivity.
    + reflexivity.
    + intros x. simpl. tauto.
    + intros x. simpl. tauto.
    + reflexivity.
Defined.

(* ===================================================================== *)
(** ** Functions that call no other asynchronous function                 *)
(* ===================================================================== *)

Section LinearFacts.
Import Engine Async.

Definition isSettled (ev : Event) : Prop :=
  match ev with Settled _ _ => True | _ => False end.

Lemma effects_settled (ss : list Event) :
  Forall isSettled ss -> effects ss = [].
Proof.
  induction 1 as [|[r|r resp|e] ss Hx _ IH]; simpl; auto; destruct Hx.
Qed.

Lemma effects_issuedBy (srcs : list Source) : effects (issuedBy srcs) = [].
Proof.
  induction srcs as [|[r|v] srcs IH]; simpl; auto.
Qed.

Lemma Did_not_settled (ss : list Event) (e : Effect) :
  Forall isSettled ss -> ~ In (Did e) ss.
Proof.
  intros Hss Hin. rewrite Forall_forall in Hss. exact (Hss _ Hin).
Qed.

Lemma Did_not_issuedBy (srcs : list Source) (e : Effect) :
  ~ In (Did e) (issuedBy srcs).
Proof.
  rewrite <- In_effects, effects_issuedBy. intros [].
Qed.

Lemma steps_trans (a b c : Config) : steps a b -> steps b c -> steps a c.
Proof.
  intros Hab Hbc. induction Hbc as [|c1 c2 _ IH Hstep]; [exact Hab|].
  exact (steps_step _ _ _ IH Hstep).
Qed.

Lemma values_or_waiting (slots : list Slot) :
  (exists vs, values slots = Some vs) \/
  (exists j r, nth_error slots j = Some (Waiting r)).
Proof.
  induction slots as [|[r|v] slots IH].
  - left. now exists [].
  - right. now exists 0, r.
  - destruct IH as [[vs Hvs]|(j & r & Hj)].
    + left. exists (v :: vs). simpl. now rewrite Hvs.
    + right. now exists (S j), r.
Qed.

(** [lin Q h a]: the function body [a], run after the events [h] and with
    nothing else suspended, satisfies [Q t false] at every [await] and
    [Q t true] when it returns, [t] being the events so far.  The members
    of a [Promise.all] may settle in any order. *)
Variable Q : list Event -> bool -> Prop.

Inductive lin : list Event -> Act -> Prop :=
| lin_Done h : Q h true -> lin h Done
| lin_Emit h e k : lin (h ++ [Did e]) k -> lin h (Emit e k)
| lin_Await h r k :
    Q (h ++ [Issued r]) false ->
    (forall resp, lin ((h ++ [Issued r]) ++ [Settled r resp]) (k resp)) ->
    lin h (Await r k)
| lin_AwaitAll h srcs k :
    (forall ss, Forall isSettled ss -> Q ((h ++ issuedBy srcs) ++ ss) false) ->
    (forall ss o, Forall isSettled ss ->
                  lin ((h ++ issuedBy srcs) ++ ss) (k o)) ->
    lin h (AwaitAll srcs k).

Definition linInv (c : Config) : Prop :=
  (pending c = [] /\ Q (trace c) true) \/
  (exists r k,
      pending c = [OnOne r k] /\ Q (trace c) false /\
      forall resp, lin (trace c ++ [Settled r resp]) (k resp)) \/
  (exists slots k base ss,
      pending c = [OnAll slots k] /\ trace c = (base ++ ss)%list /\
      Forall isSettled ss /\
      (forall ss', Forall isSettled ss' -> Q (base ++ ss') false) /\
      (forall ss' o, Forall isSettled ss' -> lin (base ++ ss') (k o))).

Lemma start_linInv (h : list Event) (a : Act) :
  lin h a ->
  linInv {| trace := (h ++ fst (start a))%list; pending := snd (start a) |}.
Proof.
  induction 1 as [h HQ|h e k _ IH|h r k HQ Hk _|h srcs k HQ Hk _].
  - left. simpl. rewrite app_nil_r. auto.
  - simpl. destruct (start k) as [t ps]. simpl in *.
    rewrite <- app_assoc in IH. exact IH.
  - right. left. exists r, k. simpl. auto.
  - right. right. exists (map slotOf srcs), k, (h ++ issuedBy srcs)%list, [].
    simpl. rewrite app_nil_r. auto.
Qed.

Lemma continue_linInv (c : Config) (pd : Pending) (ev : list Event) (a : Act) :
  pending c = [pd] -> lin (trace c ++ ev) a -> linInv (continue c 0 ev a).
Proof.
  intros Hp Hlin. apply start_linInv in Hlin.
  unfold continue. rewrite Hp. destruct (start a) as [t ps]. simpl in *.
  rewrite <- app_assoc in Hlin. exact Hlin.
Qed.

Lemma step_linInv (c c' : Config) : linInv c -> step c c' -> linInv c'.
Proof.
  intros [[Hp _]|[(r & k & Hp & _ & Hk)|(slots & k & base & ss & Hp & Ht & Hss & HQ & Hk)]]
         Hstep.
  - now apply idle_stuck in Hstep.
  - destruct Hstep as [i j resp H|i H]; unfold deliver, resume in H;
      rewrite Hp in H; destruct i as [|[|i]]; simpl in H; try discriminate.
    injection H as <-.
    apply continue_linInv with (pd := OnOne r k); [exact Hp|]. apply Hk.
  - destruct Hstep as [i j resp H|i H]; unfold deliver, resume in H;
      rewrite Hp in H; destruct i as [|[|i]]; simpl in H; try discriminate.
    + destruct (nth_error slots j) as [[r'|v']|] eqn:Hj; try discriminate.
      destruct resp as [v|err]; injection H as <-.
      * right. right.
        exists (setAt j (Have v) slots), k, base,
               (ss ++ [Settled r' (Resolve v)])%list.
        simpl. split; [reflexivity|]. rewrite Ht, <- app_assoc.
        split; [reflexivity|]. split; [|auto].
        apply Forall_app. split; [exact Hss|]. repeat constructor.
      * apply continue_linInv with (pd := OnAll slots k); [exact Hp|].
        rewrite Ht, <- app_assoc. apply Hk.
        apply Forall_app. split; [exact Hss|]. repeat constructor.
    + destruct (values slots) as [vs|]; [|discriminate].
      injection H as <-.
      apply continue_linInv with (pd := OnAll slots k); [exact Hp|].
      rewrite app_nil_r, Ht. now apply Hk.
Qed.

Lemma steps_linInv (a : Act) (c : Config) :
  lin [] a -> steps (launch a) c -> linInv c.
Proof.
  intros Hlin. apply steps_invariant; [|exact step_linInv].
  apply start_linInv in Hlin. unfold launch.
  destruct (start a) as [t ps]. exact Hlin.
Qed.

(** What the invariant says of the events of a configuration. *)
Lemma linInv_finished (c : Config) :
  linInv c -> pending c = [] -> Q (trace c) true.
Proof.
  intros [[_ HQ]|[(r & k & Hp & _)|(slots & k & base & ss & Hp & _)]] Hnil;
    [exact HQ | rewrite Hp in Hnil; discriminate
     | rewrite Hp in Hnil; discriminate].
Qed.

Lemma linInv_waiting (c : Config) :
  linInv c -> pending c <> [] -> Q (trace c) false.
Proof.
  intros [[Hp _]|[(r & k & _ & HQ & _)|(slots & k & base & ss & _ & Ht & Hss & HQ & _)]]
         Hne.
  - contradiction.
  - exact HQ.
  - rewrite Ht. now apply HQ.
Qed.

(** Every such body can run to its end: reject what it waits for. *)
Lemma lin_finishes (h : list Event) (a : Act) :
  lin h a ->
  forall tr, exists c',
    steps {| trace := tr; pending := snd (start a) |} c' /\ pending c' = [].
Proof.
  induction 1 as [h HQ|h e k _ IH|h r k HQ _ IH|h srcs k HQ _ IH]; intros tr.
  - eexists. split; [apply steps_refl | reflexivity].
  - simpl. destruct (start k) as [t ps]. exact (IH tr).
  - simpl.
    destruct (IH (Reject EmptyString)
                 (tr ++ [Settled r (Reject EmptyString)]
                     ++ fst (start (k (Reject EmptyString))))%list)
      as (c' & Hsteps & Hnil).
    exists c'. split; [|exact Hnil].
    eapply steps_trans; [|exact Hsteps].
    eapply steps_step; [apply steps_refl|].
    apply step_deliver with (i := 0) (j := 0) (resp := Reject EmptyString).
    unfold deliver, continue. simpl.
    destruct (start (k (Reject EmptyString))) as [t ps]. reflexivity.
  - simpl. destruct (values_or_waiting (map slotOf srcs))
      as [[vs Hvs]|(j & r & Hj)].
    + destruct (IH [] (Fulfilled vs) (Forall_nil _)
                   (tr ++ [] ++ fst (start (k (Fulfilled vs))))%list)
        as (c' & Hsteps & Hnil).
      exists c'. split; [|exact Hnil].
      eapply steps_trans; [|exact Hsteps].
      eapply steps_step; [apply steps_refl|].
      apply step_resume with (i := 0).
      unfold resume, continue. simpl. rewrite Hvs.
      destruct (start (k (Fulfilled vs))) as [t ps]. reflexivity.
    + destruct (IH [] (Rejected EmptyString) (Forall_nil _)
                   (tr ++ [Settled r (Reject EmptyString)]
                       ++ fst (start (k (Rejected EmptyString))))%list)
        as (c' & Hsteps & Hnil).
      exists c'. split; [|exact Hnil].
      eapply steps_trans; [|exact Hsteps].
      eapply steps_step; [apply steps_refl|].
      apply step_deliver with (i := 0) (j := j) (resp := Reject EmptyString).
      unfold deliver, continue. simpl. rewrite Hj.
      destruct (start (k (Rejected EmptyString))) as [t ps]. reflexivity.
Qed.

Lemma linInv_finishes (c : Config) :
  linInv c -> exists c', steps c c' /\ pending c' = [].
Proof.
  intros [[Hp _]|[(r & k & Hp & _ & Hk)|(slots & k & base & ss & Hp & Ht & Hss & _ & Hk)]].
  - exists c. split; [apply steps_refl | exact Hp].
  - destruct (lin_finishes _ _ (Hk (Reject EmptyString))
                (trace c ++ [Settled r (Reject EmptyString)]
                    ++ fst (start (k (Reject EmptyString))))%list)
      as (c' & Hsteps & Hnil).
    exists c'. split; [|exact Hnil].
    eapply steps_trans; [|exact Hsteps].
    eapply steps_step; [apply steps_refl|].
    apply step_deliver with (i := 0) (j := 0) (resp := Reject EmptyString).
    unfold deliver, continue. rewrite Hp. simpl.
    destruct (start (k (Reject EmptyString))) as [t ps]. reflexivity.
  - destruct (values_or_waiting slots) as [[vs Hvs]|(j & r & Hj)].
    + destruct (lin_finishes _ _ (Hk ss (Fulfilled vs) Hss)
                  (trace c ++ [] ++ fst (start (k (Fulfilled vs))))%list)
        as (c' & Hsteps & Hnil).
      exists c'. split; [|exact Hnil].
      eapply steps_trans; [|exact Hsteps].
      eapply steps_step; [apply steps_refl|].
      apply step_resume with (i := 0).
      unfold resume, continue. rewrite Hp. simpl. rewrite Hvs.
      destruct (start (k (Fulfilled vs))) as [t ps]. reflexivity.
    + destruct (lin_finishes _ _ (Hk ss (Rejected EmptyString) Hss)
                  (trace c ++ [Settled r (Reject EmptyString)]
                      ++ fst (start (k (Rejected EmptyString))))%list)
        as (c' & Hsteps & Hnil).
      exists c'. split; [|exact Hnil].
      eapply steps_trans; [|exact Hsteps].
      eapply steps_step; [apply steps_refl|].
      apply step_deliver with (i := 0) (j := j) (resp := Reject EmptyString).
      unfold deliver, continue. rewrite Hp. simpl. rewrite Hj.
      destruct (start (k (Rejected EmptyString))) as [t ps]. reflexivity.
Qed.
End LinearFacts.

(* ===================================================================== *)
(** ** CommitHistory: the loading flag and the selected commit            *)
(* ===================================================================== *)

Section LoadFacts.
Import Js Engine Async CommitHistory.

Definition notLoading (e : Effect) : Prop :=
  match e with setLoading _ => False | _ => True end.

(** The loading flag along [loadAllCommits]: switched on first, never
    touched while the function waits, switched off last. *)
Definition loadingBracket (t : list Event) (finished : bool) : Prop :=
  match effects t with
  | e :: es =>
      e = setLoading true /\
      if finished then
        last es (setLoading true) = setLoading false /\
        Forall notLoading (removelast es)
      else Forall notLoading es
  | [] => False
  end.

Ltac bracket :=
  unfold loadingBracket;
  repeat rewrite effects_app; rewrite effects_issuedBy;
  repeat match goal with
         | H : Forall isSettled ?ss |- _ => rewrite (effects_settled ss H)
         end;
  simpl; repeat split; repeat constructor.

Lemma loadAllCommits_bracket (p : Props) :
  lin loadingBracket [] (loadAllCommits p).
Proof.
  unfold loadAllCommits, select. apply lin_Emit. apply lin_AwaitAll.
  - intros ss Hss. bracket.
  - intros ss [vs|err] Hss.
    + destruct vs as [|allV [|localV [|currentV [|extra vs]]]];
        try (apply lin_Emit, lin_Emit, lin_Done; bracket).
      apply lin_Emit.
      destruct (asCommits allV) as [|first rest];
        [apply lin_Emit, lin_Done; bracket|].
      destruct (currentBranch p) as [branch|];
        [|apply lin_Emit, lin_Done; bracket].
      destruct (truthy branch); [|apply lin_Emit, lin_Done; bracket].
      apply lin_Await; [bracket|].
      intros [v|err]; repeat apply lin_Emit; apply lin_Done; bracket.
    + apply lin_Emit, lin_Emit, lin_Done; bracket.
Qed.

Lemma bracket_finished (t : list Event) :
  loadingBracket t true ->
  exists es, effects t = (setLoading true :: es ++ [setLoading false])%list /\
             Forall notLoading es.
Proof.
  unfold loadingBracket. destruct (effects t) as [|e es]; [intros []|].
  intros (He & Hlast & Hnot). subst e.
  destruct es as [|e es]; [discriminate|].
  exists (removelast (e :: es)). split; [|exact Hnot].
  rewrite <- Hlast. f_equal. apply app_removelast_last. discriminate.
Qed.

Lemma bracket_waiting (t : list Event) :
  loadingBracket t false ->
  exists es, effects t = setLoading true :: es /\ Forall notLoading es.
Proof.
  unfold loadingBracket. destruct (effects t) as [|e es]; [intros []|].
  intros (He & Hnot). subst e. now exists es.
Qed.

(** The commit [loadAllCommits] selects once the head of the current
    branch is known: the commit of that id if it is in the list, else the
    first of the list. *)
Definition headChoice (allList : list GitCommit) (resp : Response)
  : option GitCommit :=
  match resp with
  | Resolve v =>
      match find (fun c => String.eqb (id c) (asString v)) allList with
      | Some headCommit => Some headCommit
      | None => hd_error allList
      end
  | Reject _ => hd_error allList
  end.

Lemma headChoice_In (allList : list GitCommit) (resp : Response)
      (c : GitCommit) :
  headChoice allList resp = Some c -> In c allList.
Proof.
  assert (Hhd : hd_error allList = Some c -> In c allList).
  { destruct allList; [discriminate|]. intros H. injection H as <-. now left. }
  destruct resp as [v|e]; simpl; [|exact Hhd].
  destruct (find _ allList) as [h|] eqn:Hfind; [|exact Hhd].
  intros H. injection H as <-. now apply find_some in Hfind.
Qed.

Definition selectionRule (p : Props) (t : list Event) (finished : bool)
  : Prop :=
  forall commit, In (Did (setSelectedCommit commit)) t ->
    exists allList localList currentList branch resp,
      In (Did (setCommits allList localList currentList)) t /\
      currentBranch p = Some branch /\
      In (Settled (get_branch_head (repoPath p) branch) resp) t /\
      headChoice allList resp = Some commit /\
      In (Did (onCommitSelect commit)) t.

Ltac no_selection :=
  let commit := fresh "commit" in
  let Hin := fresh "Hin" in
  intros commit Hin; exfalso;
  repeat rewrite in_app_iff in Hin; cbn [In] in Hin;
  repeat match goal with
         | H : _ \/ _ |- _ => destruct H
         | H : False |- _ => destruct H
         | H : _ = Did _ |- _ => discriminate H
         | H : In (Did _) (issuedBy _) |- _ =>
             exact (Did_not_issuedBy _ _ H)
         | Hs : Forall isSettled ?ss, H : In (Did _) ?ss |- _ =>
             exact (Did_not_settled _ _ Hs H)
         end.

Ltac only_selection :=
  let other := fresh "other" in
  let Hin := fresh "Hin" in
  intros other Hin;
  repeat rewrite in_app_iff in Hin; cbn [In] in Hin;
  repeat match goal with
         | H : _ \/ _ |- _ => destruct H
         | H : False |- _ => destruct H
         | H : Did _ = Did _ |- _ =>
             first [discriminate H | injection H as <-]
         | H : Settled _ _ = Did _ |- _ => discriminate H
         | H : Issued _ = Did _ |- _ => discriminate H
         | H : In (Did _) (issuedBy _) |- _ =>
             exfalso; exact (Did_not_issuedBy _ _ H)
         | Hs : Forall isSettled ?ss, H : In (Did _) ?ss |- _ =>
             exfalso; exact (Did_not_settled _ _ Hs H)
         end; reflexivity.

Ltac found := repeat rewrite in_app_iff; cbn [In]; auto 20.

Lemma selection_ok (p : Props) (t : list Event)
      (allList localList currentList : list GitCommit)
      (branch : string) (resp : Response) (commit : GitCommit) :
  currentBranch p = Some branch ->
  headChoice allList resp = Some commit ->
  In (Did (setCommits allList localList currentList)) t ->
  In (Settled (get_branch_head (repoPath p) branch) resp) t ->
  In (Did (onCommitSelect commit)) t ->
  (forall x, In (Did (setSelectedCommit x)) t -> x = commit) ->
  selectionRule p t true.
Proof.
  intros Hb Hc Hset Hresp Hon Honly other Hin.
  rewrite (Honly other Hin).
  exists allList, localList, currentList, branch, resp. auto.
Qed.

Lemma loadAllCommits_selection (p : Props) :
  lin (selectionRule p) [] (loadAllCommits p).
Proof.
  unfold loadAllCommits, select. apply lin_Emit. apply lin_AwaitAll.
  - intros ss Hss. no_selection.
  - intros ss [vs|err] Hss.
    + destruct vs as [|allV [|localV [|currentV [|extra vs]]]];
        try (apply lin_Emit, lin_Emit, lin_Done; no_selection).
      apply lin_Emit.
      destruct (asCommits allV) as [|first rest];
        [apply lin_Emit, lin_Done; no_selection|].
      destruct (currentBranch p) as [branch|] eqn:Hbranch;
        [|apply lin_Emit, lin_Done; no_selection].
      destruct (truthy branch); [|apply lin_Emit, lin_Done; no_selection].
      apply lin_Await; [no_selection|].
      intros [v|err]; repeat apply lin_Emit; apply lin_Done.
      * eapply (selection_ok p _ (first :: rest) (asCommits localV)
                  (asCommits currentV) branch (Resolve v));
          [exact Hbranch | | found | found | found | only_selection].
        cbn [headChoice hd_error].
        destruct (find _ (first :: rest)); reflexivity.
      * eapply (selection_ok p _ (first :: rest) (asCommits localV)
                  (asCommits currentV) branch (Reject err));
          [exact Hbranch | reflexivity | found | found | found
           | only_selection].
    + apply lin_Emit, lin_Emit, lin_Done; no_selection.
Qed.
End LoadFacts.

(** A schedule: which promise settles next, and how. *)
Inductive Move : Type :=
| Settle (i j : nat) (resp : Engine.Response)
| Resume (i : nat).

Definition move (c : Async.Config) (m : Move) : option Async.Config :=
  match m with
  | Settle i j resp => Async.deliver c i j resp
  | Resume i => Async.resume c i
  end.

Fixpoint play (c : Async.Config) (ms : list Move) : option Async.Config :=
  match ms with
  | [] => Some c
  | m :: ms' =>
      match move c m with
      | Some c' => play c' ms'
      | None => None
      end
  end.

Lemma play_steps (ms : list Move) : forall c c',
  play c ms = Some c' -> Async.steps c c'.
Proof.
  induction ms as [|m ms IH]; intros c c' H; simpl in H.
  - injection H as <-. apply Async.steps_refl.
  - destruct (move c m) as [c1|] eqn:Hm; [|discriminate].
    apply steps_trans with (b := c1); [|now apply IH].
    eapply Async.steps_step; [apply Async.steps_refl|].
    destruct m as [i j resp|i]; simpl in Hm.
    + now apply Async.step_deliver with (i := i) (j := j) (resp := resp).
    + now apply Async.step_resume with (i := i).
Qed.

Definition commitOf (sha : string) : Engine.GitCommit :=
  {| Engine.id := sha; Engine.message := "subject"; Engine.author := "a";
     Engine.email := "a@b"; Engine.timestamp := "0"; Engine.parents := [];
     Engine.branches := None; Engine.tags := None; Engine.lane := 0%Z;
     Engine.lines := [] |}.

(** The three lists arrive, then the head of [main], which is the second
    commit of the list. *)
Definition headSchedule : list Move :=
  [Settle 0 1 (Engine.Resolve (Engine.VCommits [commitOf "b2"]));
   Settle 0 0 (Engine.Resolve
                 (Engine.VCommits [commitOf "a1"; commitOf "b2"]));
   Settle 0 2 (Engine.Resolve (Engine.VCommits [commitOf "b2"]));
   Resume 0;
   Settle 0 0 (Engine.Resolve (Engine.VString "b2"))].

Definition afterHead : Async.Config :=
  match play (Async.launch (CommitHistory.loadAllCommits exampleHistory))
             headSchedule with
  | Some c => c
  | None => Async.launch Async.Done
  end.

(** X14.  [loadAllCommits] brackets its work with the loading flag: in
    every execution the first effect switches it on; while the function
    waits for the engine nothing touches it; once the function has
    returned, whatever failed or succeeded, the last effect switches it
    off and nothing in between touches it.  And from every state of an
    execution the function can still run to its end. *)
Theorem loading_flag_brackets_the_load
        (p : CommitHistory.Props) (c : Async.Config) :
  Async.steps (Async.launch (CommitHistory.loadAllCommits p)) c ->
  (Async.pending c = [] ->
   exists es,
     Async.effects (Async.trace c)
     = (Engine.setLoading true :: es ++ [Engine.setLoading false])%list /\
     Forall notLoading es) /\
  (Async.pending c <> [] ->
   exists es,
     Async.effects (Async.trace c) = Engine.setLoading true :: es /\
     Forall notLoading es) /\
  (exists c', Async.steps c c' /\ Async.pending c' = []).
Proof.
  intros Hsteps.
  pose proof (steps_linInv loadingBracket _ c
                (loadAllCommits_bracket p) Hsteps) as Hinv.
  split; [|split].
  - intros Hnil. apply bracket_finished.
    now apply (linInv_finished loadingBracket).
  - intros Hne. apply bracket_waiting.
    now apply (linInv_waiting loadingBracket).
  - now apply (linInv_finishes loadingBracket).
Qed.

Lemma loading_flag_brackets_the_load_witness :
  (Async.pending afterHead = [] ->
   exists es,
     Async.effects (Async.trace afterHead)
     = (Engine.setLoading true :: es ++ [Engine.setLoading false])%list /\
     Forall notLoading es) /\
  (Async.pending afterHead <> [] ->
   exists es,
     Async.effects (Async.trace afterHead) = Engine.setLoading true :: es /\
     Forall notLoading es) /\
  (exists c', Async.steps afterHead c' /\ Async.pending c' = []).
Proof.
  apply (loading_flag_brackets_the_load exampleHistory afterHead).
  apply (play_steps headSchedule). reflexivity.
Defined.

(** X15.  Whenever [loadAllCommits] selects a commit, the list of all
    commits has been stored, there is a current branch whose head was
    asked for, and the commit selected is the one that answer picks: the
    commit with the id the engine returned if the list has it, the first
    commit of the list if it has not or if the request failed.  The commit
    is therefore always one of the list, and the parent is told of the
    same commit. *)
Theorem selected_commit_follows_the_branch_head
        (p : CommitHistory.Props) (c : Async.Config)
        (commit : Engine.GitCommit) :
  Async.steps (Async.launch (CommitHistory.loadAllCommits p)) c ->
  In (Engine.setSelectedCommit commit) (Async.effects (Async.trace c)) ->
  exists allList localList currentList branch resp,
    In (Engine.setCommits allList localList currentList)
       (Async.effects (Async.trace c)) /\
    CommitHistory.currentBranch p = Some branch /\
    In (Async.Settled
          (Engine.get_branch_head (CommitHistory.repoPath p) branch) resp)
       (Async.trace c) /\
    headChoice allList resp = Some commit /\
    In commit allList /\
    In (Engine.onCommitSelect commit) (Async.effects (Async.trace c)).
Proof.
  intros Hsteps Hin.
  pose proof (steps_linInv (selectionRule p) _ c
                (loadAllCommits_selection p) Hsteps) as Hinv.
  assert (Hrule : exists b, selectionRule p (Async.trace c) b).
  { destruct (Async.pending c) as [|pd ps] eqn:Hp.
    - exists true. now apply (linInv_finished (selectionRule p)).
    - exists false. apply (linInv_waiting (selectionRule p)); [exact Hinv|].
      rewrite Hp. discriminate. }
  destruct Hrule as [b Hrule].
  apply In_effects in Hin.
  destruct (Hrule commit Hin)
    as (allList & localList & currentList & branch & resp
        & Hset & Hb & Hresp & Hchoice & Hon).
  exists allList, localList, currentList, branch, resp.
  repeat rewrite In_effects.
  split; [exact Hset|]. split; [exact Hb|]. split; [exact Hresp|].
  split; [exact Hchoice|]. split; [|exact Hon].
  exact (headChoice_In _ _ _ Hchoice).
Qed.

Lemma selected_commit_follows_the_branch_head_witness :
  exists allList localList currentList branch resp,
    In (Engine.setCommits allList localList currentList)
       (Async.effects (Async.trace afterHead)) /\
    CommitHistory.currentBranch exampleHistory = Some branch /\
    In (Async.Settled
          (Engine.get_branch_head (CommitHistory.repoPath exampleHistory)
             branch) resp)
       (Async.trace afterHead) /\
    headChoice allList resp = Some (commitOf "b2") /\
    In (commitOf "b2") allList /\
    In (Engine.onCommitSelect (commitOf "b2"))
       (Async.effects (Async.trace afterHead)).
Proof.
  apply (selected_commit_follows_the_branch_head exampleHistory afterHead
           (commitOf "b2")).
  - apply (play_steps headSchedule). reflexivity.
  - vm_compute. auto 10.
Defined.

(* ===================================================================== *)
(** ** Launcher: the directory of a clone                                 *)
(* ===================================================================== *)

Section CloneFacts.
Import Js Clone.

Lemma hasChar_app (c : ascii) (a b : string) :
  hasChar c (a ++ b) = hasChar c a || hasChar c b.
Proof.
  induction a as [|x a IH]; simpl; [reflexivity|].
  now rewrite IH, orb_assoc.
Qed.

Lemma hasChar_dropChars (c : ascii) (s : string) : forall n,
  hasChar c s = false -> hasChar c (dropChars n s) = false.
Proof.
  induction s as [|x s IH]; intros [|n] H; simpl; auto.
  simpl in H. apply orb_false_iff in H as [_ H]. now apply IH.
Qed.

Lemma hasChar_replaceFirst (c : ascii) (pat s : string) :
  hasChar c s = false ->
  hasChar c (replaceFirst pat EmptyString s) = false.
Proof.
  induction s as [|x s IH]; intros H.
  - simpl. destruct pat; reflexivity.
  - cbn [replaceFirst]. destruct (String.prefix pat (String x s)).
    + now apply hasChar_dropChars.
    + simpl in *. apply orb_false_iff in H as [Hx Hs].
      now rewrite Hx, (IH Hs).
Qed.

Lemma prefix_cons (a c : ascii) (pat s : string) :
  String.prefix (String a pat) (String c s)
  = if Ascii.eqb c a then String.prefix pat s else false.
Proof.
  change (String.prefix (String a pat) (String c s))
    with (if ascii_dec a c then String.prefix pat s else false).
  destruct (ascii_dec a c) as [->|Hne].
  - now rewrite Ascii.eqb_refl.
  - destruct (Ascii.eqb c a) eqn:E; [|reflexivity].
    apply Ascii.eqb_eq in E. congruence.
Qed.

Lemma prefix_nil (s : string) : String.prefix EmptyString s = true.
Proof. destruct s; reflexivity. Qed.

Lemma replaceFirst_git_here (b : string) :
  replaceFirst ".git" EmptyString (".git" ++ b) = b.
Proof.
  change (".git" ++ b) with (String "." (String "g" (String "i" (String "t" b)))).
  cbn [replaceFirst]. rewrite !prefix_cons, !Ascii.eqb_refl, prefix_nil.
  reflexivity.
Qed.

Lemma prefix_dot (pat s : string) :
  hasChar "." s = false -> String.prefix (String "." pat) s = false.
Proof.
  destruct s as [|x s]; [reflexivity|]. intros H. simpl in H.
  apply orb_false_iff in H as [Hx _]. now rewrite prefix_cons, Hx.
Qed.

Lemma replaceFirst_git_after (a b : string) :
  hasChar "." a = false ->
  replaceFirst ".git" EmptyString (a ++ ".git" ++ b) = a ++ b.
Proof.
  induction a as [|x a IH]; intros H; [apply replaceFirst_git_here|].
  simpl in H. apply orb_false_iff in H as [Hx Ha].
  change ((String x a) ++ ".git" ++ b) with (String x (a ++ ".git" ++ b)).
  cbn [replaceFirst]. rewrite prefix_cons, Hx, (IH Ha). reflexivity.
Qed.

Lemma replaceFirst_git_none (w : string) :
  hasChar "." w = false -> replaceFirst ".git" EmptyString w = w.
Proof.
  induction w as [|x w IH]; intros H; [reflexivity|].
  cbn [replaceFirst]. rewrite (prefix_dot _ _ H).
  simpl in H. apply orb_false_iff in H as [_ Hw]. now rewrite (IH Hw).
Qed.

Lemma split_before_last (sep : ascii) (w : string) : forall base,
  exists init, init <> [] /\
    split sep (base ++ String sep w) = (init ++ split sep w)%list.
Proof.
  induction base as [|c base (init & Hne & IH)]; simpl.
  - rewrite Ascii.eqb_refl. exists [EmptyString].
    split; [discriminate | reflexivity].
  - destruct (Ascii.eqb c sep).
    + exists (EmptyString :: init). rewrite IH.
      split; [discriminate | reflexivity].
    + rewrite IH. destruct init as [|i0 init]; [congruence|].
      exists (String c i0 :: init). split; [discriminate | reflexivity].
Qed.

Lemma last_segment (sep : ascii) (base w : string) :
  hasChar sep w = false ->
  List.last (split sep (base ++ String sep w)) EmptyString = w.
Proof.
  intros H. destruct (split_before_last sep w base) as (init & _ & Hs).
  rewrite Hs, (split_word sep w H). apply last_last.
Qed.

Lemma orElse_repo (w : string) :
  truthy (orElse w "repo") = true /\
  (hasChar "/" w = false -> hasChar "/" (orElse w "repo") = false).
Proof.
  unfold orElse. destruct (truthy w) eqn:Ht; [now split | split; reflexivity].
Qed.

Lemma last_split_clean (sep : ascii) (s : string) :
  hasChar sep (List.last (split sep s) EmptyString) = false.
Proof.
  pose proof (split_words sep s) as Hw.
  destruct (exists_last (split_nonempty sep s)) as (init & w & Hs).
  rewrite Hs in *. rewrite last_last.
  apply Forall_app in Hw as [_ Hw]. now inversion Hw.
Qed.
End CloneFacts.

(** X16.  The directory a repository is cloned into is the chosen folder,
    a slash, and one more path segment taken from the URL: that segment is
    never empty and holds no slash, whatever the URL, and it is the name
    under which the clone is recorded among the recent repositories.  The
    segment is not always the name of a new folder: a URL that ends in
    [/..git] or [/.] gives the segment [.], the chosen folder itself, and
    a URL that ends in [/..] gives [..], its parent. *)
Theorem clone_target_adds_one_path_segment (clonePath cloneUrl : string) :
  Clone.fullPath clonePath cloneUrl
  = clonePath ++ "/" ++ Clone.repoName cloneUrl /\
  Js.truthy (Clone.repoName cloneUrl) = true /\
  hasChar "/" (Clone.repoName cloneUrl) = false /\
  Launcher.repoName (Clone.fullPath clonePath cloneUrl)
  = Clone.repoName cloneUrl /\
  (forall base,
     Clone.fullPath clonePath (base ++ "/..git") = clonePath ++ "/." /\
     Clone.fullPath clonePath (base ++ "/.") = clonePath ++ "/." /\
     Clone.fullPath clonePath (base ++ "/..") = clonePath ++ "/..").
Proof.
  assert (Hclean : hasChar "/" (Clone.repoName cloneUrl) = false).
  { unfold Clone.repoName. apply orElse_repo.
    apply hasChar_replaceFirst, last_split_clean. }
  assert (Htruthy : Js.truthy (Clone.repoName cloneUrl) = true).
  { unfold Clone.repoName. apply orElse_repo. }
  split; [reflexivity|].
  split; [exact Htruthy|]. split; [exact Hclean|]. split.
  - unfold Launcher.repoName, Clone.fullPath.
    change ("/" ++ Clone.repoName cloneUrl)
      with (String "/" (Clone.repoName cloneUrl)).
    rewrite (last_segment "/" clonePath _ Hclean).
    unfold Js.orElse at 1. now rewrite Htruthy.
  - intros base. unfold Clone.fullPath, Clone.repoName.
    change (base ++ "/..git") with (base ++ String "/" "..git").
    change (base ++ "/.") with (base ++ String "/" ".").
    change (base ++ "/..") with (base ++ String "/" "..").
    rewrite !last_segment by reflexivity.
    repeat split.
Qed.

(** X17.  From the last segment of the URL the first [.git] is removed,
    wherever it stands: for a last segment [a.gitb] with no dot in [a] the
    name is [ab] (so [name.git] gives [name]); a last segment without a
    dot is the name as it is; and when nothing is left the name is
    [repo]. *)
Theorem clone_name_drops_the_first_git (base a b : string) :
  hasChar "/" a = false -> hasChar "/" b = false ->
  hasChar "." a = false ->
  Clone.repoName (base ++ "/" ++ a ++ ".git" ++ b) = Js.orElse (a ++ b) "repo" /\
  Clone.repoName (base ++ "/" ++ a) = Js.orElse a "repo".
Proof.
  intros Ha Hb Hdot. unfold Clone.repoName.
  change (base ++ "/" ++ a ++ ".git" ++ b)
    with (base ++ String "/" (a ++ ".git" ++ b)).
  change (base ++ "/" ++ a) with (base ++ String "/" a).
  rewrite !last_segment.
  - now rewrite (replaceFirst_git_after a b Hdot), (replaceFirst_git_none a Hdot).
  - exact Ha.
  - rewrite !hasChar_app, Ha, Hb. reflexivity.
Qed.

Lemma clone_name_drops_the_first_git_witness :
  Clone.repoName ("git@host:me" ++ "/" ++ "tool" ++ ".git" ++ "hub.git")
  = Js.orElse ("tool" ++ "hub.git") "repo" /\
  Clone.repoName ("git@host:me" ++ "/" ++ "tool") = Js.orElse "tool" "repo".
Proof.
  apply (clone_name_drops_the_first_git "git@host:me" "tool" "hub.git");
    reflexivity.
Defined.

(* ===================================================================== *)
(** ** BranchTree: where a branch is filed                                *)
(* ===================================================================== *)

Section BranchTreeFacts.
Import Js BranchTree.

(** The folders a branch name spells: its segments but the last. *)
Definition folderOf (branchName : string) : list string :=
  removelast (split "/" branchName).

Definition inFolder (path : list string) (b : GitBranch) : bool :=
  if list_eq_dec string_dec (folderOf (name b)) path then true else false.

Lemma get_set_same (key : string) (v : Tree) (fs : list (string * Tree)) :
  get key (set key v fs) = Some v.
Proof.
  induction fs as [|[k v'] fs IH]; simpl.
  - now rewrite String.eqb_refl.
  - destruct (String.eqb k key) eqn:E; simpl.
    + now rewrite String.eqb_refl.
    + now rewrite E.
Qed.

Lemma get_set_other (key other : string) (v : Tree)
      (fs : list (string * Tree)) :
  other <> key -> get other (set key v fs) = get other fs.
Proof.
  intros Hne. induction fs as [|[k v'] fs IH]; simpl.
  - destruct (String.eqb key other) eqn:E; [|reflexivity].
    apply String.eqb_eq in E. congruence.
  - destruct (String.eqb k key) eqn:E; simpl.
    + apply String.eqb_eq in E. subst k.
      destruct (String.eqb key other) eqn:E'; [|reflexivity].
      apply String.eqb_eq in E'. congruence.
    + now rewrite IH.
Qed.

Lemma branchesAt_cons (t : Tree) (key : string) (q : list string) :
  branchesAt t (key :: q) = branchesAt (child key t) q.
Proof.
  unfold branchesAt, child. simpl.
  destruct (get key (folders t)); [reflexivity|]. now destruct q.
Qed.

Lemma branchesAt_push (n : string) (t : Tree) (q : list string) :
  branchesAt (pushBranch n t) q
  = (branchesAt t q ++ match q with [] => [n] | _ :: _ => [] end)%list.
Proof.
  destruct q as [|key q].
  - destruct t as [[l|] fs]; reflexivity.
  - rewrite !branchesAt_cons, app_nil_r. reflexivity.
Qed.

Lemma branchesAt_set (t sub : Tree) (key : string) (q : list string) :
  branchesAt (Node (own t) (set key sub (folders t))) q
  = match q with
    | [] => branchesAt t []
    | k :: q' => if String.eqb k key then branchesAt sub q' else branchesAt t q
    end.
Proof.
  destruct q as [|k q'].
  - destruct t as [[l|] fs]; reflexivity.
  - rewrite branchesAt_cons. unfold child. cbn [folders].
    destruct (String.eqb k key) eqn:E.
    + apply String.eqb_eq in E. subst k. now rewrite get_set_same.
    + rewrite get_set_other; [now rewrite branchesAt_cons|].
      intros ->. now rewrite String.eqb_refl in E.
Qed.

Definition filedAt (keys q : list string) (n : string) : list string :=
  if list_eq_dec string_dec (removelast keys) q then [n] else [].

Lemma filedAt_last (key : string) (q : list string) (n : string) :
  filedAt [key] q n = match q with [] => [n] | _ :: _ => [] end.
Proof.
  unfold filedAt. simpl. destruct (list_eq_dec string_dec [] q) as [<-|Hne].
  - reflexivity.
  - destruct q; congruence.
Qed.

Lemma filedAt_nil (q : list string) (n : string) :
  filedAt [] q n = match q with [] => [n] | _ :: _ => [] end.
Proof.
  unfold filedAt. simpl. destruct (list_eq_dec string_dec [] q) as [<-|Hne].
  - reflexivity.
  - destruct q; congruence.
Qed.

Lemma filedAt_cons (key y : string) (r q : list string) (n : string) :
  filedAt (key :: y :: r) q n
  = match q with
    | [] => []
    | k :: q' => if String.eqb k key then filedAt (y :: r) q' n else []
    end.
Proof.
  unfold filedAt.
  change (removelast (key :: y :: r)) with (key :: removelast (y :: r)).
  destruct q as [|k q'].
  - destruct (list_eq_dec string_dec _ []); [discriminate | reflexivity].
  - destruct (String.eqb k key) eqn:E.
    + apply String.eqb_eq in E. subst k.
      destruct (list_eq_dec string_dec (key :: removelast (y :: r)) (key :: q'))
        as [H1|H1];
        destruct (list_eq_dec string_dec (removelast (y :: r)) q') as [H2|H2];
        try reflexivity; exfalso.
      * injection H1 as H1. contradiction.
      * apply H1. now rewrite H2.
    + destruct (list_eq_dec string_dec _ _) as [H1|H1]; [|reflexivity].
      injection H1 as H1 _. subst k. now rewrite String.eqb_refl in E.
Qed.

Lemma fileUnder_spec (n : string) (keys : list string) : forall current,
  (forall key, In key (removelast keys) -> ordinary key = true) ->
  exists t',
    fileUnder keys n current = Some t' /\
    forall q, branchesAt t' q = (branchesAt current q ++ filedAt keys q n)%list.
Proof.
  induction keys as [|key keys IH]; intros current Hord.
  - eexists. split; [reflexivity|]. intros q.
    now rewrite branchesAt_push, filedAt_nil.
  - destruct keys as [|y r].
    + eexists. split; [reflexivity|]. intros q.
      now rewrite branchesAt_push, filedAt_last.
    + assert (Hkey : ordinary key = true) by (apply Hord; now left).
      destruct (IH (child key current)) as (sub & Hsub & Hat).
      { intros k Hk. apply Hord. now right. }
      cbn [fileUnder]. rewrite Hkey. cbn [fileUnder] in Hsub. rewrite Hsub.
      eexists. split; [reflexivity|]. intros q.
      rewrite branchesAt_set, filedAt_cons.
      destruct q as [|k q']; [now rewrite app_nil_r|].
      destruct (String.eqb k key) eqn:E.
      * apply String.eqb_eq in E. subst k.
        now rewrite Hat, branchesAt_cons.
      * now rewrite app_nil_r.
Qed.

Lemma addBranch_fileUnder (tree : Tree) (b : GitBranch) :
  addBranch tree b = fileUnder (split "/" (name b)) (name b) tree.
Proof.
  unfold addBranch. pose proof (split_nonempty "/" (name b)) as Hne.
  destruct (split "/" (name b)) as [|prefix [|y r]]; [congruence | |];
    reflexivity.
Qed.

Lemma addAll_spec (branches : list GitBranch) : forall tree0,
  (forall b key, In b branches -> In key (folderOf (name b)) ->
                 ordinary key = true) ->
  exists tree,
    addAll tree0 branches = Some tree /\
    forall path,
      branchesAt tree path
      = (branchesAt tree0 path
           ++ map name (filter (inFolder path) branches))%list.
Proof.
  induction branches as [|b rest IH]; intros tree0 Hord.
  - exists tree0. split; [reflexivity|]. intros path. now rewrite app_nil_r.
  - destruct (fileUnder_spec (name b) (split "/" (name b)) tree0)
      as (t1 & Ht1 & Hat1).
    { intros key Hk. apply (Hord b); [now left | exact Hk]. }
    destruct (IH t1) as (tree & Htree & Hat).
    { intros b' key Hb'. apply Hord. now right. }
    exists tree. simpl. rewrite addBranch_fileUnder, Ht1.
    split; [exact Htree|]. intros path.
    rewrite Hat, Hat1, <- app_assoc. f_equal.
    unfold inFolder at 2, filedAt, folderOf.
    destruct (list_eq_dec string_dec _ path); reflexivity.
Qed.
End BranchTreeFacts.

(** X18.  [buildBranchTree] files every branch exactly where its name
    says: when no folder name is a reserved key, the tree is built, and
    the branches listed in the folder reached by a path of keys are
    exactly the branches whose name spells that path before its last
    segment, by their full names and in the order of the input. *)
Theorem branch_tree_files_each_branch_under_its_folders
        (branches : list BranchTree.GitBranch) :
  (forall b key, In b branches -> In key (folderOf (BranchTree.name b)) ->
                 BranchTree.ordinary key = true) ->
  exists tree,
    BranchTree.buildBranchTree branches = Some tree /\
    forall path,
      BranchTree.branchesAt tree path
      = map BranchTree.name (filter (inFolder path) branches).
Proof.
  intros Hord.
  destruct (addAll_spec branches BranchTree.empty Hord) as (tree & Ht & Hat).
  exists tree. split; [exact Ht|]. intros path. rewrite Hat.
  now destruct path.
Qed.

Definition someBranches : list BranchTree.GitBranch :=
  [ {| BranchTree.name := "main"; BranchTree.is_head := true |};
    {| BranchTree.name := "feature/ui/tabs"; BranchTree.is_head := false |};
    {| BranchTree.name := "fix"; BranchTree.is_head := false |};
    {| BranchTree.name := "feature/ui/menu"; BranchTree.is_head := false |} ].

Lemma branch_tree_files_each_branch_under_its_folders_witness :
  exists tree,
    BranchTree.buildBranchTree someBranches = Some tree /\
    forall path,
      BranchTree.branchesAt tree path
      = map BranchTree.name (filter (inFolder path) someBranches).
Proof.
  apply (branch_tree_files_each_branch_under_its_folders someBranches).
  intros b key Hb Hkey.
  repeat (destruct Hb as [<-|Hb];
          [vm_compute in Hkey;
           repeat (destruct Hkey as [<-|Hkey]; [reflexivity|]);
           destruct Hkey|]).
  destruct Hb.
Defined.

(* ===================================================================== *)
(** ** BranchTree: the rows that are rendered                             *)
(* ===================================================================== *)

Section RenderTreeFacts.
Import Js BranchTree.

Variable localeCompare : string -> string -> Z.
Variable arraySort : (Item -> Item -> Z) -> list Item -> list Item.
Variable objectKeys : Tree -> list string.
Variable branches : list GitBranch.
Variable selectedBranch : option string.
Variable folderCollapsed : Collapsed.

(** What is assumed of the host: sorting keeps the items, and the keys of
    a tree object are [_branches], if it has that array, and its
    folders. *)
Definition sortKeepsItems : Prop :=
  forall cmp l x, In x (arraySort cmp l) <-> In x l.

Definition keysAreOwn : Prop :=
  forall t k,
    In k (objectKeys t) <->
    (k = "_branches" /\ own t <> None) \/ In k (map fst (folders t)).

Hypothesis Hsort : sortKeepsItems.
Hypothesis Hkeys : keysAreOwn.

(** No folder on the way down [path] from [prefix] is collapsed. *)
Fixpoint shown (prefix : string) (path : list string) : Prop :=
  match path with
  | [] => True
  | key :: path' =>
      collapsedAt folderCollapsed (folderKeyOf prefix key) = false /\
      shown (folderKeyOf prefix key) path'
  end.

Lemma forEach_In (f : Item -> option (list Element)) (items : list Item) :
  forall els, forEach f items = Some els ->
  forall x, In x els <->
            exists item rows, In item items /\ f item = Some rows /\ In x rows.
Proof.
  induction items as [|item rest IH]; intros els H x; simpl in H.
  - injection H as <-. split; [intros [] | intros (i & r & [] & _)].
  - destruct (f item) as [rows|] eqn:Hf; [|discriminate].
    destruct (forEach f rest) as [more|]; [|discriminate].
    injection H as <-. rewrite in_app_iff, (IH more eq_refl x). split.
    + intros [Hx|(i & r & Hi & Hr & Hx)].
      * exists item, rows. simpl. auto.
      * exists i, r. simpl. auto.
    + intros (i & r & [<-|Hi] & Hr & Hx).
      * left. congruence.
      * right. exists i, r. auto.
Qed.

Lemma forEach_each (f : Item -> option (list Element)) (items : list Item) :
  forall els, forEach f items = Some els ->
  forall item, In item items -> exists rows, f item = Some rows.
Proof.
  induction items as [|item rest IH]; intros els H i Hi; [destruct Hi|].
  simpl in H. destruct (f item) as [rows|] eqn:Hf; [|discriminate].
  destruct (forEach f rest) as [more|]; [|discriminate].
  destruct Hi as [<-|Hi]; [now exists rows | exact (IH more eq_refl i Hi)].
Qed.

Lemma forEach_total (f : Item -> option (list Element)) (items : list Item) :
  (forall item, In item items -> exists rows, f item = Some rows) ->
  exists els, forEach f items = Some els.
Proof.
  induction items as [|item rest IH]; intros H; [now exists []|].
  destruct (H item (or_introl eq_refl)) as [rows Hrows].
  destruct IH as [more Hmore]; [intros i Hi; apply H; now right|].
  exists (rows ++ more)%list. simpl. now rewrite Hrows, Hmore.
Qed.

Lemma get_In (key : string) (fs : list (string * Tree)) :
  In key (map fst fs) <-> exists sub, get key fs = Some sub.
Proof.
  induction fs as [|[k v] fs IH]; simpl.
  - split; [intros [] | intros [sub H]; discriminate].
  - destruct (String.eqb k key) eqn:E.
    + apply String.eqb_eq in E. split; [now exists v | auto].
    + rewrite <- IH. split; [intros [H|H]; [|exact H] | auto].
      subst k. now rewrite String.eqb_refl in E.
Qed.

Lemma get_depth (key : string) (sub : Tree) (o : option (list string))
      (fs : list (string * Tree)) :
  get key fs = Some sub -> depth sub < depth (Node o fs).
Proof.
  cbn [depth]. induction fs as [|[k v] fs IH]; simpl; [discriminate|].
  destruct (String.eqb k key).
  - intros H. injection H as <-. lia.
  - intros H. specialize (IH H). lia.
Qed.

(** The items of one level. *)
Definition itemsOf (tree : Tree) : list Item :=
  arraySort (fun a b => localeCompare (itemName a) (itemName b))
    ((match own tree with
      | Some l => map (fun n => {| type := branchType; itemName := n |}) l
      | None => []
      end)
     ++ map (fun n => {| type := folderType; itemName := n |})
            (filter (fun k => negb (String.eqb k "_branches"))
                    (objectKeys tree)))%list.

Lemma itemsOf_branch (tree : Tree) (n : string) :
  In {| type := branchType; itemName := n |} (itemsOf tree) <->
  In n (branchesAt tree []).
Proof.
  unfold itemsOf. rewrite (Hsort _ _ _), in_app_iff, !in_map_iff.
  unfold branchesAt. simpl. split.
  - intros [H|(k & Hk & _)]; [|discriminate].
    destruct tree as [[l|] fs]; simpl in *.
    + rewrite in_map_iff in H. destruct H as (m & Hm & Hin). congruence.
    + destruct H.
  - intros H. left. destruct tree as [[l|] fs]; simpl in *; [|destruct H].
    apply in_map_iff. now exists n.
Qed.

Lemma itemsOf_folder (tree : Tree) (k : string) :
  In {| type := folderType; itemName := k |} (itemsOf tree) <->
  k <> "_branches" /\ In k (map fst (folders tree)).
Proof.
  unfold itemsOf. rewrite (Hsort _ _ _), in_app_iff, in_map_iff. split.
  - intros [H|(k' & Hk' & Hin)].
    + destruct (own tree) as [l|]; [|destruct H].
      apply in_map_iff in H. destruct H as (m & Hm & _). discriminate.
    + injection Hk' as ->. apply filter_In in Hin as [Hin Hne].
      apply negb_true_iff in Hne.
      assert (k <> "_branches").
      { intros ->. now rewrite String.eqb_refl in Hne. }
      split; [assumption|].
      apply (Hkeys tree k) in Hin as [[Heq _]|Hin]; [contradiction|exact Hin].
  - intros [Hne Hin]. right. exists k. split; [reflexivity|].
    apply filter_In. split.
    + apply (Hkeys tree k). now right.
    + apply negb_true_iff. destruct (String.eqb k "_branches") eqn:E; auto.
      apply String.eqb_eq in E. contradiction.
Qed.

Lemma branchRow_inj (l1 l2 : nat) (n1 n2 : string) :
  branchRow branches selectedBranch l1 n1
  = branchRow branches selectedBranch l2 n2 ->
  n1 = n2 /\ l1 = l2.
Proof.
  unfold branchRow. intros H. injection H as Hn _ Hp _ _.
  split; [exact Hn | lia].
Qed.

Lemma renderTree_unfold (fuel : nat) (tree : Tree) (level : nat)
      (prefix : string) :
  renderTree localeCompare arraySort objectKeys branches selectedBranch
             folderCollapsed (S fuel) tree level prefix
  = forEach
      (fun item =>
         match type item with
         | branchType =>
             Some [branchRow branches selectedBranch level (itemName item)]
         | folderType =>
             let folderKey := folderKeyOf prefix (itemName item) in
             let isCollapsed := collapsedAt folderCollapsed folderKey in
             let row :=
               BranchFolder (prefix ++ "-" ++ itemName item)
                            (16 + level * 12) isCollapsed (itemName item) in
             if isCollapsed then Some [row]
             else
               match get (itemName item) (folders tree) with
               | Some sub =>
                   match renderTree localeCompare arraySort objectKeys
                           branches selectedBranch folderCollapsed
                           fuel sub (level + 1) folderKey with
                   | Some rows => Some (row :: rows)
                   | None => None
                   end
               | None => None
               end
         end)
      (itemsOf tree).
Proof. reflexivity. Qed.

(** With enough fuel the tree is rendered. *)
Lemma renderTree_total (fuel : nat) : forall tree level prefix,
  depth tree < fuel ->
  exists els,
    renderTree localeCompare arraySort objectKeys branches selectedBranch
               folderCollapsed fuel tree level prefix = Some els.
Proof.
  induction fuel as [|fuel IH]; intros tree level prefix Hd; [lia|].
  rewrite renderTree_unfold. apply forEach_total.
  intros [[|] k] Hin; cbn [type itemName]; [eauto|].
  destruct (collapsedAt folderCollapsed (folderKeyOf prefix k)); [eauto|].
  apply itemsOf_folder in Hin as [_ Hin].
  apply get_In in Hin as [sub Hsub]. rewrite Hsub.
  destruct (IH sub (level + 1) (folderKeyOf prefix k)) as [rows Hrows].
  - destruct tree as [o fs]. pose proof (get_depth k sub o fs Hsub). lia.
  - rewrite Hrows. eauto.
Qed.

(** The branch rows of a rendering are the branches of the tree none of
    whose folders is collapsed, each indented by the number of its
    folders. *)
Lemma renderTree_rows (fuel : nat) : forall tree level prefix els,
  renderTree localeCompare arraySort objectKeys branches selectedBranch
             folderCollapsed fuel tree level prefix = Some els ->
  forall n L,
    In (branchRow branches selectedBranch L n) els <->
    exists path,
      In n (branchesAt tree path) /\
      Forall (fun k => k <> "_branches") path /\
      L = level + List.length path /\ shown prefix path.
Proof.
  induction fuel as [|fuel IH]; intros tree level prefix els Hr n L;
    [discriminate|].
  rewrite renderTree_unfold in Hr.
  rewrite (forEach_In _ _ _ Hr). split.
  - intros ([[|] k] & rows & Hin & Hrows & Hx); cbn [type itemName] in Hrows.
    + injection Hrows as <-. destruct Hx as [Hx|[]].
      apply branchRow_inj in Hx as [-> ->].
      exists []. apply itemsOf_branch in Hin.
      split; [exact Hin|]. split; [constructor|]. simpl. split; [lia|exact I].
    + destruct (collapsedAt folderCollapsed (folderKeyOf prefix k)) eqn:Hc.
      { injection Hrows as <-. destruct Hx as [Hx|[]]. discriminate. }
      apply itemsOf_folder in Hin as [Hne Hin].
      destruct (get k (folders tree)) as [sub|] eqn:Hsub; [|discriminate].
      destruct (renderTree _ _ _ _ _ _ fuel sub (level + 1)
                  (folderKeyOf prefix k)) as [rec|] eqn:Hrec; [|discriminate].
      injection Hrows as <-. destruct Hx as [Hx|Hx]; [discriminate|].
      apply (IH _ _ _ _ Hrec) in Hx
        as (path & Hn & Hall & HL & Hshown).
      exists (k :: path).
      rewrite branchesAt_cons. unfold child. rewrite Hsub.
      split; [exact Hn|]. split; [now constructor|]. simpl.
      split; [lia|]. split; assumption.
  - intros ([|k path] & Hn & Hall & HL & Hshown).
    + exists {| type := branchType; itemName := n |}.
      eexists. split; [now apply itemsOf_branch|].
      cbn [type itemName]. split; [reflexivity|].
      left. f_equal. simpl in HL. lia.
    + apply Forall_cons_iff in Hall as [Hne Hall'].
      destruct Hshown as [Hc Hshown].
      rewrite branchesAt_cons in Hn. unfold child in Hn.
      destruct (get k (folders tree)) as [sub|] eqn:Hsub;
        [|now destruct path].
      assert (Hitem : In {| type := folderType; itemName := k |}
                         (itemsOf tree)).
      { apply itemsOf_folder. split; [exact Hne|].
        apply get_In. now exists sub. }
      destruct (forEach_each _ _ _ Hr _ Hitem) as [rows Hrows].
      exists {| type := folderType; itemName := k |}, rows.
      split; [exact Hitem|]. split; [exact Hrows|].
      cbn [type itemName] in Hrows. cbv zeta in Hrows.
      rewrite Hc, Hsub in Hrows.
      destruct (renderTree _ _ _ _ _ _ fuel sub (level + 1)
                  (folderKeyOf prefix k)) as [rec|] eqn:Hrec; [|discriminate].
      injection Hrows as <-. right.
      apply (IH _ _ _ _ Hrec). exists path.
      split; [exact Hn|]. split; [exact Hall'|]. simpl in HL.
      split; [lia | exact Hshown].
Qed.
End RenderTreeFacts.

(** X19.  What [BranchTree] shows of the branches it is given, when no
    folder name is a reserved key and the host's [sort] and [Object.keys]
    neither lose nor invent entries: the tree is built and, with fuel
    beyond its depth, rendered; a branch has a row exactly when none of
    the folders its name goes through is collapsed, and that row is
    indented by one level for each of these folders. *)
Theorem branch_rows_are_the_uncollapsed_branches
        (localeCompare : string -> string -> Z)
        (arraySort : (BranchTree.Item -> BranchTree.Item -> Z) ->
                     list BranchTree.Item -> list BranchTree.Item)
        (objectKeys : BranchTree.Tree -> list string)
        (branches : list BranchTree.GitBranch)
        (selectedBranch : option string)
        (folderCollapsed : BranchTree.Collapsed)
        (level : nat) (prefix : string) :
  sortKeepsItems arraySort ->
  keysAreOwn objectKeys ->
  (forall b key, In b branches -> In key (folderOf (BranchTree.name b)) ->
                 BranchTree.ordinary key = true) ->
  exists tree,
    BranchTree.buildBranchTree branches = Some tree /\
    forall fuel, BranchTree.depth tree < fuel ->
      exists els,
        BranchTree.renderTree localeCompare arraySort objectKeys branches
          selectedBranch folderCollapsed fuel tree level prefix = Some els /\
        forall n L,
          In (BranchTree.branchRow branches selectedBranch L n) els <->
          In n (map BranchTree.name branches) /\
          L = level + List.length (folderOf n) /\
          shown folderCollapsed prefix (folderOf n).
Proof.
  intros Hsort Hkeys Hord.
  destruct (addAll_spec branches BranchTree.empty Hord) as (tree & Ht & Hat).
  assert (Hat' : forall path,
             BranchTree.branchesAt tree path
             = map BranchTree.name (filter (inFolder path) branches)).
  { intros path. rewrite Hat. now destruct path. }
  exists tree. split; [exact Ht|]. intros fuel Hfuel.
  destruct (renderTree_total localeCompare arraySort objectKeys branches
              selectedBranch folderCollapsed Hsort Hkeys fuel tree level
              prefix Hfuel) as [els Hels].
  exists els. split; [exact Hels|]. intros n L.
  rewrite (renderTree_rows localeCompare arraySort objectKeys branches
             selectedBranch folderCollapsed Hsort Hkeys fuel _ _ _ _ Hels).
  split.
  - intros (path & Hn & _ & HL & Hshown).
    rewrite Hat', in_map_iff in Hn. destruct Hn as (b & Hb & Hin).
    apply filter_In in Hin as [Hin Hf]. unfold inFolder in Hf.
    destruct (list_eq_dec string_dec (folderOf (BranchTree.name b)) path)
      as [Hp|_]; [|discriminate].
    rewrite Hb in Hp. subst path.
    split; [|now split]. apply in_map_iff. now exists b.
  - intros (Hn & HL & Hshown). exists (folderOf n).
    apply in_map_iff in Hn as (b & Hb & Hin).
    split; [|split; [|now split]].
    + rewrite Hat'. apply in_map_iff. exists b. split; [exact Hb|].
      apply filter_In. split; [exact Hin|]. unfold inFolder. rewrite Hb.
      now destruct (list_eq_dec string_dec (folderOf n) (folderOf n)).
    + apply Forall_forall. intros k Hk ->.
      rewrite <- Hb in Hk. now pose proof (Hord b _ Hin Hk).
Qed.

Definition plainKeys (t : BranchTree.Tree) : list string :=
  ((match BranchTree.own t with Some _ => ["_branches"] | None => [] end)
   ++ map fst (BranchTree.folders t))%list.

Definition noSort (cmp : BranchTree.Item -> BranchTree.Item -> Z)
           (l : list BranchTree.Item) : list BranchTree.Item := l.

Lemma plainKeys_own : keysAreOwn plainKeys.
Proof.
  intros t k. unfold plainKeys. rewrite in_app_iff.
  destruct (BranchTree.own t) as [l|]; simpl.
  - split; [intros [[H|[]]|H]; [left; split; [auto|discriminate] | now right]
           | intros [[H _]|H]; auto].
  - split; [intros [[]|H]; now right | intros [[_ H]|H]; [congruence|auto]].
Qed.

Lemma someBranches_ordinary :
  forall b key, In b someBranches -> In key (folderOf (BranchTree.name b)) ->
                BranchTree.ordinary key = true.
Proof.
  intros b key Hb Hkey.
  repeat (destruct Hb as [<-|Hb];
          [vm_compute in Hkey;
           repeat (destruct Hkey as [<-|Hkey]; [reflexivity|]);
           destruct Hkey|]).
  destruct Hb.
Qed.

Lemma branch_rows_are_the_uncollapsed_branches_witness :
  exists tree,
    BranchTree.buildBranchTree someBranches = Some tree /\
    forall fuel, BranchTree.depth tree < fuel ->
      exists els,
        BranchTree.renderTree byteCompare noSort plainKeys someBranches
          (Some "main") [("feature/ui", true)] fuel tree 0 EmptyString
        = Some els /\
        forall n L,
          In (BranchTree.branchRow someBranches (Some "main") L n) els <->
          In n (map BranchTree.name someBranches) /\
          L = 0 + List.length (folderOf n) /\
          shown [("feature/ui", true)] EmptyString (folderOf n).
Proof.
  apply (branch_rows_are_the_uncollapsed_branches byteCompare noSort plainKeys
           someBranches (Some "main") [("feature/ui", true)] 0 EmptyString).
  - intros cmp l x. reflexivity.
  - exact plainKeys_own.
  - exact someBranches_ordinary.
Defined.

(* ===================================================================== *)
(** ** BranchTree: folders, the context menu and the double click         *)
(* ===================================================================== *)

Section FolderFacts.
Import Js Dict.

Lemma lookup_assign (key other : string) (v : bool) (m : Flags) :
  lookup other (assign key v m)
  = if String.eqb other key then Some v else lookup other m.
Proof.
  induction m as [|[k v'] m IH]; simpl.
  - rewrite (String.eqb_sym key other).
    now destruct (String.eqb other key).
  - destruct (String.eqb k key) eqn:E; simpl.
    + apply String.eqb_eq in E. subst k. rewrite (String.eqb_sym key other).
      now destruct (String.eqb other key).
    + rewrite IH. destruct (String.eqb k other) eqn:E'; [|reflexivity].
      apply String.eqb_eq in E'. subst k. now rewrite E.
Qed.

Lemma truthyAt_flip (m : Flags) (key other : string) :
  truthyAt (flip m key) other
  = if String.eqb other key then negb (truthyAt m key) else truthyAt m other.
Proof.
  unfold flip, truthyAt at 1. rewrite lookup_assign.
  destruct (String.eqb other key); reflexivity.
Qed.
End FolderFacts.

(** X20.  A click on a folder row flips that folder between collapsed
    and open and leaves every other folder as it was, also a folder that
    was never clicked before; a second click on the same row brings every
    folder back to what it was. *)
Theorem folder_click_flips_one_folder
        (prev : BranchTree.Collapsed) (folderKey other : string) :
  BranchTree.collapsedAt (BranchTree.toggleFolder prev folderKey) folderKey
  = negb (BranchTree.collapsedAt prev folderKey) /\
  (other <> folderKey ->
   BranchTree.collapsedAt (BranchTree.toggleFolder prev folderKey) other
   = BranchTree.collapsedAt prev other) /\
  BranchTree.collapsedAt
    (BranchTree.toggleFolder (BranchTree.toggleFolder prev folderKey) folderKey)
    other
  = BranchTree.collapsedAt prev other.
Proof.
  unfold BranchTree.toggleFolder, BranchTree.collapsedAt.
  repeat rewrite truthyAt_flip.
  rewrite String.eqb_refl. split; [reflexivity|]. split.
  - intros Hne. destruct (String.eqb other folderKey) eqn:E; [|reflexivity].
    apply String.eqb_eq in E. contradiction.
  - destruct (String.eqb other folderKey) eqn:E; [|reflexivity].
    apply String.eqb_eq in E. subst other. apply negb_involutive.
Qed.

Lemma folder_click_flips_one_folder_witness :
  BranchTree.collapsedAt (BranchTree.toggleFolder [] "feature") "fix"
  = BranchTree.collapsedAt [] "fix".
Proof.
  apply (proj1 (proj2 (folder_click_flips_one_folder [] "feature" "fix"))).
  discriminate.
Defined.

(** X21.  From the context menu of a branch row, a pull is asked of the
    parent only for the branch of that row, only if the first branch of
    that name is the checked-out one, and only with a remote that is
    configured: [origin] if there is one, else the first.  Whenever a pull
    is possible a fetch with the same remote is too, and neither the menu
    nor a double click then asks for a checkout. *)
Theorem pull_needs_the_head_and_a_remote
        (branches : list BranchTree.GitBranch) (remotes : list string)
        (itemName : string) (ask : BranchTree.Ask) :
  BranchTree.clickPull (BranchTree.openMenu branches remotes itemName)
  = Some ask ->
  exists r b,
    ask = BranchTree.onPull itemName r /\
    In r remotes /\ Js.truthy r = true /\
    (r = "origin" \/ (~ In "origin" remotes /\ hd_error remotes = Some r)) /\
    find (fun x => String.eqb (BranchTree.name x) itemName) branches = Some b /\
    BranchTree.is_head b = true /\
    BranchTree.clickFetch (BranchTree.openMenu branches remotes itemName)
    = Some (BranchTree.onFetch itemName r) /\
    BranchTree.clickCheckout (BranchTree.openMenu branches remotes itemName)
    = None /\
    BranchTree.doubleClick branches itemName = None.
Proof.
  unfold BranchTree.clickPull, BranchTree.clickFetch, BranchTree.clickCheckout,
    BranchTree.doubleClick, BranchTree.openMenu. cbn [BranchTree.remote
    BranchTree.isHead BranchTree.branch].
  destruct (BranchTree.getRemoteForBranch remotes) as [r|] eqn:Hr;
    [|discriminate].
  destruct (find _ branches) as [b|] eqn:Hb; [|discriminate].
  destruct (BranchTree.is_head b) eqn:Hh; [|discriminate].
  destruct (Js.truthy r) eqn:Ht; [|discriminate].
  intros H. injection H as <-. exists r, b.
  assert (Hremote : In r remotes /\
            (r = "origin" \/
             (~ In "origin" remotes /\ hd_error remotes = Some r))).
  { unfold BranchTree.getRemoteForBranch in Hr.
    destruct (Nat.eqb (List.length remotes) 0); [discriminate|].
    destruct (existsb (fun x => String.eqb x "origin") remotes) eqn:Ho.
    - injection Hr as <-. apply existsb_exists in Ho as (x & Hx & Hxo).
      apply String.eqb_eq in Hxo. subst x. auto.
    - split.
      + destruct remotes as [|x l]; [discriminate|].
        injection Hr as <-. now left.
      + right. split; [|exact Hr]. intros Hin.
        assert (existsb (fun x => String.eqb x "origin") remotes = true).
        { apply existsb_exists. exists "origin". split; [exact Hin|].
          apply String.eqb_refl. }
        congruence. }
  destruct Hremote as [Hin Hwhich]. simpl. auto 10.
Qed.

Lemma pull_needs_the_head_and_a_remote_witness :
  exists r b,
    BranchTree.onPull "main" "upstream" = BranchTree.onPull "main" r /\
    In r ["upstream"; "fork"] /\ Js.truthy r = true /\
    (r = "origin" \/
     (~ In "origin" ["upstream"; "fork"] /\
      hd_error ["upstream"; "fork"] = Some r)) /\
    find (fun x => String.eqb (BranchTree.name x) "main") someBranches
    = Some b /\
    BranchTree.is_head b = true /\
    BranchTree.clickFetch
      (BranchTree.openMenu someBranches ["upstream"; "fork"] "main")
    = Some (BranchTree.onFetch "main" r) /\
    BranchTree.clickCheckout
      (BranchTree.openMenu someBranches ["upstream"; "fork"] "main")
    = None /\
    BranchTree.doubleClick someBranches "main" = None.
Proof.
  apply (pull_needs_the_head_and_a_remote someBranches ["upstream"; "fork"]
           "main" (BranchTree.onPull "main" "upstream")).
  reflexivity.
Defined.

(* ===================================================================== *)
(** ** StageView: the order of the unstaged files, and failed reloads     *)
(* ===================================================================== *)

Section OrderFacts.
Import Js Engine StageView.

Variable localeCompare : string -> string -> Z.

(** A comparator [Array.prototype.sort] can work with: swapping the
    arguments swaps the sign, and "not after" is transitive. *)
Definition consistent {A} (cmp : A -> A -> Z) : Prop :=
  (forall x y, Z.sgn (cmp x y) = (- Z.sgn (cmp y x))%Z) /\
  (forall x y z, (cmp x y <= 0)%Z -> (cmp y z <= 0)%Z -> (cmp x z <= 0)%Z).

(** The status starts with one of the given characters. *)
Definition startsWithOneOf (cs : list ascii) (s : string) : bool :=
  match s with
  | String c _ => existsb (Ascii.eqb c) cs
  | EmptyString => false
  end.

(** The three classes of [getStatusPriority], by the first character of
    the status as the engine wrote it. *)
Definition statusClass (s : string) : Z :=
  if startsWithOneOf ["D"; "d"]%char s then 2%Z
  else if startsWithOneOf ["M"; "m"]%char s then 1%Z
  else 0%Z.

Lemma toUpperCase_D (c : ascii) :
  Ascii.eqb (toUpperCase c) "D" = existsb (Ascii.eqb c) ["D"; "d"]%char.
Proof. destruct c as [[] [] [] [] [] [] [] []]; reflexivity. Qed.

Lemma toUpperCase_M (c : ascii) :
  Ascii.eqb (toUpperCase c) "M" = existsb (Ascii.eqb c) ["M"; "m"]%char.
Proof. destruct c as [[] [] [] [] [] [] [] []]; reflexivity. Qed.

Lemma getStatusPriority_class (s : string) :
  s <> EmptyString -> getStatusPriority s = Some (statusClass s).
Proof.
  destruct s as [|c s]; [congruence|]. intros _.
  unfold getStatusPriority, statusClass, startsWithOneOf.
  cbv zeta. rewrite toUpperCase_D, toUpperCase_M.
  destruct (existsb (Ascii.eqb c) ["D"; "d"]%char); [reflexivity|].
  now destruct (existsb (Ascii.eqb c) ["M"; "m"]%char).
Qed.

Lemma compareUnstaged_value (a b : FileStatus) :
  status a <> EmptyString -> status b <> EmptyString ->
  compareUnstaged localeCompare a b
  = Some (if (statusClass (status b) - statusClass (status a) =? 0)%Z
          then localeCompare (path a) (path b)
          else (statusClass (status b) - statusClass (status a))%Z).
Proof.
  intros Ha Hb. unfold compareUnstaged.
  now rewrite (getStatusPriority_class _ Ha), (getStatusPriority_class _ Hb).
Qed.

Lemma compareUnstaged_throws (a b : FileStatus) :
  status a = EmptyString \/ status b = EmptyString ->
  compareUnstaged localeCompare a b = None.
Proof.
  intros H. unfold compareUnstaged.
  destruct (status b) as [|cb sb]; [reflexivity|].
  destruct (status a) as [|ca sa]; [|destruct H; discriminate].
  cbn. now repeat destruct (Ascii.eqb _ _).
Qed.
End OrderFacts.

(** X22.  The comparator that orders the unstaged files fails when one of
    the two statuses is empty and on no other files.  On files whose
    status is not empty it ranks by the first character of the status, in
    either case: a status that starts with D comes before one that does
    not, and among the others one that starts with M comes before one that
    does not; two files of the same class are compared by path.  When
    [localeCompare] is a consistent comparator so is this one, as [sort]
    requires: swapping the files swaps the sign, and "not after" is
    transitive. *)
Theorem unstaged_order_is_by_priority_then_path
        (localeCompare : string -> string -> Z)
        (a b c : Engine.FileStatus) :
  consistent localeCompare ->
  Engine.status a <> EmptyString ->
  Engine.status b <> EmptyString ->
  Engine.status c <> EmptyString ->
  (forall x y,
     Engine.status x = EmptyString \/ Engine.status y = EmptyString ->
     StageView.compareUnstaged localeCompare x y = None) /\
  exists ab ba bc ac,
    StageView.compareUnstaged localeCompare a b = Some ab /\
    StageView.compareUnstaged localeCompare b a = Some ba /\
    StageView.compareUnstaged localeCompare b c = Some bc /\
    StageView.compareUnstaged localeCompare a c = Some ac /\
    (startsWithOneOf ["D"; "d"]%char (Engine.status a) = true ->
     startsWithOneOf ["D"; "d"]%char (Engine.status b) = false ->
     (ab < 0)%Z) /\
    (startsWithOneOf ["M"; "m"]%char (Engine.status a) = true ->
     startsWithOneOf ["D"; "d"]%char (Engine.status b) = false ->
     startsWithOneOf ["M"; "m"]%char (Engine.status b) = false ->
     (ab < 0)%Z) /\
    (startsWithOneOf ["D"; "d"]%char (Engine.status a)
     = startsWithOneOf ["D"; "d"]%char (Engine.status b) ->
     startsWithOneOf ["M"; "m"]%char (Engine.status a)
     = startsWithOneOf ["M"; "m"]%char (Engine.status b) ->
     ab = localeCompare (Engine.path a) (Engine.path b)) /\
    Z.sgn ab = (- Z.sgn ba)%Z /\
    ((ab <= 0)%Z -> (bc <= 0)%Z -> (ac <= 0)%Z).
Proof.
  intros [Hanti Htrans] Ha Hb Hc.
  split; [intros x y; apply compareUnstaged_throws|].
  rewrite (compareUnstaged_value localeCompare a b Ha Hb),
          (compareUnstaged_value localeCompare b a Hb Ha),
          (compareUnstaged_value localeCompare b c Hb Hc),
          (compareUnstaged_value localeCompare a c Ha Hc).
  do 4 eexists. repeat (split; [reflexivity|]).
  pose proof (Hanti (Engine.path a) (Engine.path b)) as Hab.
  pose proof (Htrans (Engine.path a) (Engine.path b) (Engine.path c)) as Habc.
  unfold statusClass.
  destruct (startsWithOneOf ["D"; "d"]%char (Engine.status a));
    destruct (startsWithOneOf ["M"; "m"]%char (Engine.status a));
    destruct (startsWithOneOf ["D"; "d"]%char (Engine.status b));
    destruct (startsWithOneOf ["M"; "m"]%char (Engine.status b));
    destruct (startsWithOneOf ["D"; "d"]%char (Engine.status c));
    destruct (startsWithOneOf ["M"; "m"]%char (Engine.status c));
    cbn; repeat split; intros; try discriminate; try lia; auto.
Qed.

Definition noOrder (x y : string) : Z := 0%Z.

Definition fileOf (p s : string) (isStaged : bool) : Engine.FileStatus :=
  {| Engine.path := p; Engine.status := s; Engine.staged := isStaged |}.

Lemma unstaged_order_is_by_priority_then_path_witness :
  StageView.compareUnstaged noOrder (fileOf "a" "deleted" false)
                            (fileOf "b" EmptyString false) = None /\
  StageView.compareUnstaged noOrder (fileOf "a" "deleted" false)
                            (fileOf "b" "modified" false) = Some (-1)%Z /\
  StageView.compareUnstaged noOrder (fileOf "b" "modified" false)
                            (fileOf "c" "new" false) = Some (-1)%Z /\
  StageView.compareUnstaged noOrder (fileOf "a" "deleted" false)
                            (fileOf "c" "new" false) = Some (-2)%Z.
Proof.
  assert (H : consistent noOrder)
    by (split; intros; unfold noOrder; simpl; lia).
  destruct (unstaged_order_is_by_priority_then_path noOrder
              (fileOf "a" "deleted" false) (fileOf "b" "modified" false)
              (fileOf "c" "new" false) H)
    as [Hnone _]; try discriminate.
  split; [apply Hnone; now right|]. repeat split.
Defined.

Section SingleAwaitFacts.
Import Engine Async.

(** A function with one [await] and nothing asynchronous after it has
    two states: waiting, and done. *)
Lemma single_await_runs (r : Request) (k : Response -> Act) (c : Config) :
  (forall resp, sync (k resp)) ->
  steps (launch (Await r k)) c ->
  c = launch (Await r k) \/
  exists resp,
    c = {| trace := ([Issued r; Settled r resp] ++ fst (start (k resp)))%list;
           pending := [] |} /\
    Forall isDid (fst (start (k resp))).
Proof.
  intros Hsync Hsteps. induction Hsteps as [|c1 c2 _ IH Hstep]; [now left|].
  destruct IH as [->|(resp & -> & _)].
  - right. destruct Hstep as [i j resp H|i H]; unfold deliver, resume in H;
      simpl in H; destruct i as [|[|i]]; simpl in H; try discriminate.
    exists resp. destruct (sync_start _ (Hsync resp)) as [Hp Ht].
    split; [|exact Ht]. injection H as <-. unfold continue.
    destruct (start (k resp)) as [t ps]. simpl in *. now subst ps.
  - exfalso. now apply idle_stuck in Hstep.
Qed.

End SingleAwaitFacts.

(** X23.  What a failed reload leaves behind.  When the engine rejects
    [get_status], [loadStatus] only writes to the console: the two lists,
    the selection and the diff stay as they were.  When it rejects
    [get_diff], [loadDiff] writes to the console and empties the diff
    shown.  In both cases the function has ended and nothing is asked
    again. *)
Theorem failed_reloads_report_to_the_console
        (localeCompare : string -> string -> Z)
        (arraySort : (Engine.FileStatus -> Engine.FileStatus -> option Z) ->
                     list Engine.FileStatus -> option (list Engine.FileStatus))
        (st : StageView.State) (filePath : string) (isStaged : bool)
        (e : string) :
  (forall c,
     Async.steps (Async.launch (StageView.loadStatus localeCompare arraySort st)) c ->
     In (Async.Settled (Engine.get_status (StageView.repoPath st))
           (Engine.Reject e)) (Async.trace c) ->
     Async.pending c = [] /\
     Async.effects (Async.trace c)
     = [Engine.consoleError "Failed to load status:" e] /\
     Async.issued (Async.trace c) = [Engine.get_status (StageView.repoPath st)])
  /\
  (forall c,
     Async.steps (Async.launch (StageView.loadDiff st filePath isStaged)) c ->
     In (Async.Settled
           (Engine.get_diff (StageView.repoPath st) filePath isStaged)
           (Engine.Reject e)) (Async.trace c) ->
     Async.pending c = [] /\
     Async.effects (Async.trace c)
     = [Engine.consoleError "Failed to load diff:" e;
        Engine.setDiff EmptyString] /\
     Async.issued (Async.trace c)
     = [Engine.get_diff (StageView.repoPath st) filePath isStaged]).
Proof.
  split; intros c Hsteps Hin.
  - destruct (loadStatus_cont_sync localeCompare arraySort st)
      as (k & Hk & Hsync).
    assert (Hrej : k (Engine.Reject e)
                   = Async.Emit (Engine.consoleError "Failed to load status:" e)
                                Async.Done).
    { unfold StageView.loadStatus in Hk. injection Hk as <-. reflexivity. }
    rewrite Hk in Hsteps.
    destruct (single_await_runs _ k c Hsync Hsteps)
      as [->|(resp & -> & Hdid)].
    + simpl in Hin. destruct Hin as [H|[]]. discriminate.
    + simpl in Hin. destruct Hin as [H|[H|Hin]]; [discriminate| |].
      * injection H as ->. rewrite Hrej. repeat split.
      * rewrite Forall_forall in Hdid. destruct (Hdid _ Hin).
  - destruct (loadDiff_cont_sync st filePath isStaged) as (k & Hk & Hsync).
    assert (Hrej : k (Engine.Reject e)
                   = Async.Emit (Engine.consoleError "Failed to load diff:" e)
                       (Async.Emit (Engine.setDiff EmptyString) Async.Done)).
    { unfold StageView.loadDiff in Hk. injection Hk as <-. reflexivity. }
    rewrite Hk in Hsteps.
    destruct (single_await_runs _ k c Hsync Hsteps)
      as [->|(resp & -> & Hdid)].
    + simpl in Hin. destruct Hin as [H|[]]. discriminate.
    + simpl in Hin. destruct Hin as [H|[H|Hin]]; [discriminate| |].
      * injection H as ->. rewrite Hrej. repeat split.
      * rewrite Forall_forall in Hdid. destruct (Hdid _ Hin).
Qed.

Definition failedDiffLoad : Async.Config :=
  match play (Async.launch (StageView.loadDiff exampleState "f.txt" false))
             [Settle 0 0 (Engine.Reject "gone")] with
  | Some c => c
  | None => Async.launch Async.Done
  end.

Lemma failed_reloads_report_to_the_console_witness :
  Async.pending failedDiffLoad = [] /\
  Async.effects (Async.trace failedDiffLoad)
  = [Engine.consoleError "Failed to load diff:" "gone";
     Engine.setDiff EmptyString] /\
  Async.issued (Async.trace failedDiffLoad)
  = [Engine.get_diff (StageView.repoPath exampleState) "f.txt" false].
Proof.
  apply (proj2 (failed_reloads_report_to_the_console byteCompare keepOrder
                  exampleState "f.txt" false "gone") failedDiffLoad).
  - apply (play_steps [Settle 0 0 (Engine.Reject "gone")]). reflexivity.
  - vm_compute. auto.
Defined.

(* ===================================================================== *)
(** ** RepoView: the remotes of the sidebar                               *)
(* ===================================================================== *)

Section RemotesFacts.
Import Js Dict RepoView.

Definition allTrue (m : Flags) : Prop :=
  forall k v, lookup k m = Some v -> v = true.

Lemma store_allTrue (key : string) (m : Flags) :
  allTrue m -> allTrue (store key true m).
Proof.
  intros Hm k v. unfold store.
  destruct (String.eqb key "__proto__"); [apply Hm|].
  rewrite lookup_assign. destruct (String.eqb k key); [congruence | apply Hm].
Qed.

Lemma initial_allTrue (u : list GitRemote) : forall m,
  allTrue m ->
  allTrue (fold_left (fun m remote => store (name remote) true m) u m).
Proof.
  induction u as [|x u IH]; intros m Hm; simpl; [exact Hm|].
  apply IH. now apply store_allTrue.
Qed.

Lemma initial_lookup (n : string) (u : list GitRemote) : forall m,
  n <> "__proto__" ->
  In n (map name u) \/ lookup n m = Some true ->
  lookup n (fold_left (fun m remote => store (name remote) true m) u m)
  = Some true.
Proof.
  induction u as [|x u IH]; intros m Hn H; simpl.
  - destruct H as [[]|H]. exact H.
  - apply IH; [exact Hn|]. unfold store.
    destruct (String.eqb (name x) "__proto__") eqn:Ep.
    + apply String.eqb_eq in Ep. simpl in H.
      destruct H as [[H|H]|H]; [congruence | now left | now right].
    + rewrite lookup_assign. destruct (String.eqb n (name x)) eqn:E.
      * now right.
      * simpl in H. destruct H as [[H|H]|H]; [|now left | now right].
        subst n. now rewrite String.eqb_refl in E.
Qed.

(** After [loadRemotes] every remote of the list is collapsed. *)
Lemma initial_collapsed (u : list GitRemote) (n : string) :
  In n (map name u) -> truthyAt (initialCollapsed u) n = true.
Proof.
  intros Hin. unfold truthyAt, initialCollapsed.
  destruct (string_dec n "__proto__") as [->|Hn].
  - destruct (lookup "__proto__" _) as [v|] eqn:Hl; [|reflexivity].
    apply (initial_allTrue u []) in Hl; [exact Hl|]. intros k w H. discriminate.
  - now rewrite (initial_lookup n u [] Hn (or_introl Hin)).
Qed.

Lemma find_unique (u : list GitRemote) (r : GitRemote) :
  NoDup (map name u) -> In r u -> find (named (name r)) u = Some r.
Proof.
  induction u as [|x u IH]; intros Hnd Hin; [destruct Hin|].
  inversion Hnd as [|? ? Hx Hu]; subst. simpl. unfold named at 1.
  destruct Hin as [->|Hin]; [now rewrite String.eqb_refl|].
  destruct (String.eqb (name x) (name r)) eqn:E; [|now apply IH].
  apply String.eqb_eq in E. exfalso. apply Hx. rewrite E.
  now apply in_map.
Qed.

Lemma find_withBranches (n : string) (loaded : list string)
      (u : list GitRemote) (r : GitRemote) :
  find (named n) u = Some r ->
  exists r', find (named n) (withBranches n loaded u) = Some r' /\
             branches r' = Some loaded.
Proof.
  induction u as [|x u IH]; simpl; [discriminate|].
  unfold named at 1. destruct (String.eqb (name x) n) eqn:E.
  - intros _. eexists. unfold named. simpl. rewrite E. split; reflexivity.
  - intros H. unfold named at 1. rewrite E. now apply IH.
Qed.
End RemotesFacts.

(** X24.  The remotes of the sidebar.  After [loadRemotes] every remote
    kept is collapsed.  The first click on one of them opens it, and asks
    for its branches exactly when the engine delivered the remote without
    any; the next click closes it and asks for nothing; and once branches
    have been stored for it, opening it again asks for nothing either. *)
Theorem remote_branches_are_asked_for_on_first_opening
        (remoteList : list RepoView.GitRemote) (r : RepoView.GitRemote)
        (loaded : list string) :
  In r (RepoView.uniqueRemotes remoteList) ->
  let s0 := RepoView.loadRemotes remoteList in
  let s1 := fst (RepoView.toggleRemote s0 (RepoView.name r)) in
  let s2 := fst (RepoView.toggleRemote s1 (RepoView.name r)) in
  let s3 := {| RepoView.remotes :=
                 RepoView.withBranches (RepoView.name r) loaded
                                       (RepoView.remotes s2);
               RepoView.remoteCollapsed := RepoView.remoteCollapsed s2 |} in
  Dict.truthyAt (RepoView.remoteCollapsed s0) (RepoView.name r) = true /\
  Dict.truthyAt (RepoView.remoteCollapsed s1) (RepoView.name r) = false /\
  snd (RepoView.toggleRemote s0 (RepoView.name r))
  = match RepoView.branches r with
    | None => Some (RepoView.name r)
    | Some _ => None
    end /\
  snd (RepoView.toggleRemote s1 (RepoView.name r)) = None /\
  Dict.truthyAt (RepoView.remoteCollapsed s2) (RepoView.name r) = true /\
  snd (RepoView.toggleRemote s3 (RepoView.name r)) = None.
Proof.
  intros Hin s0 s1 s2 s3.
  assert (Hnd : NoDup (map RepoView.name (RepoView.uniqueRemotes remoteList))).
  { rewrite uniqueRemotes_keepNew. apply keepNew_NoDup. }
  pose proof (find_unique _ r Hnd Hin) as Hfind.
  assert (H0 : Dict.truthyAt (RepoView.remoteCollapsed s0) (RepoView.name r)
               = true).
  { apply initial_collapsed. now apply in_map. }
  assert (H1 : Dict.truthyAt (RepoView.remoteCollapsed s1) (RepoView.name r)
               = false).
  { subst s1. cbn [RepoView.toggleRemote fst RepoView.remoteCollapsed].
    now rewrite truthyAt_flip, String.eqb_refl, H0. }
  assert (H2 : Dict.truthyAt (RepoView.remoteCollapsed s2) (RepoView.name r)
               = true).
  { subst s2. cbn [RepoView.toggleRemote fst RepoView.remoteCollapsed].
    now rewrite truthyAt_flip, String.eqb_refl, H1. }
  split; [exact H0|]. split; [exact H1|]. split; [|split; [|split]].
  - unfold RepoView.toggleRemote. cbn [snd]. rewrite H0.
    change (find (named (RepoView.name r)) (RepoView.uniqueRemotes remoteList))
      with (find (fun x => String.eqb (RepoView.name x) (RepoView.name r))
                 (RepoView.remotes s0)) in Hfind.
    now rewrite Hfind.
  - unfold RepoView.toggleRemote at 1. cbn [snd]. now rewrite H1.
  - exact H2.
  - unfold RepoView.toggleRemote at 1. cbn [snd].
    cbn [RepoView.remoteCollapsed RepoView.remotes s3]. rewrite H2.
    destruct (find_withBranches (RepoView.name r) loaded
                (RepoView.uniqueRemotes remoteList) r Hfind)
      as (r' & Hr' & Hb).
    change (find (named (RepoView.name r))
              (RepoView.withBranches (RepoView.name r) loaded
                 (RepoView.uniqueRemotes remoteList)))
      with (find (fun x => String.eqb (RepoView.name x) (RepoView.name r))
              (RepoView.withBranches (RepoView.name r) loaded
                 (RepoView.remotes s2))) in Hr'.
    now rewrite Hr', Hb.
Qed.

Lemma remote_branches_are_asked_for_on_first_opening_witness :
  snd (RepoView.toggleRemote
         (RepoView.loadRemotes [remoteOf "origin" "u1"; remoteOf "__proto__" "u2";
                                remoteOf "origin" "u3"])
         "__proto__")
  = Some "__proto__".
Proof.
  apply (remote_branches_are_asked_for_on_first_opening
           [remoteOf "origin" "u1"; remoteOf "__proto__" "u2";
            remoteOf "origin" "u3"]
           (remoteOf "__proto__" "u2") []).
  vm_compute. auto.
Defined.

(** X25.  A quirk of the remote branches: choosing branch [b] of remote
    [r] sets the selected branch to [r/b], but a row of the tree of that
    remote is marked as selected when its own name equals the selected
    branch.  So the row just clicked is never marked; a row is marked only
    if the remote has a branch that is itself called [r/b]. *)
Theorem chosen_remote_branch_is_not_marked
        (branches : list BranchTree.GitBranch) (remoteName branchName : string)
        (level : nat) (other : string) :
  let selectedBranch := RepoView.onSelectRemoteBranch remoteName branchName in
  (exists label current,
      BranchTree.branchRow branches selectedBranch level branchName
      = BranchTree.BranchItem branchName false (16 + level * 12) label current)
  /\
  ((exists label current,
       BranchTree.branchRow branches selectedBranch level other
       = BranchTree.BranchItem other true (16 + level * 12) label current)
   <-> other = remoteName ++ "/" ++ branchName).
Proof.
  intros selectedBranch.
  unfold BranchTree.branchRow, selectedBranch, RepoView.onSelectRemoteBranch.
  split.
  - do 2 eexists. f_equal.
    destruct (String.eqb (remoteName ++ "/" ++ branchName) branchName) eqn:E;
      [|reflexivity].
    apply String.eqb_eq in E. apply (f_equal String.length) in E.
    rewrite !length_app_string in E. simpl in E. lia.
  - split.
    + intros (label & current & H). injection H as H _ _.
      apply String.eqb_eq in H. now symmetry.
    + intros ->. do 2 eexists. now rewrite String.eqb_refl.
Qed.
